(** * A shallow embedding of the UCT engine of [main.py]

    The engine of [main.py] (classes [Node] and [AIPlayer]) is a Monte Carlo
    tree search over Reversi positions.  Python objects are mutable and shared
    by reference, so the embedding keeps two stores: an arena of search nodes
    and a heap of board objects, both addressed by natural numbers.  Every
    method becomes a computation in a small state-and-exception monad.
    Rewards and scores are the floats of Python: IEEE 754 binary64 numbers,
    computed with the operations of [SpecFloat]. *)

From Stdlib Require Import ZArith List Lia Ascii String SpecFloat.
From Stdlib Require QArith.
From stdpp Require Import base decidable option list strings.

Set Default Proof Using "Type".

(** ** Colours, exceptions and results *)

(** The two player identifiers: ['X'] (black) and ['O'] (white). *)
Inductive Color : Set := X | O.

#[global] Instance Color_eq_dec : EqDecision Color.
Proof. solve_decision. Defined.

(** [if color == 'X': color = 'O' else: color = 'X'] *)
Definition flip_color (c : Color) : Color :=
  if decide (c = X) then O else X.

(** The Python exceptions the engine can raise.  [DanglingRef] and
    [OutOfFuel] are not Python exceptions: the first stands for an address
    outside a store (a Python reference is never dangling), the second for a
    loop that has not finished within the bound the embedding gives it. *)
Inductive exn : Set :=
  | AttributeError | IndexError | ValueError | OverflowError
  | ZeroDivisionError | DanglingRef | OutOfFuel.

#[global] Instance exn_eq_dec : EqDecision exn.
Proof. solve_decision. Defined.

Inductive Result (A : Type) : Type :=
  | Ok (a : A)
  | Raise (e : exn).
Arguments Ok {A} a.
Arguments Raise {A} e.

(** ** The numbers of Python

    A Python [float] is an IEEE 754 binary64 number: 53 bits of precision,
    exponents below 1024, every operation rounded to the nearest float with
    ties to the even one. *)
Definition float : Type := spec_float.

Definition prec : Z := 53.
Definition emax : Z := 1024.

Definition fadd : float -> float -> float := SFadd prec emax.
Definition fsub : float -> float -> float := SFsub prec emax.
Definition fmul : float -> float -> float := SFmul prec emax.
Definition fdiv : float -> float -> float := SFdiv prec emax.
Definition fsqrt : float -> float := SFsqrt prec emax.

(** The float nearest to an integer; it is infinite when the integer is
    beyond the range of the floats. *)
Definition Z2float (z : Z) : float := binary_normalize prec emax z 0 false.

(** The literals [0.0], [2.0] and [1.5]. *)
Definition float_zero : float := S754_zero false.
Definition float_two : float := S754_finite false 4503599627370496 (-51).
Definition float_1_5 : float := S754_finite false 6755399441055744 (-52).

(** The conversion of an [int] to a [float]: [float(n)], and the conversion
    of the [int] operand of [x + n], [x - n] and [x / n] for a float [x].
    An [int] beyond the range of the floats raises [OverflowError]. *)
Definition py_float (z : Z) : Result float :=
  match Z2float z with
  | S754_infinity _ => Raise OverflowError
  | f => Ok f
  end.

(** [x / y] on floats raises [ZeroDivisionError] when [y] is zero. *)
Definition py_div (x y : float) : Result float :=
  match y with
  | S754_zero _ => Raise ZeroDivisionError
  | _ => Ok (fdiv x y)
  end.

(** The floats below zero, which [math.sqrt] refuses. *)
Definition float_negative (x : float) : bool :=
  match x with
  | S754_finite true _ _ | S754_infinity true => true
  | _ => false
  end.

(** [math.sqrt] of a float. *)
Definition py_sqrt (x : float) : Result float :=
  if float_negative x then Raise ValueError else Ok (fsqrt x).

(** A number is an [int] or a [float]: [get_ucb] returns the [int]
    [sys.maxsize] or a [float], and the comparison loops start from the
    [int] [-sys.maxsize]. *)
Inductive pynum : Type :=
  | PInt (z : Z)
  | PFloat (f : float).

(** The value of a number: a rational or an infinity; a NaN has none. *)
Inductive exact : Type :=
  | NegInf
  | Exact (q : QArith_base.Q)
  | PosInf.

(** m * 2 ^ e *)
Definition dyadic (m e : Z) : QArith_base.Q :=
  match e with
  | Zneg p => QArith_base.Qmake m (2 ^ p)
  | _ => QArith_base.inject_Z (m * 2 ^ e)
  end.

Definition float_value (f : float) : option exact :=
  match f with
  | S754_nan => None
  | S754_infinity s => Some (if s then NegInf else PosInf)
  | S754_zero _ => Some (Exact (QArith_base.inject_Z 0))
  | S754_finite s m e =>
      Some (Exact (dyadic (if s then Zneg m else Zpos m) e))
  end.

Definition py_value (x : pynum) : option exact :=
  match x with
  | PInt z => Some (Exact (QArith_base.inject_Z z))
  | PFloat f => float_value f
  end.

Definition exact_ltb (x y : exact) : bool :=
  match x, y with
  | NegInf, NegInf => false
  | NegInf, _ => true
  | Exact _, NegInf => false
  | Exact p, Exact q =>
      match QArith_base.Qcompare p q with Lt => true | _ => false end
  | Exact _, PosInf => true
  | PosInf, _ => false
  end.

(** [x < y] on numbers.  Python compares an [int] with a [float] by their
    exact values, without converting the [int]; a comparison with a NaN is
    false. *)
Definition py_lt (x y : pynum) : bool :=
  match py_value x, py_value y with
  | Some vx, Some vy => exact_ltb vx vy
  | _, _ => false
  end.

(** A number that is a NaN. *)
Definition py_nan (x : pynum) : Prop := py_value x = None.


(** [sys.maxsize] on a 64-bit build of CPython. *)
Definition sys_maxsize : Z := 2 ^ 63 - 1.

(** A float that is zero or above: not a NaN, and not negative. *)
Definition float_nonneg (x : float) : bool :=
  match x with
  | S754_zero _ | S754_infinity false | S754_finite false _ _ => true
  | _ => false
  end.

(** A finite float above zero. *)
Definition finite_positive (x : float) : Prop :=
  match x with
  | S754_finite false _ _ => True
  | _ => False
  end.

(** A finite float below 2 ^ B in absolute value. *)
Definition mag_le (B : Z) (x : float) : Prop :=
  match x with
  | S754_zero _ => True
  | S754_finite _ m e => (Zpos (digits2_pos m) + e <= B)%Z
  | _ => False
  end.

(** The float of an integer of at most 53 bits, given by its sign and its
    absolute value. *)
Definition small_float (s : bool) (p : positive) : float :=
  S754_finite s (Nat.iter (Z.to_nat (53 - Zpos (digits2_pos p))) xO p)
    (Zpos (digits2_pos p) - 53).

(** The two steps of a rounding: the mantissa is shifted to the exponent
    of its format, which loses no bit of a mantissa that ends in zeros;
    then it is rounded. *)
Definition exact_record (m : Z) : shr_record :=
  {| shr_m := m; shr_r := false; shr_s := false |}.

Definition first_shift (m : positive) (e : Z) : shr_record * Z :=
  let t := fexp prec emax (Zpos (digits2_pos m) + e) in
  (Nat.iter (Z.to_nat (t - e)) shr_1
     (exact_record (Zpos (Nat.iter (Z.to_nat (e - t)) xO m))), t).

Definition round_shifted (s : bool) (r : shr_record * Z) : float :=
  let '(mrs', e') := r in
  let '(mrs'', e'') :=
    shr_fexp prec emax
      (round_nearest_even (shr_m mrs') (loc_of_shr_record mrs')) e' loc_Exact
  in
  match shr_m mrs'' with
  | Z0 => S754_zero s
  | Zpos m => if (e'' <=? emax - prec)%Z then S754_finite s m e''
              else S754_infinity s
  | Zneg _ => S754_nan
  end.

(** ** The logarithm

    [math.log] of a positive [int] is what the [log] of the C library
    returns for it, which differs between platforms in the last bit: the
    engine takes it as a parameter.  The logarithm of an integer from 1 on
    is a number, and never below zero. *)
Class Libm := {
  libm_log : Z -> float;
  libm_log_nonneg : forall n, (0 < n)%Z -> float_nonneg (libm_log n) = true
}.

(** ** The board interface

    [game.py] and the board class are not part of the sources: [main.py]
    consumes a board only through [get_legal_actions], [_move] and
    [get_winner].  [_move] is given as a function on board values; the
    in-place mutation is done by [board_move] below on the heap of boards.
    [get_winner] returns the pair (winner, diff) with winner 0 for black,
    1 for white and 2 for a draw; diff is a count of pieces, so it fits a
    machine word. *)
Class Position (Board Action : Type) := {
  get_legal_actions : Board -> Color -> list Action;
  _move : Board -> Action -> Color -> Board;
  get_winner : Board -> Z * Z;
  get_winner_diff : forall b, (Z.abs (get_winner b).2 <= sys_maxsize)%Z
}.

(** Addresses of board objects and of node objects. *)
Abbreviation loc := nat (only parsing).
Abbreviation node_id := nat (only parsing).

Section Engine.

Context {Board Action : Type} `{Pos : Position Board Action} `{Lm : Libm}.

(** ** Data model *)

(** [class Node]: the fields of [Node.__init__].  [reward] starts as the
    float [0.0] and stays a float under the updates of [backup]. *)
Record Node := mkNode {
  visits : nat;
  reward : float;
  now_board : loc;
  children : list node_id;
  parent : option node_id;
  action : option Action;
  color : Color
}.

(** [class AIPlayer]: the fields of [AIPlayer.__init__]. *)
Record AIPlayer := mkAIPlayer {
  max_times : nat;
  ucb_param : float;
  ai_color : Color
}.

Definition AIPlayer_init (c : Color) : AIPlayer :=
  {| max_times := 50; ucb_param := float_1_5; ai_color := c |}.

(** The program state: the arena of nodes, the heap of boards, the stream
    of draws that [random.choice] will consume, and a ghost log of every
    call of [_move] (the board value before the call, the move, the side). *)
Record State := mkState {
  nodes : list Node;
  boards : list Board;
  rng : list nat;
  move_log : list (Board * Action * Color)
}.

Definition set_nodes (f : list Node -> list Node) (st : State) : State :=
  {| nodes := f (nodes st); boards := boards st; rng := rng st;
     move_log := move_log st |}.

Definition set_boards (f : list Board -> list Board) (st : State) : State :=
  {| nodes := nodes st; boards := f (boards st); rng := rng st;
     move_log := move_log st |}.

Definition set_rng (f : list nat -> list nat) (st : State) : State :=
  {| nodes := nodes st; boards := boards st; rng := f (rng st);
     move_log := move_log st |}.

Definition set_log (f : list (Board * Action * Color) ->
                        list (Board * Action * Color)) (st : State) : State :=
  {| nodes := nodes st; boards := boards st; rng := rng st;
     move_log := f (move_log st) |}.

(** ** The monad: state passing with exceptions.  The state at the moment
    an exception is raised is kept. *)
Definition M (A : Type) : Type := State -> Result A * State.

Definition ret {A} (a : A) : M A := fun st => (Ok a, st).

Definition raise {A} (e : exn) : M A := fun st => (Raise e, st).

(** An operation on numbers that returns or raises, as a computation. *)
Definition lift {A} (r : Result A) : M A := fun st => (r, st).

Definition bind {A B} (m : M A) (k : A -> M B) : M B :=
  fun st => match m st with
            | (Ok a, st') => k a st'
            | (Raise e, st') => (Raise e, st')
            end.

Notation "'let*' x ':=' m 'in' k" := (bind m (fun x => k))
  (at level 10, x name, m at level 200, k at level 200).
Notation "'do' m 'then' k" := (bind m (fun _ => k))
  (at level 10, m at level 200, k at level 200).

(** ** Primitive operations on the two stores *)

Definition get_node (n : node_id) : M Node :=
  fun st => match nodes st !! n with
            | Some nd => (Ok nd, st)
            | None => (Raise DanglingRef, st)
            end.

Definition put_node (n : node_id) (nd : Node) : M unit :=
  fun st => (Ok tt, set_nodes (fun l => <[n := nd]> l) st).

Definition read_board (l : loc) : M Board :=
  fun st => match boards st !! l with
            | Some b => (Ok b, st)
            | None => (Raise DanglingRef, st)
            end.

(** [deepcopy(board)]: a new board object with the same contents. *)
Definition deepcopy (l : loc) : M loc :=
  let* b := read_board l in
  fun st => (Ok (length (boards st)), set_boards (fun bs => bs ++ [b]) st).

(** [board.get_legal_actions(color)] *)
Definition board_get_legal_actions (l : loc) (c : Color) : M (list Action) :=
  let* b := read_board l in ret (get_legal_actions b c).

(** [board._move(action, color)]: mutates the board object at [l]. *)
Definition board_move (l : loc) (a : Action) (c : Color) : M unit :=
  let* b := read_board l in
  fun st => (Ok tt, set_log (fun lg => lg ++ [(b, a, c)])
                      (set_boards (fun bs => <[l := _move b a c]> bs) st)).

(** [board.get_winner()] *)
Definition board_get_winner (l : loc) : M (Z * Z) :=
  let* b := read_board l in ret (get_winner b).

(** [random.choice(seq)]: raises [IndexError] on an empty sequence, and
    otherwise returns the element at an index taken from the next draw. *)
Definition random_choice {A} (l : list A) : M A :=
  match l with
  | [] => raise IndexError
  | a :: _ =>
      fun st => (Ok (nth (hd 0 (rng st) mod length l) l a),
                 set_rng (fun r => tl r) st)
  end.

(** [Node(now_board, parent, action, color)]: a new node object. *)
Definition new_node (nb : loc) (par : option node_id) (act : option Action)
    (c : Color) : M node_id :=
  fun st =>
    (Ok (length (nodes st)),
     set_nodes (fun l => l ++ [{| visits := 0; reward := float_zero;
                                 now_board := nb;
                                 children := []; parent := par;
                                 action := act; color := c |}]) st).

(** ** [class Node] *)

(** [math.log] of a visit count and [math.sqrt]: both raise [ValueError]
    outside their domain. *)
Definition math_log (x : nat) : M float :=
  if decide (x = 0) then raise ValueError
  else ret (libm_log (Z.of_nat x)).

Definition math_sqrt (y : float) : M float := lift (py_sqrt y).

(** [Node.get_ucb].  The operations are run in the order of the source:
    [self.parent.visits] fails without a parent; then [math.log],
    [float(self.visits)], the division, [math.sqrt], and in the next line
    the division of the reward by the visit count, an [int] that is
    converted again. *)
Definition get_ucb (self : node_id) (ucb_param : float) : M pynum :=
  let* nd := get_node self in
  if decide (visits nd = 0) then ret (PInt sys_maxsize)
  else
    match parent nd with
    | None => raise AttributeError
    | Some p =>
        let* pd := get_node p in
        let* lg := math_log (visits pd) in
        let* fv := lift (py_float (Z.of_nat (visits nd))) in
        let* quot := lift (py_div (fmul float_two lg) fv) in
        let* explore := math_sqrt quot in
        let* fv' := lift (py_float (Z.of_nat (visits nd))) in
        let* mean := lift (py_div (reward nd) fv') in
        ret (PFloat (fadd mean (fmul ucb_param explore)))
    end.

(** [Node.add_child] *)
Definition add_child (self : node_id) (child_now_board : loc) (act : Action)
    (c : Color) : M unit :=
  let* child_node := new_node child_now_board (Some self) (Some act) c in
  let* nd := get_node self in
  put_node self {| visits := visits nd; reward := reward nd;
                   now_board := now_board nd;
                   children := children nd ++ [child_node];
                   parent := parent nd; action := action nd;
                   color := color nd |}.

(** The loop [for kid in self.children: if kid.visits == 0: return False]
    followed by [return True]. *)
Fixpoint all_visited (kids : list node_id) : M bool :=
  match kids with
  | [] => ret true
  | kid :: rest =>
      let* kd := get_node kid in
      if decide (visits kd = 0) then ret false else all_visited rest
  end.

(** [Node.full_expanded] *)
Definition full_expanded (self : node_id) : M bool :=
  let* nd := get_node self in
  if decide (length (children nd) = 0) then ret false
  else all_visited (children nd).

(** ** [class AIPlayer] *)

(** The loop shared by [select] and by the end of [uct]:
    [for child in children: if max_ucb < child.get_ucb(..): ...]. *)
Fixpoint max_ucb_loop (ucb_param : float) (kids : list node_id)
    (max_ucb : pynum) (max_node : option node_id) : M (option node_id) :=
  match kids with
  | [] => ret max_node
  | child :: rest =>
      let* child_ucb := get_ucb child ucb_param in
      if py_lt max_ucb child_ucb
      then max_ucb_loop ucb_param rest child_ucb (Some child)
      else max_ucb_loop ucb_param rest max_ucb max_node
  end.

(** The loop [for kid in node.children: if kid.visits == 0: return kid];
    falling off its end returns [None]. *)
Fixpoint first_unvisited (kids : list node_id) : M (option node_id) :=
  match kids with
  | [] => ret None
  | kid :: rest =>
      let* kd := get_node kid in
      if decide (visits kd = 0) then ret (Some kid) else first_unvisited rest
  end.

(** [AIPlayer.select].  The recursion follows child links, so it is bounded
    by a fuel; [select] gives it the number of nodes of the arena.
    [select(None)] fails on [len(node.children)]. *)
Fixpoint select_fuel (self : AIPlayer) (fuel : nat) (node : node_id)
    : M (option node_id) :=
  match fuel with
  | 0 => raise OutOfFuel
  | S fuel' =>
      let* nd := get_node node in
      if decide (length (children nd) = 0) then ret (Some node)
      else
        let* fe := full_expanded node in
        if fe then
          let* max_node := max_ucb_loop (ucb_param self) (children nd)
                             (PInt (- sys_maxsize)) None in
          match max_node with
          | None => raise AttributeError
          | Some c => select_fuel self fuel' c
          end
        else first_unvisited (children nd)
  end.

Definition select (self : AIPlayer) (node : node_id) : M (option node_id) :=
  fun st => select_fuel self (length (nodes st)) node st.

(** The loop of [extend]: one child per legal action, each on its own deep
    copy of the node's board with the action applied. *)
Fixpoint extend_loop (node : node_id) (nb : loc) (c new_color : Color)
    (actions : list Action) : M unit :=
  match actions with
  | [] => ret tt
  | act :: rest =>
      let* new_board := deepcopy nb in
      do board_move new_board act c then
      do add_child node new_board act new_color then
      extend_loop node nb c new_color rest
  end.

(** [AIPlayer.extend] *)
Definition extend (self : AIPlayer) (node : node_id) : M node_id :=
  let* nd := get_node node in
  if decide (visits nd = 0) then ret node
  else
    let new_color := flip_color (color nd) in
    let* actions := board_get_legal_actions (now_board nd) (color nd) in
    do extend_loop node (now_board nd) (color nd) new_color actions then
    let* nd' := get_node node in
    match children nd' with
    | [] => ret node
    | first :: _ => ret first
    end.

(** [AIPlayer.game_over] *)
Definition game_over (self : AIPlayer) (board : loc) : M bool :=
  let* b_list := board_get_legal_actions board X in
  let* w_list := board_get_legal_actions board O in
  ret (bool_decide (length b_list = 0) && bool_decide (length w_list = 0)).

(** The [while] loop of [stimulate]; [k] is [50 - count].  The action lists
    are read from [node.now_board] (at [nb]), the moves are applied to the
    copy [board]. *)
Fixpoint stimulate_loop (self : AIPlayer) (nb board : loc) (c : Color)
    (k : nat) : M Color :=
  match k with
  | 0 => ret c
  | S k' =>
      let* over := game_over self board in
      if over then ret c
      else
        let* action_list := board_get_legal_actions nb c in
        let* c' :=
          (if negb (bool_decide (length action_list = 0)) then
             let* act := random_choice action_list in
             do board_move board act c then
             ret (flip_color c)
           else
             let c1 := flip_color c in
             let* action_list := board_get_legal_actions nb c1 in
             let* act := random_choice action_list in
             do board_move board act c1 then
             ret (flip_color c1)) in
        stimulate_loop self nb board c' k'
  end.

(** [AIPlayer.stimulate] *)
Definition stimulate (self : AIPlayer) (node : node_id) : M Z :=
  let* nd := get_node node in
  let* board := deepcopy (now_board nd) in
  let* _c := stimulate_loop self (now_board nd) board (color nd) 50 in
  let* wd := board_get_winner board in
  let reward0 :=
    (if decide (fst wd = 2) then 0
     else if decide (fst wd = 0) then 10 + snd wd
     else - (10 + snd wd))%Z in
  let reward1 :=
    (if decide (ai_color self = X) then - reward0 else reward0)%Z in
  ret reward1.

(** [node.visits += 1] *)
Definition visited (nd : Node) : Node :=
  {| visits := visits nd + 1; reward := reward nd;
     now_board := now_board nd; children := children nd;
     parent := parent nd; action := action nd; color := color nd |}.

(** What both updates of [backup] do to a node: one visit more, and every
    link, the board and the colour as before. *)
Definition touched (nd nd' : Node) : Prop :=
  visits nd' = visits nd + 1 /\ now_board nd' = now_board nd /\
  children nd' = children nd /\ parent nd' = parent nd /\
  action nd' = action nd /\ color nd' = color nd.

(** A node after one pass of the loop of [backup], [rw] being the reward
    as a float: one visit more, and [node.reward += reward] or
    [node.reward -= reward]. *)
Definition bump (self : AIPlayer) (rw : float) (nd : Node) : Node :=
  {| visits := visits nd + 1;
     reward := if decide (color nd = ai_color self)
               then fadd (reward nd) rw else fsub (reward nd) rw;
     now_board := now_board nd; children := children nd;
     parent := parent nd; action := action nd; color := color nd |}.

(** [AIPlayer.backup].  The loop follows parent links, so it is bounded by
    a fuel; [backup] gives it the number of nodes of the arena.  The reward
    is an [int]: adding it to the float [node.reward] converts it first,
    which fails for an [int] beyond the floats, after the visit has been
    counted. *)
Fixpoint backup_fuel (self : AIPlayer) (fuel : nat) (node : option node_id)
    (rw : Z) : M Z :=
  match node with
  | None => ret 0%Z
  | Some n =>
      match fuel with
      | 0 => raise OutOfFuel
      | S fuel' =>
          let* nd := get_node n in
          do put_node n (visited nd) then
          let* rf := lift (py_float rw) in
          do put_node n (bump self rf nd) then
          backup_fuel self fuel' (parent nd) rw
      end
  end.

Definition backup (self : AIPlayer) (node : node_id) (rw : Z) : M Z :=
  fun st => backup_fuel self (length (nodes st)) (Some node) rw st.

(** One pass of the [for] loop of [uct].  [extend(None)] fails on
    [node.visits]. *)
Definition uct_iteration (self : AIPlayer) (root : node_id) : M unit :=
  let* selected_node := select self root in
  match selected_node with
  | None => raise AttributeError
  | Some sel =>
      let* leaf_node := extend self sel in
      let* rw := stimulate self leaf_node in
      do backup self leaf_node rw then ret tt
  end.

Fixpoint uct_loop (self : AIPlayer) (times : nat) (root : node_id) : M unit :=
  match times with
  | 0 => ret tt
  | S t => do uct_iteration self root then uct_loop self t root
  end.

(** The end of [uct]: the child of the root with the largest score, and
    [max_node.action], which fails when [max_node] is still [None]. *)
Definition uct_decide (self : AIPlayer) (root : node_id)
    : M (option Action) :=
  let* rd := get_node root in
  let* max_node := max_ucb_loop (ucb_param self) (children rd)
                     (PInt (- sys_maxsize)) None in
  match max_node with
  | None => raise AttributeError
  | Some c => let* cd := get_node c in ret (action cd)
  end.

(** [AIPlayer.uct] *)
Definition uct (self : AIPlayer) (max_times : nat) (root : node_id)
    : M (option Action) :=
  do uct_loop self max_times root then uct_decide self root.

(** [AIPlayer.get_move]: the root holds a deep copy of the caller's board. *)
Definition get_move (self : AIPlayer) (board : loc) : M (option Action) :=
  let* root_board := deepcopy board in
  let* root := new_node root_board None None (ai_color self) in
  uct self (max_times self) root.

(** ** Vocabulary of the statements *)

(** Some side has a legal move on [b]: the game is not over there. *)
Definition has_move (b : Board) : Prop :=
  get_legal_actions b X <> [] \/ get_legal_actions b O <> [].

(** The UCB1 score in the words of the specification, for a node with
    reward [r] and [v] visits under a parent with [Vp] visits:
    r / v + C * sqrt (2 * ln Vp / v), every operation being the one of the
    floats. *)
Definition ucb1 (r : float) (v Vp : nat) (C : float) : float :=
  fadd (fdiv r (Z2float (Z.of_nat v)))
       (fmul C (fsqrt (fdiv (fmul float_two (libm_log (Z.of_nat Vp)))
                            (Z2float (Z.of_nat v))))).

(** The node that [add_child] creates, and a node with a new child list. *)
Definition child_node (n : node_id) (c : Color) (l : loc) (a : Action)
    : Node :=
  {| visits := 0; reward := float_zero; now_board := l; children := [];
     parent := Some n; action := Some a; color := c |}.

Definition with_children (nd : Node) (cs : list node_id) : Node :=
  {| visits := visits nd; reward := reward nd; now_board := now_board nd;
     children := cs; parent := parent nd; action := action nd;
     color := color nd |}.

(** The chain of parent links from [n] upwards, cut after [fuel] nodes;
    [ancestors] gives it the size of the arena. *)
Fixpoint parent_chain (nds : list Node) (fuel : nat) (n : node_id)
    : list node_id :=
  match fuel with
  | 0 => []
  | S f =>
      match nds !! n with
      | None => []
      | Some nd =>
          n :: match parent nd with
               | None => []
               | Some p => parent_chain nds f p
               end
      end
  end.

Definition ancestors (st : State) (n : node_id) : list node_id :=
  parent_chain (nodes st) (length (nodes st)) n.

(** Parents are older than their children: a node object exists before any
    child is created for it, so parent links go down in the arena. *)
Definition parents_below (nds : list Node) : Prop :=
  forall n nd p, nds !! n = Some nd -> parent nd = Some p -> p < n.

(** An executable check of [parents_below]. *)
Fixpoint parents_below_from (k : nat) (nds : list Node) : bool :=
  match nds with
  | [] => true
  | nd :: rest =>
      match parent nd with
      | Some p => p <? k
      | None => true
      end && parents_below_from (S k) rest
  end.

(** The two invariants of the data model: a node that was never visited
    has no reward, and a node with a parent has the opposite colour. *)
Definition tree_inv (nds : list Node) : Prop :=
  forall n nd, nds !! n = Some nd ->
    (visits nd = 0 -> reward nd = float_zero) /\
    (forall p, parent nd = Some p ->
       exists pd, nds !! p = Some pd /\ color nd = flip_color (color pd)).

(** [Node(now_board=..., color=...)]: a root as [get_move] creates it. *)
Definition fresh_root (nb : loc) (c : Color) : Node :=
  {| visits := 0; reward := float_zero; now_board := nb; children := [];
     parent := None; action := None; color := c |}.

(** The states of a search: a fresh root alone in the arena, followed by
    any sequence of [select], [extend], [stimulate] and [backup], on any
    node and with any reward, whether the call returns or raises. *)
Inductive reachable (self : AIPlayer) : State -> Prop :=
  | reach_root nb c bs draws lg :
      reachable self {| nodes := [fresh_root nb c]; boards := bs;
                        rng := draws; move_log := lg |}
  | reach_select st n :
      reachable self st -> reachable self (select self n st).2
  | reach_extend st n :
      reachable self st -> reachable self (extend self n st).2
  | reach_stimulate st n :
      reachable self st -> reachable self (stimulate self n st).2
  | reach_backup st n rw :
      reachable self st -> reachable self (backup self n rw st).2.

(** A computation that reads the state and leaves it as it is. *)
Definition read_only {A} (m : M A) : Prop := forall st, (m st).2 = st.

(** A check of every node of an arena together with its address. *)
Fixpoint nodes_forall_from (P : nat -> Node -> bool) (k : nat)
    (nds : list Node) : bool :=
  match nds with
  | [] => true
  | nd :: rest => P k nd && nodes_forall_from P (S k) rest
  end.

(** Child links lead to younger nodes that point back to their parent. *)
Definition children_ok (nds : list Node) : Prop :=
  forall n nd k, nds !! n = Some nd -> k ∈ children nd ->
    n < k /\ exists kd, nds !! k = Some kd /\ parent kd = Some n.

Definition children_okb (nds : list Node) : bool :=
  nodes_forall_from
    (fun n nd =>
       forallb (fun k => (n <? k) &&
                  match nds !! k with
                  | Some kd => bool_decide (parent kd = Some n)
                  | None => false
                  end) (children nd)) 0 nds.

(** A node has been visited at most as often as its parent: every
    [backup] that passes through the node goes on to the parent. *)
Definition visits_ok (nds : list Node) : Prop :=
  forall n nd p pd, nds !! n = Some nd -> parent nd = Some p ->
    nds !! p = Some pd -> visits nd <= visits pd.

Definition visits_okb (nds : list Node) : bool :=
  nodes_forall_from
    (fun n nd =>
       match parent nd with
       | None => true
       | Some p => match nds !! p with
                   | Some pd => visits nd <=? visits pd
                   | None => true
                   end
       end) 0 nds.

(** The score of the child [k] of a node [nd], by the formula of the
    specification. *)
Definition child_score (C : float) (st : State) (nd : Node) (k : node_id)
    : pynum :=
  match nodes st !! k with
  | Some kd => PFloat (ucb1 (reward kd) (visits kd) (visits nd) C)
  | None => PInt 0
  end.

(** [c] is the first of the children of [nd] with the highest score, the
    scores being given by [score]: no child scores above [c], and every
    child before [c] in the child list scores below [c], unless its score
    is a NaN, which no comparison finds above or below anything. *)
Definition first_max (score : node_id -> pynum) (kids : list node_id)
    (c : node_id) : Prop :=
  exists i,
    kids !! i = Some c /\
    (forall j k, kids !! j = Some k -> py_lt (score c) (score k) = false) /\
    (forall j k, j < i -> kids !! j = Some k ->
                 py_lt (score k) (score c) = true \/ py_nan (score k)).

Definition first_max_child (C : float) (st : State) (nd : Node)
    (c : node_id) : Prop :=
  first_max (child_score C st nd) (children nd) c.

(** [k] is the first child of [nd], in the order of the child list, that
    has no visit. *)
Definition first_unvisited_child (st : State) (nd : Node) (k : node_id)
    : Prop :=
  exists i kd,
    children nd !! i = Some k /\ nodes st !! k = Some kd /\ visits kd = 0 /\
    (forall j k' kd', j < i -> children nd !! j = Some k' ->
                      nodes st !! k' = Some kd' -> visits kd' <> 0).

(** Children are created only for a node that has been visited. *)
Definition unvisited_childless (nds : list Node) : Prop :=
  forall n nd, nds !! n = Some nd -> visits nd = 0 -> children nd = [].

(** A well-formed search tree in the arena. *)
Definition well_formed (nds : list Node) : Prop :=
  parents_below nds /\ children_ok nds /\ visits_ok nds.

(** The frame of an operation: every board object of [st] is still there
    with the same contents in [st'] (boards are only added), and every node
    of [st] still refers to the same board object. *)
Definition frame (st st' : State) : Prop :=
  (exists ext, boards st' = boards st ++ ext) /\
  (forall n nd, nodes st !! n = Some nd ->
     exists nd', nodes st' !! n = Some nd' /\ now_board nd' = now_board nd).

Definition preserving {A} (m : M A) : Prop := forall st, frame st (m st).2.

(** [get_move] stopped after [k] iterations of the loop of [uct]. *)
Definition search_prefix (self : AIPlayer) (board : loc) (k : nat) : M unit :=
  let* root_board := deepcopy board in
  let* root := new_node root_board None None (ai_color self) in
  uct_loop self k root.

(** ** [class RandomPlayer] *)

(** The field of [RandomPlayer.__init__]. *)
Record RandomPlayer := mkRandomPlayer { random_color : Color }.

(** [RandomPlayer.random_choice] *)
Definition RandomPlayer_random_choice (self : RandomPlayer) (board : loc)
    : M (option Action) :=
  let* action_list := board_get_legal_actions board (random_color self) in
  if decide (length action_list = 0) then ret None
  else let* act := random_choice action_list in ret (Some act).

(** [RandomPlayer.get_move] (the message it prints is left out). *)
Definition RandomPlayer_get_move (self : RandomPlayer) (board : loc)
    : M (option Action) :=
  let* act := RandomPlayer_random_choice self board in
  ret act.

(** ** More vocabulary *)

(** The reward [stimulate] computes from the pair that [get_winner]
    returns. *)
Definition rollout_reward (self : AIPlayer) (wd : Z * Z) : Z :=
  let rw := (if decide (wd.1 = 2) then 0
             else if decide (wd.1 = 0) then 10 + wd.2
             else - (10 + wd.2))%Z in
  (if decide (ai_color self = X) then - rw else rw)%Z.

(** Every node refers to a board object of the heap. *)
Definition snapshots_ok (st : State) : Prop :=
  forall n nd, nodes st !! n = Some nd -> now_board nd < length (boards st).

(** No two nodes refer to the same board object. *)
Definition snapshots_distinct (nds : list Node) : Prop :=
  forall i j x y, nds !! i = Some x -> nds !! j = Some y ->
    now_board x = now_board y -> i = j.

(** The move that leads to a child is a legal move of the parent's side
    on the parent's board. *)
Definition children_legal (st : State) : Prop :=
  forall n nd k kd,
    nodes st !! n = Some nd -> k ∈ children nd -> nodes st !! k = Some kd ->
    exists b a, boards st !! now_board nd = Some b /\
                action kd = Some a /\
                a ∈ get_legal_actions b (color nd).

(** The node [root] is the only one without a parent. *)
Definition single_root (root : node_id) (nds : list Node) : Prop :=
  forall n nd, nds !! n = Some nd -> parent nd = None -> n = root.

(** The part of the invariant of a search that single steps of [backup]
    keep: every node has a board object of its own, allocated at [base] or
    later; children exist only where a visit has been; the move of a child
    is legal for its parent; [root] is the only node without parent. *)
Definition tree_rest (base : loc) (root : node_id) (st : State) : Prop :=
  snapshots_ok st /\
  (forall n nd, nodes st !! n = Some nd -> base <= now_board nd) /\
  unvisited_childless (nodes st) /\ children_legal st /\
  snapshots_distinct (nodes st) /\ single_root root (nodes st).

(** What holds of the arena and of the heap all along a search. *)
Definition tree_ok (base : loc) (root : node_id) (st : State) : Prop :=
  well_formed (nodes st) /\ tree_rest base root st.

(** The reward sum of a node is an integer that its float holds exactly,
    and it is within [K] per visit; this for every node whose visits,
    taken [K] times, stay below 2 ^ 53, up to where the floats have no
    gaps between the integers. *)
Definition rewards_within (K : Z) (nds : list Node) : Prop :=
  forall n nd, nds !! n = Some nd ->
    (K * Z.of_nat (visits nd) < 2 ^ 53)%Z ->
    exists r : Z,
      reward nd = Z2float r /\
      (- K * Z.of_nat (visits nd) <= r <= K * Z.of_nat (visits nd))%Z.

(** Every board object of the heap satisfies [good]. *)
Definition boards_good (good : Board -> Prop) (st : State) : Prop :=
  forall l b, boards st !! l = Some b -> good b.

(** What holds in addition when the boards are [good] and the rewards of
    the rollouts are within [K]. *)
Definition search_inv (good : Board -> Prop) (K : Z) (st : State) : Prop :=
  boards_good good st /\ rewards_within K (nodes st).

(** The boards that satisfy [good] stay so under every move, and the
    reward of a rollout that ends on one of them is within [K]. *)
Definition margin_ok (good : Board -> Prop) (K : Z) : Prop :=
  (forall b a c, good b -> good (_move b a c)) /\
  (forall b, good b -> (- K <= 10 + (get_winner b).2 <= K)%Z).

(** A computation that keeps a property of the state, whether it returns
    or raises. *)
Definition keeps {A} (G : State -> Prop) (m : M A) : Prop :=
  forall st, G st -> G (m st).2.

(** From [st] to [st'] the nodes only grow: a node keeps its parent,
    colour and board, its children are only added to and its visits only
    go up; and the board objects keep their contents. *)
Definition grows (st st' : State) : Prop :=
  (exists ext, boards st' = boards st ++ ext) /\
  (forall n nd, nodes st !! n = Some nd ->
     exists nd', nodes st' !! n = Some nd' /\
       (exists more, children nd' = children nd ++ more) /\
       parent nd' = parent nd /\ color nd' = color nd /\
       now_board nd' = now_board nd /\ action nd' = action nd /\
       visits nd <= visits nd').

(** The comparison loop of [select] and of [uct] starts from
    -[sys.maxsize]: it finds no child when a visited child of a visited node
    has a score that is not above that bound. *)
Definition stuck (C : float) (st : State) : Prop :=
  exists n nd k kd,
    nodes st !! n = Some nd /\ k ∈ children nd /\ nodes st !! k = Some kd /\
    visits kd <> 0 /\ visits nd <> 0 /\
    py_lt (PInt (- sys_maxsize)) (child_score C st nd k) = false.

(** The score that the last loop of [uct] gives to the child [k] of the
    root [rd]: [sys.maxsize] without a visit, UCB1 otherwise. *)
Definition final_score (C : float) (st : State) (rd : Node) (k : node_id)
    : pynum :=
  match nodes st !! k with
  | Some kd => if decide (visits kd = 0) then PInt sys_maxsize
               else PFloat (ucb1 (reward kd) (visits kd) (visits rd) C)
  | None => PInt 0
  end.

(** The node [k] is the child of [nd] for the move [a]: it stores [a], and
    its board is the board [b] of [nd] after [a] by the side of [nd]. *)
Definition child_of (st : State) (nd : Node) (b : Board) (k : node_id)
    (a : Action) : Prop :=
  exists kd, nodes st !! k = Some kd /\ action kd = Some a /\
             boards st !! now_board kd = Some (_move b a (color nd)).

(** Every node with children has exactly one child per legal move of its
    side on its board, in the order of the moves. *)
Definition expanded_once (st : State) : Prop :=
  forall n nd, nodes st !! n = Some nd -> children nd <> [] ->
    exists b, boards st !! now_board nd = Some b /\
              Forall2 (child_of st nd b) (children nd)
                (get_legal_actions b (color nd)).

(** The visits of the node at [k], and of the nodes of a list together. *)
Definition visits_at (nds : list Node) (k : node_id) : nat :=
  match nds !! k with
  | Some kd => visits kd
  | None => 0
  end.

Definition visits_of (nds : list Node) (ks : list node_id) : nat :=
  sum_list_with (visits_at nds) ks.

(** A node with a parent is listed among the children of that parent, and
    no node is listed twice. *)
Definition children_listed (nds : list Node) : Prop :=
  (forall k kd p, nds !! k = Some kd -> parent kd = Some p ->
     exists pd, nds !! p = Some pd /\ k ∈ children pd) /\
  (forall n nd, nds !! n = Some nd -> NoDup (children nd)).

(** The account of the visits: a node with children has one visit more
    than its children together, and a node without children whose side has
    a move has one visit at most.  While [backup] walks up, the node it
    will count next ([pending]) is one visit short. *)
Definition visits_accounted (st : State) (pending : option node_id) : Prop :=
  (forall m md, nodes st !! m = Some md -> children md <> [] ->
     visits md + (if decide (pending = Some m) then 1 else 0)
     = 1 + visits_of (nodes st) (children md)) /\
  (forall m md b, nodes st !! m = Some md -> children md = [] ->
     boards st !! now_board md = Some b ->
     get_legal_actions b (color md) <> [] ->
     visits md + (if decide (pending = Some m) then 1 else 0) <= 1).

End Engine.

(** ** [class HumanPlayer]

    The moves of this player are the strings that the board hands out as
    legal actions, such as "D3".  [input] reads the next line of the
    standard input, which the model takes as a list of lines, each a string
    of one-byte characters; the prompts it prints are left out. *)
Section Human.

Context {Board : Type} `{HPos : Position Board string}.

(** The field of [HumanPlayer.__init__]. *)
Record HumanPlayer := mkHumanPlayer { human_color : Color }.

(** The ways a call of [HumanPlayer.get_move] ends: it returns a string, an
    exception is raised, or [input] finds the input at its end, where
    Python raises [EOFError]. *)
Inductive Answer : Type :=
  | Returns (s : string)
  | Fails (e : exn)
  | EndOfInput.

(** [str.upper] on one character: the letters a to z are changed. *)
Definition upper (c : ascii) : ascii :=
  let n := nat_of_ascii c in
  if (97 <=? n) && (n <=? 122) then ascii_of_nat (n - 32) else c.

(** [x in s] for a string [x] of one character. *)
Fixpoint char_in (c : ascii) (s : string) : bool :=
  match s with
  | EmptyString => false
  | String d rest => bool_decide (c = d) || char_in c rest
  end.

(** [action[i]]: [IndexError] past the end of the string. *)
Definition str_index (s : string) (i : nat) : Result ascii :=
  match String.get i s with
  | Some c => Ok c
  | None => Raise IndexError
  end.

(** [HumanPlayer.get_move].  The loop [while True] reads one line per
    pass, so it is a recursion on the lines that are left; the answer comes
    with the lines that were not read.  The board is only read. *)
Fixpoint HumanPlayer_get_move (self : HumanPlayer) (b : Board)
    (lines : list string) : Answer * list string :=
  match lines with
  | [] => (EndOfInput, [])
  | action :: rest =>
      if bool_decide (action = "Q") || bool_decide (action = "q")
      then (Returns "Q", rest)
      else
        match str_index action 1 with
        | Raise e => (Fails e, rest)
        | Ok r =>
            match str_index action 0 with
            | Raise e => (Fails e, rest)
            | Ok c =>
                let row := upper r in
                let col := upper c in
                if char_in row "12345678" && char_in col "ABCDEFGH" then
                  if bool_decide
                       (action ∈ get_legal_actions b (human_color self))
                  then (Returns action, rest)
                  else HumanPlayer_get_move self b rest
                else HumanPlayer_get_move self b rest
            end
        end
  end.

(** A line that starts with a column letter and a row digit, in upper or
    lower case. *)
Definition coordinates (s : string) : bool :=
  match String.get 1 s, String.get 0 s with
  | Some r, Some c =>
      char_in (upper r) "12345678" && char_in (upper c) "ABCDEFGH"
  | _, _ => false
  end.

(** A line that the loop passes over: it has two characters or more, does
    not ask to quit, and is not a legal move with coordinates. *)
Definition passed_over (self : HumanPlayer) (b : Board) (s : string) : bool :=
  negb (bool_decide (s = "Q")) && negb (bool_decide (s = "q")) &&
  (2 <=? String.length s) &&
  negb (coordinates s &&
        bool_decide (s ∈ get_legal_actions b (human_color self))).

End Human.

(** ** A concrete logarithm

    The values of [math.log] on the integers from 1 to 64, as CPython
    returns them on Linux for x86-64.  The runs of the engine below ask for
    no other argument; beyond the table the last entry is the answer. *)
Definition log_table : list float :=
  [ S754_zero false;
    S754_finite false 6243314768165359 (-53);
    S754_finite false 4947709893870347 (-52);
    S754_finite false 6243314768165359 (-52);
    S754_finite false 7248263982714163 (-52);
    S754_finite false 8069367277953026 (-52);
    S754_finite false 8763600222181975 (-52);
    S754_finite false 4682486076124019 (-51);
    S754_finite false 4947709893870347 (-51);
    S754_finite false 5184960683398422 (-51);
    S754_finite false 5399580128524108 (-51);
    S754_finite false 5595512331017853 (-51);
    S754_finite false 5775752485243985 (-51);
    S754_finite false 5942628803132327 (-51);
    S754_finite false 6097986938292255 (-51);
    S754_finite false 6243314768165359 (-51);
    S754_finite false 6379829280276346 (-51);
    S754_finite false 6508538585911686 (-51);
    S754_finite false 6630287144694572 (-51);
    S754_finite false 6745789375439761 (-51);
    S754_finite false 6855655058026161 (-51);
    S754_finite false 6960408820565448 (-51);
    S754_finite false 7060505291240432 (-51);
    S754_finite false 7156341023059193 (-51);
    S754_finite false 7248263982714163 (-51);
    S754_finite false 7336581177285325 (-51);
    S754_finite false 7421564840805520 (-51);
    S754_finite false 7503457495173667 (-51);
    S754_finite false 7582476122586655 (-51);
    S754_finite false 7658815630333595 (-51);
    S754_finite false 7732651747257178 (-51);
    S754_finite false 7804143460206699 (-51);
    S754_finite false 7873435075459281 (-51);
    S754_finite false 7940657972317686 (-51);
    S754_finite false 8005932102448069 (-51);
    S754_finite false 8069367277953026 (-51);
    S754_finite false 8131064282924989 (-51);
    S754_finite false 8191115836735912 (-51);
    S754_finite false 8249607432179158 (-51);
    S754_finite false 8306618067481101 (-51);
    S754_finite false 8362220887911502 (-51);
    S754_finite false 8416483750067501 (-51);
    S754_finite false 8469469719751697 (-51);
    S754_finite false 8521237512606787 (-51);
    S754_finite false 8571841885227428 (-51);
    S754_finite false 8621333983281772 (-51);
    S754_finite false 8669761652191414 (-51);
    S754_finite false 8717169715100533 (-51);
    S754_finite false 8763600222181975 (-51);
    S754_finite false 8809092674755503 (-51);
    S754_finite false 8853684227211519 (-51);
    S754_finite false 8897409869326665 (-51);
    S754_finite false 8940302591212715 (-51);
    S754_finite false 8982393532846860 (-51);
    S754_finite false 4511856059940595 (-50);
    S754_finite false 4532143093607504 (-50);
    S754_finite false 4552071045814873 (-50);
    S754_finite false 4571652407313997 (-50);
    S754_finite false 4590899028240761 (-50);
    S754_finite false 4609822161187467 (-50);
    S754_finite false 4628432500714509 (-50);
    S754_finite false 4646740219649259 (-50);
    S754_finite false 4664755002480667 (-50);
    S754_finite false 4682486076124019 (-50) ].

#[program] Definition libm_table : Libm := {|
  libm_log := fun n => nth (Z.to_nat n - 1) log_table
                         (S754_finite false 4682486076124019 (-50))
|}.
Next Obligation.
  intros n _.
  assert (H : forallb float_nonneg log_table = true) by reflexivity.
  destruct (nth_in_or_default (Z.to_nat n - 1) log_table
              (S754_finite false 4682486076124019 (-50))) as [Hin| ->];
    [|reflexivity].
  rewrite forallb_forall in H. now apply H.
Qed.

(** ** A concrete board: Reversi on the 8x8 grid

    An instance of the board interface with the usual rules of the game, used
    to run the engine on concrete positions.  A board is the row-major list
    of its 64 squares; a move is a (row, column) pair counted from 0. *)
Module Reversi.

Definition Board := list (option Color).
Definition Action := (Z * Z)%type.

Definition on_board (r c : Z) : bool :=
  ((0 <=? r) && (r <? 8) && (0 <=? c) && (c <? 8))%Z.

Definition cell (b : Board) (r c : Z) : option Color :=
  if on_board r c then nth (Z.to_nat (8 * r + c)) b None else None.

Definition directions : list (Z * Z) :=
  [(-1, 0); (-1, 1); (0, 1); (1, 1); (1, 0); (1, -1); (0, -1); (-1, -1)]%Z.

(** The opposing stones bracketed from (r, c) in direction (dr, dc). *)
Fixpoint ray (b : Board) (me : Color) (r c dr dc : Z) (fuel : nat)
    (acc : list (Z * Z)) : list (Z * Z) :=
  match fuel with
  | 0 => []
  | S f =>
      let r' := (r + dr)%Z in
      let c' := (c + dc)%Z in
      match cell b r' c' with
      | None => []
      | Some x =>
          if decide (x = me) then acc
          else ray b me r' c' dr dc f ((r', c') :: acc)
      end
  end.

(** The stones a move on (r, c) would turn over; empty when illegal. *)
Definition flips (b : Board) (me : Color) (a : Action) : list (Z * Z) :=
  let '(r, c) := a in
  if on_board r c then
    match cell b r c with
    | Some _ => []
    | None => flat_map (fun d => ray b me r c (fst d) (snd d) 8 []) directions
    end
  else [].

Definition squares : list Action :=
  flat_map (fun r => map (fun c => (Z.of_nat r, Z.of_nat c)) (seq 0 8))
           (seq 0 8).

Definition legal_actions (b : Board) (me : Color) : list Action :=
  filter (fun a => flips b me a <> []) squares.

Definition set_cell (b : Board) (me : Color) (a : Z * Z) : Board :=
  <[Z.to_nat (8 * fst a + snd a) := Some me]> b.

(** A legal move places a stone and turns the bracketed stones over; an
    illegal one leaves the board as it is. *)
Definition apply_move (b : Board) (a : Action) (me : Color) : Board :=
  match flips b me a with
  | [] => b
  | fl => foldl (fun b' s => set_cell b' me s) (set_cell b me a) fl
  end.

(** The stones of a side on the 64 squares. *)
Definition count (b : Board) (me : Color) : Z :=
  Z.of_nat (length (filter (fun x => x = Some me) (take 64 b))).

(** 0: black has more stones, 1: white has more, 2: draw; with the lead. *)
Definition winner (b : Board) : Z * Z :=
  let black := count b X in
  let white := count b O in
  if (white <? black)%Z then (0, black - white)%Z
  else if (black <? white)%Z then (1, white - black)%Z
  else (2, 0)%Z.

#[global, program] Instance position : Position Board Action := {|
  get_legal_actions := legal_actions;
  _move := apply_move;
  get_winner := winner
|}.
Next Obligation.
  intros b. unfold winner, sys_maxsize.
  assert (H : forall me, (0 <= count b me <= 64)%Z).
  { intros me. unfold count. split; [lia|].
    apply (Nat2Z.inj_le _ 64).
    etrans; [apply length_filter|]. rewrite length_take. lia. }
  pose proof (H X). pose proof (H O).
  repeat case_match; cbn [snd]; lia.
Qed.

Definition empty_board : Board := replicate 64 None.

(** The opening position: white on D4 and E5, black on E4 and D5. *)
Definition initial_board : Board :=
  set_cell (set_cell (set_cell (set_cell empty_board O (3, 3)%Z) O (4, 4)%Z)
                     X (3, 4)%Z) X (4, 3)%Z.

(** Two finished games, every square taken: black on the first five rows
    and white on the last three (black wins by 16), and the reverse. *)
Definition black_wins_board : Board :=
  replicate 40 (Some X) ++ replicate 24 (Some O).

Definition white_wins_board : Board :=
  replicate 40 (Some O) ++ replicate 24 (Some X).

(** The state of a caller that holds one board object and nothing else. *)
Definition caller_state (b : Board) (draws : list nat) : @State Board Action :=
  {| nodes := []; boards := [b]; rng := draws; move_log := [] |}.

(** The state in which [get_move] starts its search: the caller's board at
    address 0, the root's deep copy of it at address 1, the root at 0. *)
Definition root_node (c : Color) : @Node Action :=
  {| visits := 0; reward := float_zero; now_board := 1; children := [];
     parent := None; action := None; color := c |}.

Definition root_state (c : Color) (b : Board) (draws : list nat)
    : @State Board Action :=
  {| nodes := [root_node c]; boards := [b; b]; rng := draws;
     move_log := [] |}.

(** The root of black on the opening position after one visit. *)
Definition visited_root : @Node Action :=
  {| visits := 1; reward := float_zero; now_board := 1; children := [];
     parent := None; action := None; color := X |}.

Definition visited_state : @State Board Action :=
  {| nodes := [visited_root]; boards := [initial_board; initial_board];
     rng := []; move_log := [] |}.

(** The search tree of black on the opening position after one visit of
    the root and one expansion: the root 0 and its four children 1 to 4. *)
Definition expanded_state : @State Board Action :=
  (extend (AIPlayer_init X) 0
     (backup (AIPlayer_init X) 0 0 (root_state X initial_board [])).2).2.

(** The root of [expanded_state], and its first child: black has played
    (2, 3) on the board at address 2 and white is to move. *)
Definition expanded_root : @Node Action :=
  {| visits := 1; reward := float_zero; now_board := 1;
     children := [1; 2; 3; 4];
     parent := None; action := None; color := X |}.

Definition first_child : @Node Action :=
  {| visits := 0; reward := float_zero; now_board := 2; children := [];
     parent := Some 0; action := Some (2, 3)%Z; color := O |}.

(** The search tree of black on the opening position after five
    iterations of [uct] (every draw 0): the root has five visits and each
    of its four children one visit and the reward 13. *)
Definition searched_state : @State Board Action :=
  (uct_loop (Lm := libm_table) (AIPlayer_init X) 5 0
     (root_state X initial_board [])).2.

Definition searched_root : @Node Action :=
  {| visits := 5; reward := Z2float (-52); now_board := 1;
     children := [1; 2; 3; 4];
     parent := None; action := None; color := X |}.

Definition searched_child (l : nat) (a : Action) : @Node Action :=
  {| visits := 1; reward := Z2float 13; now_board := l; children := [];
     parent := Some 0; action := Some a; color := O |}.


End Reversi.

(** ** Reversi with written moves

    The same game with the squares named as a player types them: the
    column letter A to H, then the row digit 1 to 8. *)
Module ReversiText.

Definition name (a : Reversi.Action) : string :=
  String (ascii_of_nat (65 + Z.to_nat (snd a)))
    (String (ascii_of_nat (49 + Z.to_nat (fst a))) EmptyString).

Definition square (s : string) : Reversi.Action :=
  match s with
  | String c (String r _) =>
      (Z.of_nat (nat_of_ascii r) - 49, Z.of_nat (nat_of_ascii c) - 65)%Z
  | _ => (-1, -1)%Z
  end.

Definition position : Position Reversi.Board string := {|
  get_legal_actions := fun b c => map name (Reversi.legal_actions b c);
  _move := fun b s c => Reversi.apply_move b (square s) c;
  get_winner := Reversi.winner;
  get_winner_diff := get_winner_diff (Position := Reversi.position)
|}.

End ReversiText.


(** * Properties of the numbers *)

(** ** The conversion of an [int] to a [float] *)

Lemma digits2_pos_succ p :
  (Zpos (digits2_pos (Pos.succ p)) <= Zpos (digits2_pos p) + 1)%Z.
Proof.
  induction p as [p IH|p IH|].
  - change (Pos.succ (xI p)) with (xO (Pos.succ p)). cbn [digits2_pos].
    rewrite !Pos2Z.inj_succ. lia.
  - change (Pos.succ (xO p)) with (xI p). cbn [digits2_pos].
    rewrite !Pos2Z.inj_succ. lia.
  - vm_compute. discriminate.
Qed.

Lemma digits2_pos_size p : digits2_pos p = Pos.size p.
Proof. induction p as [p IH|p IH|]; cbn; congruence. Qed.

Lemma Zdigits2_nonneg m : (0 <= Zdigits2 m)%Z.
Proof. destruct m; cbn; lia. Qed.

Lemma Zdigits2_bound m k :
  (0 <= m < 2 ^ k)%Z -> (0 <= k)%Z -> (Zdigits2 m <= k)%Z.
Proof.
  intros [Hm Hlt] Hk. destruct m as [|p|p]; cbn; [lia| |lia].
  rewrite digits2_pos_size.
  pose proof (Pos.size_le p) as Hs.
  apply Pos2Z.pos_le_pos in Hs. rewrite Pos2Z.inj_pow in Hs.
  rewrite (Pos2Z.inj_xO p) in Hs.
  destruct (Z_lt_le_dec k (Zpos (Pos.size p))) as [Hgt|]; [|lia].
  assert (2 ^ (k + 1) <= 2 ^ Zpos (Pos.size p))%Z
    by (apply Z.pow_le_mono_r; lia).
  rewrite Z.pow_add_r, Z.pow_1_r in H by lia. lia.
Qed.

Lemma Zdigits2_succ m : (0 <= m)%Z -> (Zdigits2 (m + 1) <= Zdigits2 m + 1)%Z.
Proof.
  intros Hm. destruct m as [|p|p]; [vm_compute; discriminate| |lia].
  change (Zpos p + 1)%Z with (Zpos (p + 1)). rewrite Pos.add_1_r.
  apply digits2_pos_succ.
Qed.

Lemma digits2_pos_iter_xO k : forall m,
  Zpos (digits2_pos (Pos.iter xO m k)) = (Zpos (digits2_pos m) + Zpos k)%Z.
Proof.
  induction k as [|k IH] using Pos.peano_ind; intros m.
  - cbn [Pos.iter digits2_pos]. rewrite Pos2Z.inj_succ. lia.
  - rewrite Pos.iter_succ. cbn [digits2_pos].
    rewrite Pos2Z.inj_succ, IH, Pos2Z.inj_succ. lia.
Qed.

Lemma shr_1_digits mrs :
  (0 <= shr_m mrs)%Z ->
  (0 <= shr_m (shr_1 mrs))%Z /\
  (Zdigits2 (shr_m (shr_1 mrs)) <= Zdigits2 (shr_m mrs))%Z.
Proof.
  destruct mrs as [m r s]. cbn [shr_m]. intros Hm.
  destruct m as [|[p|p|]|p]; cbn [shr_1 shr_m Zdigits2 digits2_pos];
    rewrite ?Pos2Z.inj_succ; lia.
Qed.

Lemma iter_pos_inv {A} (f : A -> A) (P : A -> Prop) :
  (forall x, P x -> P (f x)) -> forall n x, P x -> P (SpecFloat.iter_pos f n x).
Proof. intros Hf. induction n as [n IH|n IH|]; cbn; auto. Qed.

Lemma shr_digits mrs e n D :
  (0 <= shr_m mrs)%Z -> (Zdigits2 (shr_m mrs) <= D)%Z ->
  (0 <= shr_m (shr mrs e n).1)%Z /\
  (Zdigits2 (shr_m (shr mrs e n).1) <= D)%Z /\
  ((shr mrs e n).2 = e \/ (0 < n /\ (shr mrs e n).2 = e + n))%Z.
Proof.
  intros H0 HD. destruct n as [|p|p]; cbn [shr fst snd]; [auto|..|auto].
  pose proof (iter_pos_inv shr_1
                (fun r => (0 <= shr_m r)%Z /\ (Zdigits2 (shr_m r) <= D)%Z)) as H.
  destruct (H (fun x Hx => let '(conj a b) := Hx in
                 let '(conj c d) := shr_1_digits x a in
                 conj c (Z.le_trans _ _ _ d b)) p mrs (conj H0 HD)) as [? ?].
  split; [done|]. split; [done|]. right. lia.
Qed.

Lemma binary_round_aux_finite sx mx ex lx :
  (0 <= mx)%Z -> (Zdigits2 mx <= 64)%Z -> (ex <= 0)%Z ->
  match binary_round_aux prec emax sx mx ex lx with
  | S754_infinity _ | S754_nan => False
  | _ => True
  end.
Proof.
  intros Hm Hd He. unfold binary_round_aux, shr_fexp.
  match goal with |- context [shr ?r ?e ?n] =>
    destruct (shr_digits r e n 64) as (H1 & H2 & H3);
      [destruct lx as [|[]]; exact Hm|destruct lx as [|[]]; exact Hd|];
    destruct (shr r e n) as [mrs' e'] eqn:E1
  end.
  cbn [fst snd] in H1, H2, H3.
  set (m2 := round_nearest_even (shr_m mrs') (loc_of_shr_record mrs')).
  assert (Hm2 : (0 <= m2)%Z /\ (Zdigits2 m2 <= 65)%Z).
  { unfold m2, round_nearest_even.
    pose proof (Zdigits2_succ (shr_m mrs') H1).
    destruct (loc_of_shr_record mrs') as [|[]];
      try destruct (Z.even (shr_m mrs')); split; lia. }
  destruct Hm2 as [Hm2 Hd2].
  match goal with |- context [shr ?r ?e ?n] =>
    destruct (shr_digits r e n 65 Hm2 Hd2) as (H4 & H5 & H6);
    destruct (shr r e n) as [mrs'' e''] eqn:E2
  end.
  cbn [fst snd] in H4, H5, H6.
  destruct (shr_m mrs'') as [|p|p]; [exact I| |lia].
  assert (Hle : (e'' <= emax - prec)%Z).
  { pose proof (Zdigits2_nonneg mx). pose proof (Zdigits2_nonneg m2).
    unfold fexp, SpecFloat.emin, prec, emax in *. lia. }
  apply Z.leb_le in Hle. now rewrite Hle.
Qed.

Lemma Z2float_finite z :
  (Z.abs z < 2 ^ 64)%Z ->
  match Z2float z with
  | S754_infinity _ | S754_nan => False
  | _ => True
  end.
Proof.
  intros Hz. unfold Z2float, binary_normalize.
  destruct z as [|p|p]; [exact I|..];
    unfold binary_round, shl_align;
    (assert (Hd : (Zdigits2 (Zpos p) <= 64)%Z)
       by (apply Zdigits2_bound; lia));
    cbn [Zdigits2] in Hd;
    (destruct (fexp prec emax (Zpos (digits2_pos p) + 0) - 0)%Z
       as [|d|d] eqn:Ed;
     [apply binary_round_aux_finite; cbn [Zdigits2]; lia
     |apply binary_round_aux_finite; cbn [Zdigits2]; lia|]);
    (apply binary_round_aux_finite;
     [lia
     |cbn [Zdigits2]; rewrite digits2_pos_iter_xO;
      unfold fexp, SpecFloat.emin, prec, emax in Ed; lia
     |unfold fexp, SpecFloat.emin, prec, emax in *; lia]).
Qed.

Lemma shr_1_digits_eq mrs :
  (0 <= shr_m mrs)%Z ->
  (0 <= shr_m (shr_1 mrs))%Z /\
  Zdigits2 (shr_m (shr_1 mrs)) = Z.max 0 (Zdigits2 (shr_m mrs) - 1).
Proof.
  destruct mrs as [m r s]. cbn [shr_m]. intros Hm.
  destruct m as [|[p|p|]|p]; cbn [shr_1 shr_m Zdigits2 digits2_pos];
    rewrite ?Pos2Z.inj_succ; lia.
Qed.

Lemma iter_pos_count {A} (f : A -> A) (Q : Z -> A -> Prop) :
  (forall k x, (0 <= k)%Z -> Q k x -> Q (k + 1)%Z (f x)) ->
  forall n k x, (0 <= k)%Z -> Q k x ->
    Q (k + Zpos n)%Z (SpecFloat.iter_pos f n x).
Proof.
  intros Hf. induction n as [n IH|n IH|]; intros k x Hk HQ; cbn.
  - replace (k + Zpos (xI n))%Z with (k + 1 + Zpos n + Zpos n)%Z by lia.
    apply IH; [lia|]. apply IH; [lia|]. now apply Hf.
  - replace (k + Zpos (xO n))%Z with (k + Zpos n + Zpos n)%Z by lia.
    apply IH; [lia|]. now apply IH.
  - now apply Hf.
Qed.

Lemma shr_digits_eq mrs e n :
  (0 <= shr_m mrs)%Z ->
  (0 <= shr_m (shr mrs e n).1)%Z /\
  Zdigits2 (shr_m (shr mrs e n).1)
    = Z.max 0 (Zdigits2 (shr_m mrs) - Z.max 0 n) /\
  (shr mrs e n).2 = (e + Z.max 0 n)%Z.
Proof.
  intros H0. pose proof (Zdigits2_nonneg (shr_m mrs)) as Hd.
  destruct n as [|p|p]; cbn [shr fst snd]; [split; [done|]; split; lia|
                                            |split; [done|]; split; lia].
  destruct (iter_pos_count shr_1
    (fun k r => (0 <= shr_m r)%Z /\
       Zdigits2 (shr_m r) = Z.max 0 (Zdigits2 (shr_m mrs) - k))) with
    (n := p) (k := 0%Z) (x := mrs) as [H1 H2]; [|lia|split; [done|lia]|].
  { intros k x Hk [a b]. destruct (shr_1_digits_eq x a) as [c d].
    split; [done|]. rewrite d, b. lia. }
  cbn in H2. split; [done|]. split; [|lia]. rewrite H2. lia.
Qed.

Lemma Zdigits2_mono_succ m : (0 <= m)%Z -> (Zdigits2 m <= Zdigits2 (m + 1))%Z.
Proof.
  intros Hm. destruct m as [|p|p]; [vm_compute; discriminate| |lia].
  change (Zpos p + 1)%Z with (Zpos (p + 1)). cbn [Zdigits2].
  rewrite (digits2_pos_size p), (digits2_pos_size (p + 1)).
  pose proof (Pos.size_le p) as H1. pose proof (Pos.size_gt (p + 1)) as H2.
  apply Pos2Z.pos_le_pos in H1. apply Pos2Z.pos_lt_pos in H2.
  rewrite Pos2Z.inj_pow in H1, H2. rewrite (Pos2Z.inj_xO p) in H1.
  rewrite Pos2Z.inj_add in H2.
  destruct (Z_lt_le_dec (Zpos (Pos.size (p + 1))) (Zpos (Pos.size p)))
    as [Hlt|]; [|lia].
  assert (2 ^ (Zpos (Pos.size (p + 1)) + 1) <= 2 ^ Zpos (Pos.size p))%Z
    by (apply Z.pow_le_mono_r; lia).
  rewrite Z.pow_add_r, Z.pow_1_r in H by lia. lia.
Qed.

Lemma Zdigits2_pos_iff m : (0 <= m)%Z -> (0 < Zdigits2 m)%Z -> (0 < m)%Z.
Proof. destruct m; cbn; lia. Qed.

Lemma shr_record_of_loc_m m l : shr_m (shr_record_of_loc m l) = m.
Proof. destruct l as [|[]]; reflexivity. Qed.

Lemma binary_round_aux_positive sx mx ex lx :
  (0 < mx)%Z -> (Zdigits2 mx <= 64)%Z -> (-52 <= ex <= 0)%Z ->
  exists m e, binary_round_aux prec emax sx mx ex lx = S754_finite sx m e.
Proof.
  intros Hm Hd He. unfold binary_round_aux, shr_fexp.
  assert (HD : (1 <= Zdigits2 mx)%Z) by (destruct mx; cbn in *; lia).
  match goal with |- context [shr ?r ?e ?n] =>
    destruct (shr_digits_eq r e n) as (H1 & H2 & H3);
      [rewrite shr_record_of_loc_m; lia|];
    destruct (shr r e n) as [mrs' e'] eqn:E1
  end.
  rewrite shr_record_of_loc_m in H2. cbn [fst snd] in H1, H2, H3.
  set (m2 := round_nearest_even (shr_m mrs') (loc_of_shr_record mrs')).
  assert (Hm2 : (0 <= m2)%Z /\
                (Zdigits2 (shr_m mrs') <= Zdigits2 m2
                 <= Zdigits2 (shr_m mrs') + 1)%Z).
  { unfold m2, round_nearest_even.
    pose proof (Zdigits2_succ (shr_m mrs') H1).
    pose proof (Zdigits2_mono_succ (shr_m mrs') H1).
    destruct (loc_of_shr_record mrs') as [|[]];
      try destruct (Z.even (shr_m mrs')); split; lia. }
  destruct Hm2 as [Hm2 Hd2].
  match goal with |- context [shr ?r ?e ?n] =>
    destruct (shr_digits_eq r e n) as (H4 & H5 & H6);
      [rewrite shr_record_of_loc_m; lia|];
    destruct (shr r e n) as [mrs'' e''] eqn:E2
  end.
  rewrite shr_record_of_loc_m in H5. cbn [fst snd] in H4, H5, H6.
  unfold fexp, SpecFloat.emin, prec, emax in *.
  assert (Hpos : (0 < shr_m mrs'')%Z)
    by (apply Zdigits2_pos_iff; [done|lia]).
  destruct (shr_m mrs'') as [|p|p]; [lia| |lia].
  assert (Hle : (e'' <= 1024 - 53)%Z) by lia.
  apply Z.leb_le in Hle. rewrite Hle. eauto.
Qed.

Lemma Z2float_positive z :
  (0 < z < 2 ^ 64)%Z -> exists m e, Z2float z = S754_finite false m e.
Proof.
  intros [H0 Hz]. unfold Z2float, binary_normalize.
  destruct z as [|p|p]; [lia| |lia].
  unfold binary_round, shl_align.
  assert (Hd : (Zdigits2 (Zpos p) <= 64)%Z) by (apply Zdigits2_bound; lia).
  cbn [Zdigits2] in Hd.
  destruct (fexp prec emax (Zpos (digits2_pos p) + 0) - 0)%Z
    as [|d|d] eqn:Ed.
  - apply binary_round_aux_positive; cbn [Zdigits2]; lia.
  - apply binary_round_aux_positive; cbn [Zdigits2]; lia.
  - unfold fexp, SpecFloat.emin, prec, emax in *.
    apply binary_round_aux_positive; cbn [Zdigits2].
    + lia.
    + unfold shift_pos. rewrite digits2_pos_iter_xO. lia.
    + lia.
Qed.

(** ** The order of the numbers *)

Lemma exact_ltb_Qlt p q :
  exact_ltb (Exact p) (Exact q) = true <-> QArith_base.Qlt p q.
Proof.
  cbn [exact_ltb]. rewrite QArith_base.Qlt_alt.
  destruct (QArith_base.Qcompare p q); split; congruence.
Qed.

Lemma exact_ltb_irrefl x : exact_ltb x x = false.
Proof.
  destruct x as [|q|]; [reflexivity| |reflexivity].
  apply not_true_is_false. rewrite exact_ltb_Qlt.
  apply QArith_base.Qlt_irrefl.
Qed.

Lemma exact_ltb_trans x y z :
  exact_ltb x y = true -> exact_ltb y z = true -> exact_ltb x z = true.
Proof.
  destruct x as [|p|], y as [|q|], z as [|r|]; try (cbn; congruence).
  rewrite !exact_ltb_Qlt. apply QArith_base.Qlt_trans.
Qed.

(** What is not above [m] is below whatever is above [m]. *)
Lemma exact_ltb_le_lt m a b :
  exact_ltb m a = false -> exact_ltb m b = true -> exact_ltb a b = true.
Proof.
  destruct m as [|p|], a as [|q|], b as [|r|]; try (cbn; congruence).
  intros H1 H2. apply exact_ltb_Qlt in H2. apply exact_ltb_Qlt.
  apply QArith_base.Qle_lt_trans with p; [|done].
  apply QArith_base.Qnot_lt_le. intros H. apply exact_ltb_Qlt in H. congruence.
Qed.

Lemma exact_ltb_asym x y : exact_ltb x y = true -> exact_ltb y x = false.
Proof.
  intros H. apply not_true_is_false. intros H'.
  pose proof (exact_ltb_trans _ _ _ H H') as Hxx.
  rewrite exact_ltb_irrefl in Hxx. discriminate.
Qed.

Lemma py_lt_value x y :
  py_lt x y = true ->
  exists vx vy, py_value x = Some vx /\ py_value y = Some vy /\
                exact_ltb vx vy = true.
Proof.
  unfold py_lt. destruct (py_value x), (py_value y); try discriminate. eauto.
Qed.

Lemma py_lt_not_nan x y : py_lt x y = true -> ~ py_nan x /\ ~ py_nan y.
Proof.
  intros (vx & vy & Hx & Hy & _)%py_lt_value. unfold py_nan. split; congruence.
Qed.

Lemma py_lt_irrefl x : py_lt x x = false.
Proof. unfold py_lt. destruct (py_value x); [apply exact_ltb_irrefl|done]. Qed.

Lemma py_lt_trans x y z :
  py_lt x y = true -> py_lt y z = true -> py_lt x z = true.
Proof.
  intros (vx & vy & Hx & Hy & H1)%py_lt_value
         (vy' & vz & Hy' & Hz & H2)%py_lt_value.
  unfold py_lt. rewrite Hx, Hz. simplify_eq. eauto using exact_ltb_trans.
Qed.

Lemma py_lt_asym x y : py_lt x y = true -> py_lt y x = false.
Proof.
  intros H. apply not_true_is_false. intros H'.
  pose proof (py_lt_trans _ _ _ H H') as Hxx.
  rewrite py_lt_irrefl in Hxx. discriminate.
Qed.

(** A number that is not above [m] is below whatever is above [m]. *)
Lemma py_lt_le_lt m a b :
  py_lt m a = false -> py_lt m b = true -> ~ py_nan a -> py_lt a b = true.
Proof.
  intros H1 (vm & vb & Hm & Hb & H2)%py_lt_value Ha.
  unfold py_lt, py_nan in *. rewrite Hm in H1. rewrite Hb.
  destruct (py_value a) as [va|]; [|done].
  eauto using exact_ltb_le_lt.
Qed.

(** Nothing that is not above [m] is above what is above [m]. *)
Lemma py_lt_le_not_gt m a b :
  py_lt m a = false -> py_lt m b = true -> py_lt b a = false.
Proof.
  intros H1 H2. destruct (py_value a) as [va|] eqn:Ha.
  - apply py_lt_asym, (py_lt_le_lt m); [done..|]. unfold py_nan. congruence.
  - unfold py_lt. rewrite Ha. now destruct (py_value b).
Qed.

(** ** Signs *)

Lemma binary_round_aux_sign mx ex lx :
  float_negative (binary_round_aux prec emax false mx ex lx) = false.
Proof.
  unfold binary_round_aux.
  destruct (shr_fexp _ _ _ _ _) as [mrs' e'].
  destruct (shr_fexp _ _ _ _ _) as [mrs'' e''].
  destruct (shr_m mrs''); [reflexivity| |reflexivity].
  now destruct (_ <=? _)%Z.
Qed.

Lemma fmul_sign x y :
  float_negative x = false -> float_negative y = false ->
  float_negative (fmul x y) = false.
Proof.
  destruct x as [[]|[]| |[] mx ex], y as [[]|[]| |[] my ey];
    try discriminate; try reflexivity.
  intros _ _. apply binary_round_aux_sign.
Qed.

Lemma fdiv_sign x my ey :
  float_negative x = false ->
  float_negative (fdiv x (S754_finite false my ey)) = false.
Proof.
  destruct x as [[]|[]| |[] mx ex]; try discriminate; try reflexivity.
  intros _. unfold fdiv, SFdiv.
  match goal with |- context [SFdiv_core_binary ?a ?b ?c ?d ?e ?f] =>
    destruct (SFdiv_core_binary a b c d e f) as [[mz ez] lz] end.
  apply binary_round_aux_sign.
Qed.


(** ** The floats that the operations return *)

Lemma Zdigits2_lt m k : (0 <= m)%Z -> (Zdigits2 m <= k)%Z -> (m < 2 ^ k)%Z.
Proof.
  intros Hm Hd. destruct m as [|p|p]; [|cbn in Hd|lia].
  - pose proof (Zdigits2_nonneg 0). apply Z.pow_pos_nonneg; [lia|].
    cbn in Hd. lia.
  - rewrite digits2_pos_size in Hd.
    pose proof (Pos.size_gt p) as Hs. apply Pos2Z.pos_lt_pos in Hs.
    rewrite Pos2Z.inj_pow in Hs.
    assert (2 ^ Zpos (Pos.size p) <= 2 ^ k)%Z
      by (apply Z.pow_le_mono_r; lia).
    lia.
Qed.






(** ** Integers that the floats hold exactly *)

Lemma iter_pos_nat {A} (f : A -> A) n : forall x,
  SpecFloat.iter_pos f n x = Nat.iter (Pos.to_nat n) f x.
Proof.
  induction n as [n IH|n IH|]; intros x; cbn [SpecFloat.iter_pos].
  - rewrite !IH, Pos2Nat.inj_xI, <- Nat.iter_add, <- Nat.iter_succ_r.
    f_equal. lia.
  - rewrite !IH, Pos2Nat.inj_xO, <- Nat.iter_add. f_equal. lia.
  - reflexivity.
Qed.

Lemma nat_iter_0 {A} (f : A -> A) x : Nat.iter 0 f x = x.
Proof. reflexivity. Qed.

Lemma pos_iter_nat {A} (f : A -> A) x p :
  Pos.iter f x p = Nat.iter (Pos.to_nat p) f x.
Proof. apply Pos2Nat.inj_iter. Qed.

Lemma shr_iter_xO d : forall p,
  Nat.iter d shr_1 (exact_record (Zpos (Nat.iter d xO p)))
  = exact_record (Zpos p).
Proof.
  induction d as [|d IH]; intros p; [reflexivity|].
  rewrite Nat.iter_succ_r, Nat.iter_succ. apply IH.
Qed.

Lemma digits2_pos_nat_iter_xO d p :
  Zpos (digits2_pos (Nat.iter d xO p))
  = (Zpos (digits2_pos p) + Z.of_nat d)%Z.
Proof.
  induction d as [|d IH]; [rewrite nat_iter_0; lia|].
  rewrite Nat.iter_succ. cbn [digits2_pos]. rewrite Pos2Z.inj_succ, IH. lia.
Qed.

Lemma Zpos_nat_iter_xO d p :
  Zpos (Nat.iter d xO p) = (Zpos p * 2 ^ Z.of_nat d)%Z.
Proof.
  induction d as [|d IH];
    [rewrite nat_iter_0; change (2 ^ Z.of_nat 0)%Z with 1%Z; lia|].
  rewrite Nat.iter_succ, Pos2Z.inj_xO, IH, Nat2Z.inj_succ, Z.pow_succ_r by lia.
  lia.
Qed.

Lemma binary_round_first_shift s m e :
  binary_round prec emax s m e = round_shifted s (first_shift m e).
Proof.
  unfold binary_round, shl_align, first_shift.
  set (t := fexp prec emax (Zpos (digits2_pos m) + e)).
  destruct (t - e)%Z as [|d|d] eqn:Ed.
  - assert (He : t = e) by lia.
    replace (e - t)%Z with 0%Z by lia. cbn [Z.to_nat]. rewrite !nat_iter_0.
    unfold binary_round_aux, round_shifted, shr_fexp at 1.
    cbn [Zdigits2 shr_record_of_loc]. fold t. rewrite Ed.
    clearbody t. subst t. reflexivity.
  - replace (Z.to_nat (e - t)) with 0 by lia. rewrite ?nat_iter_0.
    unfold binary_round_aux, round_shifted, shr_fexp at 1.
    cbn [Zdigits2 shr_record_of_loc]. fold t. rewrite Ed.
    cbn [shr]. rewrite iter_pos_nat.
    replace (e + Zpos d)%Z with t by lia.
    replace (Z.to_nat (Zpos d)) with (Pos.to_nat d) by lia. reflexivity.
  - replace (Z.to_nat (Zneg d)) with 0 by lia. rewrite ?nat_iter_0.
    replace (Z.to_nat (e - t)) with (Pos.to_nat d) by lia.
    rewrite pos_iter_nat.
    unfold binary_round_aux, round_shifted, shr_fexp at 1.
    cbn [Zdigits2 shr_record_of_loc].
    rewrite digits2_pos_nat_iter_xO.
    replace (Zpos (digits2_pos m) + Z.of_nat (Pos.to_nat d) + t)%Z
      with (Zpos (digits2_pos m) + e)%Z by lia.
    fold t. rewrite Z.sub_diag. reflexivity.
Qed.

Lemma first_shift_scale d p e :
  first_shift (Nat.iter d xO p) (e - Z.of_nat d) = first_shift p e.
Proof.
  unfold first_shift. rewrite digits2_pos_nat_iter_xO.
  replace (Zpos (digits2_pos p) + Z.of_nat d + (e - Z.of_nat d))%Z
    with (Zpos (digits2_pos p) + e)%Z by lia.
  set (t := fexp prec emax (Zpos (digits2_pos p) + e)). f_equal.
  destruct (Z_lt_le_dec e t) as [Hlt|Hle].
  - replace (Z.to_nat (e - Z.of_nat d - t)) with 0 by lia.
    replace (Z.to_nat (e - t)) with 0 by lia. rewrite ?nat_iter_0.
    replace (Z.to_nat (t - (e - Z.of_nat d)))
      with (Z.to_nat (t - e) + d) by lia.
    now rewrite Nat.iter_add, shr_iter_xO.
  - replace (Z.to_nat (t - e)) with 0 by lia. rewrite ?nat_iter_0.
    destruct (Z_lt_le_dec (e - t) (Z.of_nat d)) as [Hd|Hd].
    + replace (Z.to_nat (e - Z.of_nat d - t)) with 0 by lia.
      rewrite ?nat_iter_0.
      assert (Hsplit : Nat.iter d xO p
                = Nat.iter (Z.to_nat (t - (e - Z.of_nat d))) xO
                    (Nat.iter (Z.to_nat (e - t)) xO p))
        by (rewrite <- Nat.iter_add; f_equal; lia).
      now rewrite Hsplit, shr_iter_xO.
    + replace (Z.to_nat (t - (e - Z.of_nat d))) with 0 by lia.
      rewrite ?nat_iter_0. rewrite <- Nat.iter_add. do 3 f_equal. lia.
Qed.

Lemma binary_round_scale s d p e :
  binary_round prec emax s (Nat.iter d xO p) (e - Z.of_nat d)
  = binary_round prec emax s p e.
Proof. now rewrite !binary_round_first_shift, first_shift_scale. Qed.

(** Rounding m * 2 ^ k at the exponent e - k is rounding m at e. *)
Lemma binary_normalize_scale z k e sz :
  (0 <= k)%Z ->
  binary_normalize prec emax (z * 2 ^ k) (e - k) sz
  = binary_normalize prec emax z e sz.
Proof.
  intros Hk. rewrite <- (Z2Nat.id k Hk).
  destruct z as [|p|p]; [reflexivity|..].
  - rewrite <- Zpos_nat_iter_xO. cbn [binary_normalize].
    apply binary_round_scale.
  - change (Zneg p) with (- Zpos p)%Z. rewrite Z.mul_opp_l.
    rewrite <- Zpos_nat_iter_xO. cbn [Z.opp binary_normalize].
    apply binary_round_scale.
Qed.

(** An integer of at most 53 bits is a float. *)
Lemma binary_round_small s p :
  (Zpos (digits2_pos p) <= 53)%Z ->
  binary_round prec emax s p 0
  = S754_finite s (Nat.iter (Z.to_nat (53 - Zpos (digits2_pos p))) xO p)
      (Zpos (digits2_pos p) - 53).
Proof.
  intros Hd. rewrite binary_round_first_shift. unfold first_shift.
  replace (fexp prec emax (Zpos (digits2_pos p) + 0))
    with (Zpos (digits2_pos p) - 53)%Z
    by (unfold fexp, SpecFloat.emin, prec, emax; lia).
  replace (Z.to_nat (Zpos (digits2_pos p) - 53 - 0)) with 0 by lia.
  replace (0 - (Zpos (digits2_pos p) - 53))%Z
    with (53 - Zpos (digits2_pos p))%Z by lia.
  rewrite ?nat_iter_0. cbn [round_shifted exact_record loc_of_shr_record shr_m
       round_nearest_even].
  unfold shr_fexp. cbn [Zdigits2 shr_record_of_loc].
  rewrite digits2_pos_nat_iter_xO.
  replace (fexp prec emax _ - _)%Z with 0%Z
    by (unfold fexp, SpecFloat.emin, prec, emax; lia).
  cbn [shr shr_m].
  replace (_ <=? _)%Z with true; [reflexivity|].
  symmetry. apply Z.leb_le. unfold prec, emax. lia.
Qed.

Lemma shl_align_fst m e e' :
  (e' <= e)%Z -> Zpos (shl_align m e e').1 = (Zpos m * 2 ^ (e - e'))%Z.
Proof.
  intros H. unfold shl_align. destruct (e' - e)%Z as [|d|d] eqn:Ed; cbn [fst].
  - replace (e - e')%Z with 0%Z by lia. lia.
  - lia.
  - rewrite pos_iter_nat, Zpos_nat_iter_xO. do 2 f_equal. lia.
Qed.

Lemma digits2_pos_small p : (Zpos p < 2 ^ 53)%Z -> (Zpos (digits2_pos p) <= 53)%Z.
Proof. intros H. apply (Zdigits2_bound (Zpos p) 53); lia. Qed.

Lemma Z2float_pos p : (Zpos p < 2 ^ 53)%Z -> Z2float (Zpos p) = small_float false p.
Proof. intros H. apply binary_round_small, digits2_pos_small, H. Qed.

Lemma Z2float_neg p : (Zpos p < 2 ^ 53)%Z -> Z2float (Zneg p) = small_float true p.
Proof. intros H. apply binary_round_small, digits2_pos_small, H. Qed.

Lemma small_float_aligned s p ez :
  (Zpos (digits2_pos p) <= 53)%Z -> (ez <= Zpos (digits2_pos p) - 53)%Z ->
  cond_Zopp s
    (Zpos (shl_align (Nat.iter (Z.to_nat (53 - Zpos (digits2_pos p))) xO p)
             (Zpos (digits2_pos p) - 53) ez).1)
  = (cond_Zopp s (Zpos p) * 2 ^ (- ez))%Z.
Proof.
  intros Hd He. rewrite shl_align_fst, Zpos_nat_iter_xO by lia.
  rewrite <- Z.mul_assoc, <- Z.pow_add_r by lia.
  replace (Z.of_nat (Z.to_nat (53 - Zpos (digits2_pos p)))
           + (Zpos (digits2_pos p) - 53 - ez))%Z with (- ez)%Z by lia.
  destruct s; cbn [cond_Zopp]; lia.
Qed.

Lemma fadd_small sa pa sb pb :
  (Zpos (digits2_pos pa) <= 53)%Z -> (Zpos (digits2_pos pb) <= 53)%Z ->
  fadd (small_float sa pa) (small_float sb pb)
  = Z2float (cond_Zopp sa (Zpos pa) + cond_Zopp sb (Zpos pb)).
Proof.
  intros Ha Hb. unfold small_float, fadd, SFadd.
  set (ez := Z.min _ _).
  rewrite !small_float_aligned by lia.
  rewrite <- Z.mul_add_distr_r.
  replace ez with (0 - - ez)%Z at 2 by lia.
  apply binary_normalize_scale. lia.
Qed.

Lemma fsub_small sa pa sb pb :
  (Zpos (digits2_pos pa) <= 53)%Z -> (Zpos (digits2_pos pb) <= 53)%Z ->
  fsub (small_float sa pa) (small_float sb pb)
  = Z2float (cond_Zopp sa (Zpos pa) - cond_Zopp sb (Zpos pb)).
Proof.
  intros Ha Hb. unfold small_float, fsub, SFsub.
  set (ez := Z.min _ _).
  rewrite !small_float_aligned by lia.
  rewrite <- Z.mul_sub_distr_r.
  replace ez with (0 - - ez)%Z at 2 by lia.
  apply binary_normalize_scale. lia.
Qed.

(** The sum and the difference of two integers below 2 ^ 53 in absolute
    value are computed without a rounding of the operands: the result is
    the float of the exact sum or difference. *)
Lemma fadd_exact a b :
  (Z.abs a < 2 ^ 53)%Z -> (Z.abs b < 2 ^ 53)%Z ->
  fadd (Z2float a) (Z2float b) = Z2float (a + b).
Proof.
  intros Ha Hb.
  destruct a as [|p|p];
    [rewrite Z.add_0_l; destruct b as [|q|q]; [reflexivity|..];
     rewrite ?Z2float_pos, ?Z2float_neg by lia; reflexivity| |];
    (destruct b as [|q|q];
     [rewrite Z.add_0_r; rewrite ?Z2float_pos, ?Z2float_neg by lia;
      reflexivity|..]);
    rewrite ?(Z2float_pos p), ?(Z2float_neg p), ?(Z2float_pos q),
            ?(Z2float_neg q) by lia;
    rewrite fadd_small by (apply digits2_pos_small; lia); reflexivity.
Qed.

Lemma fsub_exact a b :
  (Z.abs a < 2 ^ 53)%Z -> (Z.abs b < 2 ^ 53)%Z ->
  fsub (Z2float a) (Z2float b) = Z2float (a - b).
Proof.
  intros Ha Hb.
  destruct a as [|p|p];
    [destruct b as [|q|q];
     [reflexivity
     |change (0 - Zpos q)%Z with (Zneg q)
     |change (0 - Zneg q)%Z with (Zpos q)];
     rewrite ?Z2float_pos, ?Z2float_neg by lia; reflexivity| |];
    (destruct b as [|q|q];
     [rewrite Z.sub_0_r; rewrite ?Z2float_pos, ?Z2float_neg by lia;
      reflexivity|..]);
    rewrite ?(Z2float_pos p), ?(Z2float_neg p), ?(Z2float_pos q),
            ?(Z2float_neg q) by lia;
    rewrite fsub_small by (apply digits2_pos_small; lia); reflexivity.
Qed.

(** ** Floats that are not below zero *)

Lemma float_nonneg_negative x : float_nonneg x = true -> float_negative x = false.
Proof. now destruct x as [[]|[]| |[] m e]. Qed.

Lemma binary_round_aux_nonneg mx ex lx :
  (0 <= mx)%Z -> float_nonneg (binary_round_aux prec emax false mx ex lx) = true.
Proof.
  intros Hm. unfold binary_round_aux, shr_fexp.
  match goal with |- context [shr ?r ?e ?n] =>
    destruct (shr_digits_eq r e n) as (H1 & _ & _);
      [rewrite shr_record_of_loc_m; lia|];
    destruct (shr r e n) as [mrs' e'] eqn:E1
  end.
  cbn [fst snd] in H1.
  set (m2 := round_nearest_even (shr_m mrs') (loc_of_shr_record mrs')).
  assert (Hm2 : (0 <= m2)%Z).
  { unfold m2, round_nearest_even.
    destruct (loc_of_shr_record mrs') as [|[]];
      try destruct (Z.even (shr_m mrs')); lia. }
  match goal with |- context [shr ?r ?e ?n] =>
    destruct (shr_digits_eq r e n) as (H4 & _ & _);
      [rewrite shr_record_of_loc_m; lia|];
    destruct (shr r e n) as [mrs'' e''] eqn:E2
  end.
  cbn [fst snd] in H4.
  destruct (shr_m mrs'') as [|p|p]; [reflexivity| |lia].
  now destruct (_ <=? _)%Z.
Qed.

Lemma fmul_nonneg m e y :
  float_nonneg y = true -> float_nonneg (fmul (S754_finite false m e) y) = true.
Proof.
  destruct y as [[]|[]| |[] my ey]; try discriminate; try reflexivity.
  intros _. apply binary_round_aux_nonneg. lia.
Qed.

Lemma fdiv_nonneg x my ey :
  float_nonneg x = true ->
  float_nonneg (fdiv x (S754_finite false my ey)) = true.
Proof.
  destruct x as [[]|[]| |[] mx ex]; try discriminate; try reflexivity.
  intros _. unfold fdiv, SFdiv, SFdiv_core_binary.
  match goal with |- context [Z.div_eucl ?a ?b] =>
    pose proof (Z_div_mod a b ltac:(lia)) as Hdm;
    assert (Ha : (0 <= a)%Z);
    [|destruct (Z.div_eucl a b) as [q r]]
  end.
  { destruct (_ - _ - _)%Z; [lia| |lia]. apply Z.shiftl_nonneg. lia. }
  apply binary_round_aux_nonneg. nia.
Qed.

Lemma fsqrt_nonneg x : float_nonneg x = true -> float_nonneg (fsqrt x) = true.
Proof.
  destruct x as [[]|[]| |[] mx ex]; try discriminate; try reflexivity.
  intros _. unfold fsqrt, SFsqrt, SFsqrt_core_binary.
  match goal with |- context [Z.sqrtrem ?a] =>
    assert (Ha : (0 <= a)%Z);
    [|pose proof (Z.sqrtrem_spec a Ha) as Hs;
      destruct (Z.sqrtrem a) as [q r]]
  end.
  { destruct (_ - _)%Z; [lia| |lia]. apply Z.shiftl_nonneg. lia. }
  apply binary_round_aux_nonneg. lia.
Qed.

(** ** Floats of a bounded size *)

Lemma binary_round_aux_mag s mx ex lx B :
  (0 <= mx)%Z -> (Zdigits2 mx + ex <= B)%Z -> (-1074 <= B <= 970)%Z ->
  mag_le (B + 1) (binary_round_aux prec emax s mx ex lx).
Proof.
  intros Hm Hd HB. unfold binary_round_aux, shr_fexp.
  pose proof (Zdigits2_nonneg mx) as HD.
  match goal with |- context [shr ?r ?e ?n] =>
    destruct (shr_digits_eq r e n) as (H1 & H2 & H3);
      [rewrite shr_record_of_loc_m; lia|];
    destruct (shr r e n) as [mrs' e'] eqn:E1
  end.
  rewrite shr_record_of_loc_m in H2. cbn [fst snd] in H1, H2, H3.
  set (m2 := round_nearest_even (shr_m mrs') (loc_of_shr_record mrs')).
  assert (Hm2 : (0 <= m2)%Z /\ (Zdigits2 m2 <= Zdigits2 (shr_m mrs') + 1)%Z).
  { unfold m2, round_nearest_even.
    pose proof (Zdigits2_succ (shr_m mrs') H1).
    destruct (loc_of_shr_record mrs') as [|[]];
      try destruct (Z.even (shr_m mrs')); split; lia. }
  destruct Hm2 as [Hm2 Hd2].
  match goal with |- context [shr ?r ?e ?n] =>
    destruct (shr_digits_eq r e n) as (H4 & H5 & H6);
      [rewrite shr_record_of_loc_m; lia|];
    destruct (shr r e n) as [mrs'' e''] eqn:E2
  end.
  rewrite shr_record_of_loc_m in H5. cbn [fst snd] in H4, H5, H6.
  pose proof (Zdigits2_nonneg m2).
  destruct (shr_m mrs'') as [|p|p] eqn:Ep; [exact I| |lia].
  cbn [Zdigits2] in H5.
  assert (Hsum : (Zpos (digits2_pos p) + e'' <= B + 1)%Z)
    by (unfold fexp, SpecFloat.emin, prec, emax in *; lia).
  assert (Hle : (e'' <= emax - prec)%Z) by (unfold prec, emax; lia).
  apply Z.leb_le in Hle. rewrite Hle. exact Hsum.
Qed.

Lemma digits2_pos_lower p : (2 ^ (Zpos (digits2_pos p) - 1) <= Zpos p)%Z.
Proof.
  rewrite digits2_pos_size. pose proof (Pos.size_le p) as Hs.
  apply Pos2Z.pos_le_pos in Hs. rewrite Pos2Z.inj_pow in Hs.
  rewrite (Pos2Z.inj_xO p) in Hs.
  replace (Zpos (Pos.size p)) with (Zpos (Pos.size p) - 1 + 1)%Z in Hs by lia.
  rewrite Z.pow_add_r, Z.pow_1_r in Hs by lia. lia.
Qed.

Lemma digits2_pos_upper p : (Zpos p < 2 ^ Zpos (digits2_pos p))%Z.
Proof. apply (Zdigits2_lt (Zpos p)); cbn [Zdigits2]; lia. Qed.

(** The quotient of two finite floats is about 2 ^ (Bx - By) at most when
    the dividend is below 2 ^ Bx and the divisor is 2 ^ (By - 1) at
    least. *)
Lemma fdiv_mag sx mx ex sy my ey Bx By :
  (Zpos (digits2_pos mx) + ex <= Bx)%Z ->
  (By <= Zpos (digits2_pos my) + ey)%Z ->
  (-1074 <= Bx - By + 1 <= 970)%Z ->
  mag_le (Bx - By + 2)
    (fdiv (S754_finite sx mx ex) (S754_finite sy my ey)).
Proof.
  intros Hx Hy HB. unfold fdiv, SFdiv, SFdiv_core_binary.
  cbn [Zdigits2].
  set (d1 := Zpos (digits2_pos mx)) in *.
  set (d2 := Zpos (digits2_pos my)) in *.
  set (e' := Z.min (fexp prec emax (d1 + ex - (d2 + ey))) (ex - ey)).
  assert (He' : (e' <= ex - ey)%Z /\ (e' <= fexp prec emax (d1 + ex - (d2 + ey)))%Z)
    by (unfold e'; lia).
  set (s := (ex - ey - e')%Z).
  assert (Hs : (0 <= s)%Z) by (unfold s; lia).
  set (m' := match s with
             | Z0 => Zpos mx
             | Zpos _ => Z.shiftl (Zpos mx) s
             | Zneg _ => 0%Z
             end).
  assert (Hm' : m' = (Zpos mx * 2 ^ s)%Z).
  { unfold m'. destruct s as [|p|p]; [lia| |lia].
    now rewrite Z.shiftl_mul_pow2 by lia. }
  pose proof (digits2_pos_upper mx) as Hux. fold d1 in Hux.
  pose proof (digits2_pos_lower my) as Hly. fold d2 in Hly.
  assert (Hd1 : (0 < d1)%Z) by (unfold d1; lia).
  assert (Hd2 : (0 < d2)%Z) by (unfold d2; lia).
  assert (Hps : (0 < 2 ^ s)%Z) by (apply Z.pow_pos_nonneg; lia).
  assert (Hup : (0 <= m' < 2 ^ (d1 + s))%Z).
  { rewrite Hm', Z.pow_add_r by lia. nia. }
  pose proof (Z_div_mod m' (Zpos my) ltac:(lia)) as Hdm.
  destruct (Z.div_eucl m' (Zpos my)) as [q r]. destruct Hdm as [Hq Hr].
  assert (Hq0 : (0 <= q)%Z) by nia.
  replace (Bx - By + 2)%Z with (Bx - By + 1 + 1)%Z by lia.
  apply binary_round_aux_mag; [exact Hq0| |exact HB].
  assert (HP : (0 < 2 ^ (d2 - 1))%Z) by (apply Z.pow_pos_nonneg; lia).
  destruct (Z_lt_le_dec (d1 + s - d2 + 1) 0) as [Hneg|Hk].
  - assert (2 ^ (d1 + s) <= 2 ^ (d2 - 1))%Z
      by (apply Z.pow_le_mono_r; lia).
    assert (q = 0%Z) by nia. subst q. cbn [Zdigits2].
    unfold fexp, SpecFloat.emin, prec, emax in He'. lia.
  - assert (Hq2 : (q < 2 ^ (d1 + s - d2 + 1))%Z).
    { assert (Hsplit : (2 ^ (d1 + s) = 2 ^ (d1 + s - d2 + 1) * 2 ^ (d2 - 1))%Z).
      { rewrite <- Z.pow_add_r by lia. f_equal. lia. }
      nia. }
    pose proof (Zdigits2_bound q (d1 + s - d2 + 1) (conj Hq0 Hq2) Hk).
    unfold s in *. lia.
Qed.

(** ** Floats above the sentinel of the comparison loops *)

Lemma float_nonneg_above f :
  float_nonneg f = true -> py_lt (PInt (- sys_maxsize)) (PFloat f) = true.
Proof.
  destruct f as [s|[]| |[] m e]; try discriminate; intros _;
    [reflexivity..|].
  unfold py_lt. cbn [py_value float_value]. apply exact_ltb_Qlt.
  unfold dyadic, QArith_base.Qlt, QArith_base.inject_Z, sys_maxsize.
  destruct e as [|e|e]; cbn [QArith_base.Qnum QArith_base.Qden].
  - lia.
  - pose proof (Z.pow_pos_nonneg 2 (Zpos e) ltac:(lia) ltac:(lia)). nia.
  - lia.
Qed.

Lemma mag_le_above f :
  mag_le 62 f -> py_lt (PInt (- sys_maxsize)) (PFloat f) = true.
Proof.
  destruct f as [s|s| |s m e]; cbn [mag_le];
    [intros _; reflexivity|intros []|intros []|].
  destruct s; [|intros _; now apply float_nonneg_above].
  intros Hd.
  unfold py_lt. cbn [py_value float_value]. apply exact_ltb_Qlt.
  pose proof (digits2_pos_upper m) as Hu.
  assert (Hdp : (0 < Zpos (digits2_pos m))%Z) by lia.
  unfold dyadic, QArith_base.Qlt, QArith_base.inject_Z, sys_maxsize.
  destruct e as [|e|e]; cbn [QArith_base.Qnum QArith_base.Qden].
  - assert (2 ^ Zpos (digits2_pos m) <= 2 ^ 62)%Z
      by (apply Z.pow_le_mono_r; lia).
    change (2 ^ 63)%Z with (2 * 2 ^ 62)%Z. lia.
  - assert (Hsplit : (2 ^ Zpos (digits2_pos m) * 2 ^ Zpos e <= 2 ^ 62)%Z).
    { rewrite <- Z.pow_add_r by lia. apply Z.pow_le_mono_r; lia. }
    pose proof (Z.pow_pos_nonneg 2 (Zpos e) ltac:(lia) ltac:(lia)).
    change (2 ^ 63)%Z with (2 * 2 ^ 62)%Z.
    change (Zneg m) with (- Zpos m)%Z. nia.
  - rewrite Pos2Z.inj_pow. change (Zpos 2) with 2%Z.
    assert (Hsplit : (2 ^ Zpos (digits2_pos m) <= 2 ^ 62 * 2 ^ Zpos e)%Z).
    { rewrite <- Z.pow_add_r by lia. apply Z.pow_le_mono_r; lia. }
    pose proof (Z.pow_pos_nonneg 2 (Zpos e) ltac:(lia) ltac:(lia)).
    change (2 ^ 63)%Z with (2 * 2 ^ 62)%Z.
    change (Zneg m) with (- Zpos m)%Z. nia.
Qed.

Lemma shl_align_mag m e t :
  (Zpos (digits2_pos (shl_align m e t).1) + (shl_align m e t).2
   = Zpos (digits2_pos m) + e)%Z.
Proof.
  unfold shl_align. destruct (t - e)%Z as [|d|d] eqn:Ed; cbn [fst snd];
    [reflexivity..|].
  rewrite pos_iter_nat, digits2_pos_nat_iter_xO. lia.
Qed.

Lemma shl_align_snd m e t : (t <= e)%Z -> (shl_align m e t).2 = t.
Proof.
  intros H. unfold shl_align.
  destruct (t - e)%Z as [|d|d] eqn:Ed; cbn [snd]; lia.
Qed.

Lemma digits2_pos_mono p q :
  (Zpos q <= Zpos p)%Z -> (Zpos (digits2_pos q) <= Zpos (digits2_pos p))%Z.
Proof.
  intros H. pose proof (digits2_pos_upper p).
  apply (Zdigits2_bound (Zpos q)); lia.
Qed.

Lemma binary_round_nonneg m e :
  float_nonneg (binary_round prec emax false m e) = true.
Proof.
  unfold binary_round. destruct (shl_align _ _ _) as [mz ez].
  apply binary_round_aux_nonneg. lia.
Qed.

Lemma binary_round_mag s m e B :
  (Zpos (digits2_pos m) + e <= B)%Z -> (-1074 <= B <= 970)%Z ->
  mag_le (B + 1) (binary_round prec emax s m e).
Proof.
  intros Hd HB. unfold binary_round.
  pose proof (shl_align_mag m e
                (fexp prec emax (Zpos (digits2_pos m) + e))) as Hs.
  destruct (shl_align _ _ _) as [mz ez]. cbn [fst snd] in Hs.
  apply binary_round_aux_mag; [lia|cbn [Zdigits2]; lia|exact HB].
Qed.

Lemma mag_le_mono B B' x : (B <= B')%Z -> mag_le B x -> mag_le B' x.
Proof. destruct x as [s|s| |s m e]; cbn [mag_le]; auto; lia. Qed.

(** A float of bounded size plus a float that is not below zero is above
    the sentinel -[sys.maxsize]. *)
Lemma fadd_above x t :
  mag_le 61 x -> float_nonneg t = true ->
  py_lt (PInt (- sys_maxsize)) (PFloat (fadd x t)) = true.
Proof.
  intros Hx Ht.
  destruct t as [st|[]| |[] my ey]; try discriminate.
  - (* 0.0 *)
    destruct x as [sx|sx| |sx mx ex]; cbn [mag_le] in Hx;
      [|contradiction..|].
    + now destruct sx, st.
    + change (fadd (S754_finite sx mx ex) (S754_zero st))
        with (S754_finite sx mx ex).
      apply mag_le_above. cbn [mag_le] in *. lia.
  - (* inf *)
    destruct x as [sx|sx| |sx mx ex]; cbn [mag_le] in Hx;
      [|contradiction..|]; reflexivity.
  - destruct x as [sx|sx| |sx mx ex]; cbn [mag_le] in Hx;
      [|contradiction..|].
    + apply float_nonneg_above. reflexivity.
    + unfold fadd, SFadd. set (ez := Z.min ex ey).
      pose proof (shl_align_mag mx ex ez) as Hmx.
      rewrite (shl_align_snd mx ex ez) in Hmx by (unfold ez; lia).
      set (mx' := (shl_align mx ex ez).1) in *.
      set (my' := (shl_align my ey ez).1) in *.
      change (cond_Zopp false (Zpos my')) with (Zpos my').
      destruct (cond_Zopp sx (Zpos mx') + Zpos my')%Z as [|q|q] eqn:Eq;
        cbn [binary_normalize].
      * reflexivity.
      * apply float_nonneg_above, binary_round_nonneg.
      * apply mag_le_above.
        change 62%Z with (61 + 1)%Z. apply binary_round_mag; [|lia].
        assert (Hq : (Zpos q <= Zpos mx')%Z)
          by (destruct sx; cbn [cond_Zopp] in Eq; lia).
        pose proof (digits2_pos_mono mx' q Hq). lia.
Qed.

Lemma small_float_mag p :
  (Zpos (digits2_pos p) <= 53)%Z ->
  (Zpos (digits2_pos (Nat.iter (Z.to_nat (53 - Zpos (digits2_pos p))) xO p))
   + (Zpos (digits2_pos p) - 53) = Zpos (digits2_pos p))%Z.
Proof. intros H. rewrite digits2_pos_nat_iter_xO. lia. Qed.

(** The UCB1 score of a node whose reward sum is an integer below 2 ^ 53
    in absolute value, with fewer than 2 ^ 53 visits, is above the
    sentinel -[sys.maxsize], whatever the logarithm is, provided it is not
    below zero. *)
Lemma score_above r v lg m e :
  (Z.abs r < 2 ^ 53)%Z -> (0 < v < 2 ^ 53)%Z -> float_nonneg lg = true ->
  py_lt (PInt (- sys_maxsize))
    (PFloat (fadd (fdiv (Z2float r) (Z2float v))
               (fmul (S754_finite false m e)
                  (fsqrt (fdiv (fmul float_two lg) (Z2float v))))))
  = true.
Proof.
  intros Hr Hv Hlg. destruct v as [|pv|pv]; [lia| |lia].
  rewrite (Z2float_pos pv) by lia.
  pose proof (digits2_pos_small pv ltac:(lia)) as Hdv.
  pose proof (small_float_mag pv Hdv) as Hmv.
  apply fadd_above.
  - destruct r as [|pr|pr]; [exact I|rewrite Z2float_pos by lia
                                    |rewrite Z2float_neg by lia];
      (apply (mag_le_mono 54); [lia|]);
      change 54%Z with (53 - 1 + 2)%Z; unfold small_float;
      (apply fdiv_mag; [|lia|lia]);
      rewrite small_float_mag by (apply digits2_pos_small; lia);
      apply digits2_pos_small; lia.
  - apply fmul_nonneg, fsqrt_nonneg. unfold small_float.
    apply fdiv_nonneg. unfold float_two. now apply fmul_nonneg.
Qed.

(** * Properties of the engine *)

Section EngineProofs.

Context {Board Action : Type} `{Pos : Position Board Action} `{Lm : Libm}.

Implicit Types (st : @State Board Action) (nd : @Node Action).
Implicit Types (self : AIPlayer) (b : Board) (c : Color).

(** ** Running the monad *)

Lemma bind_ok {A B} (m : M A) (k : A -> M B) st a st' :
  m st = (Ok a, st') -> bind m k st = k a st'.
Proof. intros H. unfold bind. now rewrite H. Qed.

Lemma bind_raise {A B} (m : M A) (k : A -> M B) st e st' :
  m st = (Raise e, st') -> bind m k st = (Raise e, st').
Proof. intros H. unfold bind. now rewrite H. Qed.

Lemma get_node_ok n st nd :
  nodes st !! n = Some nd -> get_node n st = (Ok nd, st).
Proof. intros H. unfold get_node. now rewrite H. Qed.

Lemma read_board_ok l st b :
  boards st !! l = Some b -> read_board l st = (Ok b, st).
Proof. intros H. unfold read_board. now rewrite H. Qed.

Lemma board_get_legal_actions_ok l c st b :
  boards st !! l = Some b ->
  board_get_legal_actions l c st = (Ok (get_legal_actions b c), st).
Proof.
  intros H. unfold board_get_legal_actions.
  now rewrite (bind_ok _ _ _ _ _ (read_board_ok _ _ _ H)).
Qed.

Lemma board_move_ok l a c st b :
  boards st !! l = Some b ->
  board_move l a c st =
    (Ok tt, {| nodes := nodes st; boards := <[l := _move b a c]> (boards st);
               rng := rng st; move_log := move_log st ++ [(b, a, c)] |}).
Proof.
  intros H. unfold board_move.
  now rewrite (bind_ok _ _ _ _ _ (read_board_ok _ _ _ H)).
Qed.

Lemma deepcopy_ok l st b :
  boards st !! l = Some b ->
  deepcopy l st =
    (Ok (length (boards st)),
     {| nodes := nodes st; boards := boards st ++ [b]; rng := rng st;
        move_log := move_log st |}).
Proof.
  intros H. unfold deepcopy.
  now rewrite (bind_ok _ _ _ _ _ (read_board_ok _ _ _ H)).
Qed.

Lemma random_choice_ok {A} (l : list A) st :
  l <> [] ->
  exists a, a ∈ l /\
    random_choice l st =
      (Ok a, {| nodes := nodes st; boards := boards st; rng := tl (rng st);
                move_log := move_log st |}).
Proof.
  intros Hl. destruct l as [|x l']; [done|].
  exists (nth (hd 0 (rng st) mod length (x :: l')) (x :: l') x). split.
  - apply list_elem_of_In, nth_In. apply Nat.mod_upper_bound. simpl. lia.
  - reflexivity.
Qed.

Lemma game_over_ok self l st b :
  boards st !! l = Some b ->
  game_over self l st =
    (Ok (bool_decide (length (get_legal_actions b X) = 0)
         && bool_decide (length (get_legal_actions b O) = 0)), st).
Proof.
  intros H. unfold game_over.
  rewrite (bind_ok _ _ _ _ _ (board_get_legal_actions_ok _ X _ _ H)).
  now rewrite (bind_ok _ _ _ _ _ (board_get_legal_actions_ok _ O _ _ H)).
Qed.

(** ** The rollout of [stimulate] *)

(** One ply: a random choice from a non-empty list, applied to [board]. *)
Lemma ply_ok self (l : list Action) board c st br :
  l <> [] -> boards st !! board = Some br ->
  exists a st1,
    a ∈ l /\
    bind (random_choice l)
         (fun act => bind (board_move board act c)
                          (fun _ => ret (flip_color c))) st
      = (Ok (flip_color c), st1) /\
    nodes st1 = nodes st /\
    boards st1 = <[board := _move br a c]> (boards st) /\
    move_log st1 = move_log st ++ [(br, a, c)].
Proof.
  intros Hl Hb. destruct (random_choice_ok l st Hl) as (a & Ha & Hr).
  eexists a, _. split; [exact Ha|]. split.
  - rewrite (bind_ok _ _ _ _ _ Hr).
    erewrite bind_ok by (apply board_move_ok; exact Hb).
    reflexivity.
  - now simpl.
Qed.

Lemma not_over_has_move b :
  bool_decide (length (get_legal_actions b X) = 0)
  && bool_decide (length (get_legal_actions b O) = 0) = false ->
  has_move b.
Proof.
  intros H. apply andb_false_iff in H as [H|H];
    apply bool_decide_eq_false in H; [left|right];
    intros E; apply H; now rewrite E.
Qed.

(** The loop never fails, leaves the nodes alone, writes to [board] only,
    makes at most [k] plies, and every move it applies is a legal move of the
    node's own position [b0] (which need not be legal on the rollout board). *)
Lemma stimulate_loop_run self nb board k : forall c st b0 br,
  nb <> board -> boards st !! nb = Some b0 -> boards st !! board = Some br ->
  (br = b0 \/ has_move b0) ->
  exists c' br' lg st',
    stimulate_loop self nb board c k st = (Ok c', st') /\
    nodes st' = nodes st /\
    boards st' = <[board := br']> (boards st) /\
    move_log st' = move_log st ++ lg /\
    length lg <= k /\
    Forall (fun e => e.1.2 ∈ get_legal_actions b0 e.2) lg /\
    (br = b0 -> ~ has_move b0 -> lg = [] /\ br' = br).
Proof.
  induction k as [|k IH]; intros c st b0 br Hne Hnb Hb Hinv.
  - exists c, br, [], st. split; [done|]. split; [done|].
    split; [by rewrite list_insert_id|]. split; [by rewrite app_nil_r|].
    split; [done|]. split; [constructor|done].
  - simpl. rewrite (bind_ok _ _ _ _ _ (game_over_ok self _ _ _ Hb)).
    destruct (bool_decide _ && bool_decide _) eqn:Hover.
    { exists c, br, [], st. split; [done|]. split; [done|].
      split; [by rewrite list_insert_id|]. split; [by rewrite app_nil_r|].
      split; [simpl; lia|]. split; [constructor|done]. }
    assert (Hm : has_move b0).
    { destruct Hinv as [->|]; [|done]. now apply not_over_has_move. }
    rewrite (bind_ok _ _ _ _ _ (board_get_legal_actions_ok nb c _ _ Hnb)).
    assert (Hply : exists c1 a st1,
      a ∈ get_legal_actions b0 c1 /\
      (if negb (bool_decide (length (get_legal_actions b0 c) = 0))
       then bind (random_choice (get_legal_actions b0 c))
              (fun act => bind (board_move board act c)
                               (fun _ => ret (flip_color c)))
       else bind (board_get_legal_actions nb (flip_color c))
              (fun action_list => bind (random_choice action_list)
                 (fun act => bind (board_move board act (flip_color c))
                    (fun _ => ret (flip_color (flip_color c)))))) st
        = (Ok (flip_color c1), st1) /\
      nodes st1 = nodes st /\
      boards st1 = <[board := _move br a c1]> (boards st) /\
      move_log st1 = move_log st ++ [(br, a, c1)]).
    { destruct (bool_decide (length (get_legal_actions b0 c) = 0)) eqn:Hc;
        simpl.
      - apply bool_decide_eq_true in Hc. apply length_zero_iff_nil in Hc.
        assert (Hl : get_legal_actions b0 (flip_color c) <> []).
        { destruct Hm as [Hm|Hm]; destruct c;
            change (flip_color X) with O; change (flip_color O) with X;
            congruence. }
        rewrite (bind_ok _ _ _ _ _
                   (board_get_legal_actions_ok nb (flip_color c) _ _ Hnb)).
        destruct (ply_ok self _ board (flip_color c) st br Hl Hb)
          as (a & st1 & Ha & Hr & H1 & H2 & H3).
        exists (flip_color c), a, st1. auto.
      - apply bool_decide_eq_false in Hc.
        assert (Hl : get_legal_actions b0 c <> []).
        { intros E. apply Hc. now rewrite E. }
        destruct (ply_ok self _ board c st br Hl Hb)
          as (a & st1 & Ha & Hr & H1 & H2 & H3).
        exists c, a, st1. auto. }
    destruct Hply as (c1 & a & st1 & Ha & Hr & H1 & H2 & H3).
    rewrite (bind_ok _ _ _ _ _ Hr).
    destruct (IH (flip_color c1) st1 b0 (_move br a c1) Hne)
      as (c' & br' & lg & st' & Hrun & Hn & Hbs & Hlg & Hlen & Hall & _).
    { rewrite H2. now rewrite list_lookup_insert_ne by done. }
    { rewrite H2. apply list_lookup_insert_eq.
      now apply lookup_lt_Some in Hb. }
    { now right. }
    exists c', br', ((br, a, c1) :: lg), st'. split; [exact Hrun|].
    split; [congruence|]. split.
    { rewrite Hbs, H2. apply list_insert_insert_eq. }
    split. { rewrite Hlg, H3. now rewrite <- app_assoc. }
    split. { simpl; lia. }
    split. { constructor; [exact Ha | exact Hall]. }
    intros _ Hno. now destruct Hno.
Qed.

(** [stimulate] as a whole: it always returns, the nodes and every board
    that existed before are left as they were, one board is added (the
    rollout board, [br] at the end), and the reward is read off the winner
    of [br]. *)
Lemma stimulate_run self n st nd b0 :
  nodes st !! n = Some nd -> boards st !! now_board nd = Some b0 ->
  exists br lg st',
    stimulate self n st =
      (Ok (let rw := if decide ((get_winner br).1 = 2) then 0
                     else if decide ((get_winner br).1 = 0)
                          then 10 + (get_winner br).2
                          else - (10 + (get_winner br).2) in
           if decide (ai_color self = X) then - rw else rw)%Z, st') /\
    nodes st' = nodes st /\
    boards st' = boards st ++ [br] /\
    move_log st' = move_log st ++ lg /\
    length lg <= 50 /\
    Forall (fun e => e.1.2 ∈ get_legal_actions b0 e.2) lg /\
    (~ has_move b0 -> lg = [] /\ br = b0).
Proof.
  intros Hn Hb. unfold stimulate.
  rewrite (bind_ok _ _ _ _ _ (get_node_ok _ _ _ Hn)).
  rewrite (bind_ok _ _ _ _ _ (deepcopy_ok _ _ _ Hb)).
  pose proof (lookup_lt_Some _ _ _ Hb) as Hlt.
  set (st1 := {| nodes := nodes st; boards := boards st ++ [b0];
                 rng := rng st; move_log := move_log st |}).
  destruct (stimulate_loop_run self (now_board nd) (length (boards st)) 50
              (color nd) st1 b0 b0)
    as (c' & br & lg & st' & Hrun & H1 & H2 & H3 & H4 & H5 & H6).
  { lia. }
  { simpl. now rewrite lookup_app_l. }
  { simpl. now rewrite list_lookup_middle. }
  { now left. }
  rewrite (bind_ok _ _ _ _ _ Hrun).
  assert (Hbs : boards st' = boards st ++ [br]).
  { rewrite H2. simpl. rewrite insert_app_r_alt by lia.
    now rewrite Nat.sub_diag. }
  assert (Hw : board_get_winner (length (boards st)) st'
               = (Ok (get_winner br), st')).
  { unfold board_get_winner. erewrite bind_ok; [reflexivity|].
    apply read_board_ok. rewrite Hbs. now rewrite list_lookup_middle. }
  rewrite (bind_ok _ _ _ _ _ Hw).
  exists br, lg, st'. split; [reflexivity|].
  do 5 (split; [assumption|]). intros Hno. now apply H6.
Qed.

(** The reward of a rollout is an [int] that converts to a float. *)
Lemma py_float_ok z : (Z.abs z < 2 ^ 64)%Z -> py_float z = Ok (Z2float z).
Proof.
  intros Hz. unfold py_float.
  pose proof (Z2float_finite z Hz) as H. now destruct (Z2float z).
Qed.

Lemma reward_in_range (c : Color) (br : Board) :
  (Z.abs (let rw := if decide ((get_winner br).1 = 2) then 0
                    else if decide ((get_winner br).1 = 0)
                         then 10 + (get_winner br).2
                         else - (10 + (get_winner br).2) in
          if decide (c = X) then - rw else rw) < 2 ^ 64)%Z.
Proof.
  pose proof (get_winner_diff br) as H. unfold sys_maxsize in H.
  cbv zeta. repeat case_decide; lia.
Qed.

Lemma reward_converts (c : Color) (br : Board) :
  exists rf,
    py_float (let rw := if decide ((get_winner br).1 = 2) then 0
                        else if decide ((get_winner br).1 = 0)
                             then 10 + (get_winner br).2
                             else - (10 + (get_winner br).2) in
              if decide (c = X) then - rw else rw)%Z = Ok rf.
Proof. eexists. apply py_float_ok, reward_in_range. Qed.

(** One pass of the loop of [backup] with a reward that converts. *)
Lemma backup_fuel_step self f n rw rf st nd :
  nodes st !! n = Some nd -> py_float rw = Ok rf ->
  backup_fuel self (S f) (Some n) rw st
  = backup_fuel self f (parent nd) rw
      (set_nodes (fun l => <[n := bump self rf nd]> l) st).
Proof.
  intros Hn Hrw. cbn [backup_fuel].
  rewrite (bind_ok _ _ _ _ _ (get_node_ok _ _ _ Hn)).
  unfold bind at 1. cbn [put_node].
  unfold bind at 1, lift at 1. rewrite Hrw.
  unfold bind at 1. cbn [put_node].
  f_equal. unfold set_nodes. cbn. f_equal. apply list_insert_insert_eq.
Qed.

(** One pass of the loop of [backup] with a reward beyond the floats: the
    visit is counted, then the addition raises. *)
Lemma backup_fuel_overflow self f n rw e st nd :
  nodes st !! n = Some nd -> py_float rw = Raise e ->
  backup_fuel self (S f) (Some n) rw st
  = (Raise OverflowError, set_nodes (fun l => <[n := visited nd]> l) st).
Proof.
  intros Hn Hrw. cbn [backup_fuel].
  rewrite (bind_ok _ _ _ _ _ (get_node_ok _ _ _ Hn)).
  unfold bind at 1. cbn [put_node].
  unfold bind at 1, lift at 1.
  unfold py_float in *. destruct (Z2float rw); done.
Qed.

(** ** The search on a root that cannot move *)

Lemma select_childless self n st nd :
  nodes st !! n = Some nd -> children nd = [] ->
  select self n st = (Ok (Some n), st).
Proof.
  intros Hn Hc. unfold select.
  pose proof (lookup_lt_Some _ _ _ Hn) as Hlt.
  destruct (length (nodes st)) as [|f] eqn:E; [lia|]. simpl.
  rewrite (bind_ok _ _ _ _ _ (get_node_ok _ _ _ Hn)).
  rewrite Hc. reflexivity.
Qed.

Lemma extend_unvisited self n st nd :
  nodes st !! n = Some nd -> visits nd = 0 ->
  extend self n st = (Ok n, st).
Proof.
  intros Hn Hv. unfold extend.
  rewrite (bind_ok _ _ _ _ _ (get_node_ok _ _ _ Hn)).
  destruct (decide (visits nd = 0)); [reflexivity|done].
Qed.

Lemma extend_no_moves self n st nd b :
  nodes st !! n = Some nd -> boards st !! now_board nd = Some b ->
  get_legal_actions b (color nd) = [] -> children nd = [] ->
  extend self n st = (Ok n, st).
Proof.
  intros Hn Hb Hl Hc. unfold extend.
  rewrite (bind_ok _ _ _ _ _ (get_node_ok _ _ _ Hn)).
  destruct (decide (visits nd = 0)); [reflexivity|].
  rewrite (bind_ok _ _ _ _ _ (board_get_legal_actions_ok _ _ _ _ Hb)).
  rewrite Hl. simpl. unfold bind at 1. unfold ret at 1.
  rewrite (bind_ok _ _ _ _ _ (get_node_ok _ _ _ Hn)).
  now rewrite Hc.
Qed.

Lemma backup_root self n rw rf st nd :
  nodes st !! n = Some nd -> parent nd = None -> py_float rw = Ok rf ->
  backup self n rw st =
    (Ok 0%Z, {| nodes := <[n := bump self rf nd]> (nodes st);
                boards := boards st; rng := rng st;
                move_log := move_log st |}).
Proof.
  intros Hn Hp Hrw. unfold backup.
  pose proof (lookup_lt_Some _ _ _ Hn) as Hlt.
  destruct (length (nodes st)) as [|f] eqn:E; [lia|].
  rewrite (backup_fuel_step _ _ _ _ _ _ _ Hn Hrw), Hp. now destruct f.
Qed.

(** One iteration on a childless root without legal moves: the root is
    selected, not expanded, simulated from and visited once more. *)
Lemma uct_iteration_stuck self root st rd b :
  nodes st !! root = Some rd -> children rd = [] -> parent rd = None ->
  boards st !! now_board rd = Some b ->
  get_legal_actions b (color rd) = [] ->
  exists rw br st',
    uct_iteration self root st = (Ok tt, st') /\
    nodes st' = <[root := bump self rw rd]> (nodes st) /\
    boards st' = boards st ++ [br].
Proof.
  intros Hn Hc Hp Hb Hl. unfold uct_iteration.
  rewrite (bind_ok _ _ _ _ _ (select_childless self _ _ _ Hn Hc)).
  assert (He : extend self root st = (Ok root, st)).
  { destruct (decide (visits rd = 0)).
    - now apply extend_unvisited with rd.
    - now apply extend_no_moves with rd b. }
  rewrite (bind_ok _ _ _ _ _ He).
  destruct (stimulate_run self root st rd b Hn Hb)
    as (br & lg & st1 & Hs & H1 & H2 & _).
  rewrite (bind_ok _ _ _ _ _ Hs).
  assert (Hn1 : nodes st1 !! root = Some rd) by now rewrite H1.
  destruct (reward_converts (ai_color self) br) as [rf Hrf].
  rewrite (bind_ok _ _ _ _ _ (backup_root self root _ rf st1 rd Hn1 Hp Hrf)).
  exists rf, br. eexists. split; [reflexivity|]. simpl. now rewrite H1.
Qed.

Lemma uct_loop_stuck self root b t : forall st rd,
  nodes st !! root = Some rd -> children rd = [] -> parent rd = None ->
  boards st !! now_board rd = Some b ->
  get_legal_actions b (color rd) = [] ->
  exists st' rd',
    uct_loop self t root st = (Ok tt, st') /\
    nodes st' !! root = Some rd' /\
    length (nodes st') = length (nodes st) /\
    children rd' = [] /\ visits rd' = visits rd + t /\
    (exists ext, boards st' = boards st ++ ext).
Proof.
  induction t as [|t IH]; intros st rd Hn Hc Hp Hb Hl.
  - exists st, rd. simpl. repeat split; auto.
    exists []. now rewrite app_nil_r.
  - simpl.
    destruct (uct_iteration_stuck self root st rd b Hn Hc Hp Hb Hl)
      as (rw & br & st1 & Hit & H1 & H2).
    rewrite (bind_ok _ _ _ _ _ Hit).
    pose proof (lookup_lt_Some _ _ _ Hn) as Hlt.
    pose proof (lookup_lt_Some _ _ _ Hb) as Hltb.
    destruct (IH st1 (bump self rw rd)) as (st' & rd' & Hrun & Hn' & Hlen & Hc' & Hv' & ext & He).
    { rewrite H1. now apply list_lookup_insert_eq. }
    { exact Hc. } { exact Hp. }
    { simpl. rewrite H2. now rewrite lookup_app_l. }
    { exact Hl. }
    exists st', rd'. split; [exact Hrun|]. split; [exact Hn'|].
    split. { rewrite Hlen, H1. apply length_insert. }
    split; [exact Hc'|]. split. { rewrite Hv'. simpl. lia. }
    exists ([br] ++ ext). rewrite He, H2. now rewrite <- app_assoc.
Qed.

(** With no legal move for the engine's side, [get_move] runs all its
    iterations on the root alone and then fails on [max_node.action]. *)
Lemma get_move_no_legal_move_raises self l st b :
  boards st !! l = Some b -> get_legal_actions b (ai_color self) = [] ->
  exists st' rd,
    get_move self l st = (Raise AttributeError, st') /\
    nodes st' !! length (nodes st) = Some rd /\
    children rd = [] /\ visits rd = max_times self.
Proof.
  intros Hb Hl. unfold get_move.
  rewrite (bind_ok _ _ _ _ _ (deepcopy_ok _ _ _ Hb)).
  unfold bind at 1. unfold new_node at 1. simpl.
  unfold uct.
  set (rd := {| visits := 0; reward := float_zero;
                now_board := length (boards st);
                children := []; parent := None; action := None;
                color := ai_color self |}).
  set (st0 := set_nodes _ _).
  destruct (uct_loop_stuck self (length (nodes st)) b (max_times self) st0 rd)
    as (st' & rd' & Hrun & Hn' & Hlen & Hc' & Hv' & _).
  { simpl. now rewrite list_lookup_middle. }
  { done. } { done. }
  { simpl. now rewrite list_lookup_middle. }
  { exact Hl. }
  rewrite (bind_ok _ _ _ _ _ Hrun). unfold uct_decide.
  rewrite (bind_ok _ _ _ _ _ (get_node_ok _ _ _ Hn')).
  rewrite Hc'. simpl. unfold bind, ret, raise.
  exists st', rd'. auto.
Qed.

(** ** Expansion *)

Lemma with_children_id nd : with_children nd (children nd) = nd.
Proof. now destruct nd. Qed.

Lemma add_child_ok n l a c st nd :
  nodes st !! n = Some nd ->
  add_child n l a c st =
    (Ok tt,
     {| nodes := <[n := with_children nd (children nd ++ [length (nodes st)])]>
                   (nodes st) ++ [child_node n c l a];
        boards := boards st; rng := rng st; move_log := move_log st |}).
Proof.
  intros Hn. pose proof (lookup_lt_Some _ _ _ Hn) as Hlt.
  unfold add_child, bind, new_node, get_node, put_node, set_nodes.
  cbn beta iota delta [nodes boards rng move_log].
  rewrite lookup_app_l by lia. rewrite Hn.
  cbn beta iota delta [nodes boards rng move_log].
  now rewrite insert_app_l by lia.
Qed.

(** The loop of [extend] from a valid node and board: one new board and one
    new node per action, in order, and the new nodes appended to the
    children of [n]. *)
Lemma extend_loop_run n nb c nc acts : forall st nd b,
  nodes st !! n = Some nd -> boards st !! nb = Some b ->
  extend_loop n nb c nc acts st =
    (Ok tt,
     {| nodes :=
          <[n := with_children nd
                   (children nd ++ seq (length (nodes st)) (length acts))]>
            (nodes st)
          ++ imap (fun i a => child_node n nc (length (boards st) + i) a) acts;
        boards := boards st ++ map (fun a => _move b a c) acts;
        rng := rng st;
        move_log := move_log st ++ map (fun a => (b, a, c)) acts |}).
Proof.
  induction acts as [|a rest IH]; intros st nd b Hn Hb.
  - cbn [extend_loop length seq imap map]. rewrite !app_nil_r, with_children_id.
    rewrite (list_insert_id _ _ _ Hn). now destruct st.
  - pose proof (lookup_lt_Some _ _ _ Hn) as Hlt.
    pose proof (lookup_lt_Some _ _ _ Hb) as Hltb.
    cbn [extend_loop].
    rewrite (bind_ok _ _ _ _ _ (deepcopy_ok _ _ _ Hb)).
    erewrite bind_ok; cycle 1.
    { apply board_move_ok. cbn [boards]. apply list_lookup_middle.
      reflexivity. }
    cbn [nodes boards rng move_log].
    rewrite insert_app_r_alt by lia. rewrite Nat.sub_diag.
    cbn [insert list_insert].
    erewrite bind_ok; cycle 1.
    { apply add_child_ok. cbn [nodes]. exact Hn. }
    cbn [nodes boards rng move_log].
    erewrite IH; cycle 1.
    { cbn [nodes]. rewrite lookup_app_l by (rewrite length_insert; lia).
      apply list_lookup_insert_eq. lia. }
    { cbn [boards]. rewrite lookup_app_l by lia. exact Hb. }
    cbn [nodes boards rng move_log].
    rewrite !length_app, length_insert. cbn [length].
    f_equal. f_equal.
    + rewrite insert_app_l by (rewrite length_insert; lia).
      rewrite list_insert_insert_eq.
      rewrite <- app_assoc. f_equal.
      * f_equal. unfold with_children. cbn. f_equal.
        rewrite <- app_assoc. f_equal. cbn. now rewrite Nat.add_1_r.
      * cbn. f_equal.
        -- unfold child_node. now rewrite Nat.add_0_r.
        -- apply imap_ext. intros i x _. cbn. f_equal. lia.
    + now rewrite <- app_assoc.
    + now rewrite <- app_assoc.
Qed.

(** The state [extend] leaves when it expands a visited node. *)
Lemma extend_visited_state self n st nd b :
  nodes st !! n = Some nd -> boards st !! now_board nd = Some b ->
  visits nd <> 0 ->
  nodes (extend self n st).2 =
    <[n := with_children nd
             (children nd ++ seq (length (nodes st))
                               (length (get_legal_actions b (color nd))))]>
      (nodes st)
    ++ imap (fun i a => child_node n (flip_color (color nd))
                          (length (boards st) + i) a)
         (get_legal_actions b (color nd)) /\
  boards (extend self n st).2 =
    boards st ++ map (fun a => _move b a (color nd))
                     (get_legal_actions b (color nd)).
Proof.
  intros Hn Hb Hv. unfold extend.
  pose proof (lookup_lt_Some _ _ _ Hn) as Hlt.
  rewrite (bind_ok _ _ _ _ _ (get_node_ok _ _ _ Hn)).
  destruct (decide (visits nd = 0)); [done|].
  rewrite (bind_ok _ _ _ _ _ (board_get_legal_actions_ok _ _ _ _ Hb)).
  rewrite (bind_ok _ _ _ _ _
             (extend_loop_run n (now_board nd) (color nd)
                (flip_color (color nd)) _ st nd b Hn Hb)).
  erewrite bind_ok; cycle 1.
  { apply get_node_ok. cbn [nodes].
    rewrite lookup_app_l by (rewrite length_insert; lia).
    apply list_lookup_insert_eq. lia. }
  cbn [children with_children].
  now destruct (children nd ++ _).
Qed.

(** C7 (amended): [extend] returns the node and leaves the state as it is
    when the node's visit count is 0.  Otherwise it creates one child per
    legal move of the node's side on the node's position, in order, each on
    its own deep copy of the position with the move applied and with the
    opponent to move, and appends them to the node's children.  For a node
    without children (every node that [select] returns) it then returns the
    node itself if there is no legal move and the first created child
    otherwise; for a node that already has children it returns the first
    of them. *)
Theorem extend_spec self n st nd b :
  nodes st !! n = Some nd -> boards st !! now_board nd = Some b ->
  (visits nd = 0 -> extend self n st = (Ok n, st)) /\
  (visits nd <> 0 ->
     let acts := get_legal_actions b (color nd) in
     exists st',
       extend self n st =
         (Ok (match children nd with
              | old :: _ => old
              | [] => match acts with
                      | [] => n
                      | _ :: _ => length (nodes st)
                      end
              end), st') /\
       nodes st' =
         <[n := with_children nd
                  (children nd ++ seq (length (nodes st)) (length acts))]>
           (nodes st)
         ++ imap (fun i a => child_node n (flip_color (color nd))
                               (length (boards st) + i) a) acts /\
       boards st' = boards st ++ map (fun a => _move b a (color nd)) acts).
Proof.
  intros Hn Hb. split.
  - intros Hv. now apply extend_unvisited with nd.
  - intros Hv acts. unfold extend.
    pose proof (lookup_lt_Some _ _ _ Hn) as Hlt.
    rewrite (bind_ok _ _ _ _ _ (get_node_ok _ _ _ Hn)).
    destruct (decide (visits nd = 0)); [done|].
    rewrite (bind_ok _ _ _ _ _ (board_get_legal_actions_ok _ _ _ _ Hb)).
    fold acts.
    rewrite (bind_ok _ _ _ _ _
               (extend_loop_run n (now_board nd) (color nd)
                  (flip_color (color nd)) acts st nd b Hn Hb)).
    erewrite bind_ok; cycle 1.
    { apply get_node_ok. cbn [nodes].
      rewrite lookup_app_l by (rewrite length_insert; lia).
      apply list_lookup_insert_eq. lia. }
    match goal with
    | |- ex (fun st' => _ ?s = _ /\ _) => exists s
    end.
    split; [|split; reflexivity].
    cbn [children with_children].
    destruct (children nd) as [|old olds]; [|reflexivity].
    destruct acts; reflexivity.
Qed.

(** ** Backpropagation *)

Lemma insert_bump_alter self rw (nds : list (@Node Action)) n nd :
  nds !! n = Some nd -> <[n := bump self rw nd]> nds = alter (bump self rw) n nds.
Proof.
  intros Hn. apply list_eq. intros i.
  destruct (decide (i = n)) as [->|Hne].
  - rewrite list_lookup_alter_eq, Hn.
    rewrite list_lookup_insert_eq by (eapply lookup_lt_Some; eauto).
    reflexivity.
  - rewrite list_lookup_alter_ne by done.
    now rewrite list_lookup_insert_ne by done.
Qed.

Lemma parent_chain_alter self rw (nds : list (@Node Action)) i f : forall n,
  parent_chain (alter (bump self rw) i nds) f n = parent_chain nds f n.
Proof.
  induction f as [|f IH]; intros n; [reflexivity|]. cbn [parent_chain].
  destruct (decide (n = i)) as [->|Hne].
  - rewrite list_lookup_alter_eq. destruct (nds !! i) as [nd|]; [|reflexivity].
    cbn. destruct (parent nd); [now rewrite IH|reflexivity].
  - rewrite list_lookup_alter_ne by done.
    destruct (nds !! n) as [nd|]; [|reflexivity].
    destruct (parent nd); [now rewrite IH|reflexivity].
Qed.

Lemma parents_below_alter self rw (nds : list (@Node Action)) i :
  parents_below nds -> parents_below (alter (bump self rw) i nds).
Proof.
  intros H n nd p Hn Hp. destruct (decide (n = i)) as [->|Hne].
  - rewrite list_lookup_alter_eq in Hn.
    destruct (nds !! i) as [nd0|] eqn:E; [|done].
    cbn in Hn. injection Hn as <-. now apply (H i nd0 p).
  - rewrite list_lookup_alter_ne in Hn by done. now apply (H n nd p).
Qed.

(** With enough fuel the loop of [backup] bumps the nodes of the parent
    chain one after the other and touches nothing else. *)
Lemma backup_fuel_run self rw rf f : forall st n,
  py_float rw = Ok rf ->
  parents_below (nodes st) -> n < f -> n < length (nodes st) ->
  backup_fuel self f (Some n) rw st =
    (Ok 0%Z,
     {| nodes := foldl (fun acc i => alter (bump self rf) i acc) (nodes st)
                       (parent_chain (nodes st) f n);
        boards := boards st; rng := rng st; move_log := move_log st |}).
Proof.
  induction f as [|f IH]; intros st n Hrw Hpb Hf Hlt; [lia|].
  destruct (lookup_lt_is_Some_2 _ _ Hlt) as [nd Hn].
  rewrite (backup_fuel_step _ _ _ _ _ _ _ Hn Hrw).
  cbn [parent_chain]. rewrite Hn. unfold set_nodes.
  cbn beta iota delta [nodes boards rng move_log].
  rewrite (insert_bump_alter self rf _ _ _ Hn).
  destruct (parent nd) as [p|] eqn:Hp.
  - pose proof (Hpb n nd p Hn Hp) as Hpn.
    rewrite IH; cbn [nodes boards rng move_log].
    + now rewrite parent_chain_alter.
    + done.
    + now apply parents_below_alter.
    + lia.
    + rewrite length_alter. lia.
  - now destruct f.
Qed.

Lemma parent_chain_le (nds : list (@Node Action)) f : forall n x,
  parents_below nds -> x ∈ parent_chain nds f n -> x <= n.
Proof.
  induction f as [|f IH]; intros n x Hpb Hx; cbn [parent_chain] in Hx.
  - now apply not_elem_of_nil in Hx.
  - destruct (nds !! n) as [nd|] eqn:Hn; [|now apply not_elem_of_nil in Hx].
    apply elem_of_cons in Hx as [->|Hx]; [lia|].
    destruct (parent nd) as [p|] eqn:Hp; [|now apply not_elem_of_nil in Hx].
    pose proof (Hpb n nd p Hn Hp). pose proof (IH p x Hpb Hx). lia.
Qed.

Lemma parent_chain_NoDup (nds : list (@Node Action)) f : forall n,
  parents_below nds -> NoDup (parent_chain nds f n).
Proof.
  induction f as [|f IH]; intros n Hpb; cbn [parent_chain]; [constructor|].
  destruct (nds !! n) as [nd|] eqn:Hn; [|constructor].
  destruct (parent nd) as [p|] eqn:Hp.
  - constructor; [|now apply IH]. intros Hin.
    pose proof (parent_chain_le nds f p n Hpb Hin).
    pose proof (Hpb n nd p Hn Hp). lia.
  - constructor; [apply not_elem_of_nil|constructor].
Qed.

(** With enough fuel the chain ends at a node without parent. *)
Lemma parent_chain_last (nds : list (@Node Action)) f : forall n,
  parents_below nds -> n < f -> n < length nds ->
  exists root rd,
    last (parent_chain nds f n) = Some root /\
    nds !! root = Some rd /\ parent rd = None.
Proof.
  induction f as [|f IH]; intros n Hpb Hf Hlt; [lia|].
  destruct (lookup_lt_is_Some_2 _ _ Hlt) as [nd Hn].
  cbn [parent_chain]. rewrite Hn.
  destruct (parent nd) as [p|] eqn:Hp.
  - pose proof (Hpb n nd p Hn Hp) as Hpn.
    destruct (IH p Hpb) as (root & rd & Hl & Hr & Hnone); [lia|lia|].
    exists root, rd. split; [|done].
    destruct (parent_chain nds f p) eqn:E; [done|]. exact Hl.
  - exists n, nd. done.
Qed.

(** Consecutive elements of the chain are linked by [parent]. *)
Lemma parent_chain_links (nds : list (@Node Action)) f : forall n i x y,
  parent_chain nds f n !! i = Some x ->
  parent_chain nds f n !! S i = Some y ->
  exists xd, nds !! x = Some xd /\ parent xd = Some y.
Proof.
  induction f as [|f IH]; intros n i x y Hx Hy; cbn [parent_chain] in *;
    [done|].
  destruct (nds !! n) as [nd|] eqn:Hn; [|done].
  destruct (parent nd) as [p|] eqn:Hp; [|done].
  destruct i as [|i].
  - cbn in Hx. injection Hx as <-. cbn in Hy.
    exists nd. split; [done|].
    destruct f; cbn [parent_chain] in Hy; [done|].
    destruct (nds !! p); [|done]. cbn in Hy. congruence.
  - cbn in Hx, Hy. now apply (IH p i).
Qed.

Lemma lookup_foldl_alter {A} (g : A -> A) (chain : list nat) :
  NoDup chain -> forall (l : list A) i,
  foldl (fun acc j => alter g j acc) l chain !! i =
    if bool_decide (i ∈ chain) then g <$> l !! i else l !! i.
Proof.
  induction 1 as [|j chain Hj Hnd IH]; intros l i; cbn [foldl].
  - rewrite bool_decide_eq_false_2; [done|apply not_elem_of_nil].
  - rewrite IH. destruct (decide (i = j)) as [->|Hne].
    + rewrite bool_decide_eq_false_2 by done.
      rewrite bool_decide_eq_true_2 by (apply elem_of_cons; now left).
      apply list_lookup_alter_eq.
    + rewrite list_lookup_alter_ne by done.
      destruct (decide (i ∈ chain)) as [Hin|Hin].
      * rewrite !bool_decide_eq_true_2; [done| |done].
        apply elem_of_cons; now right.
      * rewrite !bool_decide_eq_false_2; [done| |done].
        intros H'. apply elem_of_cons in H' as [?|?]; done.
Qed.

(** The state [backup] leaves, node by node. *)
Lemma backup_lookup self leaf rw rf st :
  py_float rw = Ok rf ->
  parents_below (nodes st) -> leaf < length (nodes st) ->
  exists st',
    backup self leaf rw st = (Ok 0%Z, st') /\
    boards st' = boards st /\
    length (nodes st') = length (nodes st) /\
    (forall i nd, nodes st !! i = Some nd ->
       nodes st' !! i =
         Some (if bool_decide (i ∈ ancestors st leaf)
               then bump self rf nd else nd)).
Proof.
  intros Hrw Hpb Hlt. eexists. split.
  { unfold backup. apply backup_fuel_run; [done|done|lia|done]. }
  fold (ancestors st leaf). cbn [nodes boards].
  pose proof (parent_chain_NoDup (nodes st) (length (nodes st)) leaf Hpb)
    as Hnd. fold (ancestors st leaf) in Hnd.
  split; [done|]. split.
  { generalize (ancestors st leaf). intros ch. generalize (nodes st).
    induction ch as [|k ch IH]; intros l; cbn [foldl]; [done|].
    rewrite IH. apply length_alter. }
  intros i nd Hi. rewrite lookup_foldl_alter by done. rewrite Hi.
  now destruct (bool_decide (i ∈ ancestors st leaf)).
Qed.

(** C8: on a tree whose parent links go down in the arena, and for a
    reward [rw] that converts to a float [rf] (every [int] within the range
    of the floats does; a larger one makes the first addition raise),
    [backup] from a leaf returns after bumping exactly the nodes of the
    parent chain of the leaf: the chain starts at the leaf, follows
    [parent], ends at the node without parent and has no repetition; a node
    on it gets one more visit and the reward added to its reward sum if its
    colour is the engine's and subtracted otherwise, by the addition and
    subtraction of the floats; every other node, and every board, is as
    before. *)
Theorem backup_spec self leaf rw rf st :
  py_float rw = Ok rf ->
  parents_below (nodes st) -> leaf < length (nodes st) ->
  exists st',
    backup self leaf rw st = (Ok 0%Z, st') /\
    boards st' = boards st /\
    length (nodes st') = length (nodes st) /\
    head (ancestors st leaf) = Some leaf /\
    NoDup (ancestors st leaf) /\
    (forall i x y, ancestors st leaf !! i = Some x ->
                   ancestors st leaf !! S i = Some y ->
                   exists xd, nodes st !! x = Some xd /\ parent xd = Some y) /\
    (exists root rd, last (ancestors st leaf) = Some root /\
                     nodes st !! root = Some rd /\ parent rd = None) /\
    (forall i nd, nodes st !! i = Some nd ->
       nodes st' !! i =
         Some (if bool_decide (i ∈ ancestors st leaf)
               then {| visits := visits nd + 1;
                       reward := if decide (color nd = ai_color self)
                                 then fadd (reward nd) rf
                                 else fsub (reward nd) rf;
                       now_board := now_board nd; children := children nd;
                       parent := parent nd; action := action nd;
                       color := color nd |}
               else nd)).
Proof.
  intros Hrw Hpb Hlt.
  destruct (backup_lookup self leaf rw rf st Hrw Hpb Hlt)
    as (st' & Hrun & Hb & Hlen & Hlook).
  exists st'. split; [exact Hrun|]. split; [exact Hb|].
  split; [exact Hlen|]. split.
  { unfold ancestors. destruct (length (nodes st)) eqn:E; [lia|].
    cbn [parent_chain].
    destruct (lookup_lt_is_Some_2 (nodes st) leaf) as [nd Hn]; [lia|].
    now rewrite Hn. }
  split.
  { apply parent_chain_NoDup. exact Hpb. }
  split.
  { intros i x y. apply parent_chain_links. }
  split.
  { apply parent_chain_last; done. }
  intros i nd Hi. rewrite (Hlook i nd Hi).
  now destruct (bool_decide (i ∈ ancestors st leaf)).
Qed.

Lemma parents_below_from_sound (nds : list (@Node Action)) : forall k,
  parents_below_from k nds = true ->
  forall n nd p, nds !! n = Some nd -> parent nd = Some p -> p < k + n.
Proof.
  induction nds as [|x rest IH]; intros k Hc n nd p Hn Hp; [done|].
  cbn [parents_below_from] in Hc. apply andb_true_iff in Hc as [H1 H2].
  destruct n as [|n].
  - cbn in Hn. injection Hn as ->. rewrite Hp in H1.
    apply Nat.ltb_lt in H1. lia.
  - cbn in Hn. pose proof (IH (S k) H2 n nd p Hn Hp). lia.
Qed.

Lemma parents_below_check (nds : list (@Node Action)) :
  parents_below_from 0 nds = true -> parents_below nds.
Proof.
  intros H n nd p Hn Hp.
  now apply (parents_below_from_sound nds 0 H n nd p).
Qed.

(** ** Reading computations *)

Lemma read_only_ret {A} (a : A) : read_only (@ret Board Action A a).
Proof. now intros st. Qed.

Lemma read_only_raise {A} e : read_only (@raise Board Action A e).
Proof. now intros st. Qed.

Lemma read_only_bind {A B} (m : @M Board Action A)
    (k : A -> @M Board Action B) :
  read_only m -> (forall a, read_only (k a)) -> read_only (bind m k).
Proof.
  intros Hm Hk st. unfold bind. specialize (Hm st).
  destruct (m st) as [[a|e] st1]; cbn in Hm; subst; [apply Hk|done].
Qed.

Lemma read_only_get_node n : read_only (@get_node Board Action n).
Proof. intros st. unfold get_node. now destruct (nodes st !! n). Qed.

Lemma read_only_read_board l : read_only (@read_board Board Action l).
Proof. intros st. unfold read_board. now destruct (boards st !! l). Qed.

Lemma read_only_lift {A} (r : Result A) : read_only (@lift Board Action A r).
Proof. now intros st. Qed.

Lemma read_only_get_ucb n (cp : float) :
  read_only (@get_ucb Board Action _ n cp).
Proof.
  unfold get_ucb. apply read_only_bind; [apply read_only_get_node|].
  intros nd. destruct (decide (visits nd = 0)); [apply read_only_ret|].
  destruct (parent nd); [|apply read_only_raise].
  apply read_only_bind; [apply read_only_get_node|]. intros pd.
  apply read_only_bind.
  { unfold math_log. destruct (decide (visits pd = 0));
      [apply read_only_raise|apply read_only_ret]. }
  intros lg. unfold math_sqrt.
  repeat (apply read_only_bind; [apply read_only_lift|intros ?]).
  apply read_only_ret.
Qed.

Lemma read_only_all_visited kids : read_only (@all_visited Board Action kids).
Proof.
  induction kids as [|k ks IH]; [apply read_only_ret|]. cbn [all_visited].
  apply read_only_bind; [apply read_only_get_node|]. intros kd.
  destruct (decide (visits kd = 0)); [apply read_only_ret|exact IH].
Qed.

Lemma read_only_full_expanded n : read_only (@full_expanded Board Action n).
Proof.
  unfold full_expanded. apply read_only_bind; [apply read_only_get_node|].
  intros nd. destruct (decide _); [apply read_only_ret|].
  apply read_only_all_visited.
Qed.

Lemma read_only_first_unvisited kids :
  read_only (@first_unvisited Board Action kids).
Proof.
  induction kids as [|k ks IH]; [apply read_only_ret|].
  cbn [first_unvisited].
  apply read_only_bind; [apply read_only_get_node|]. intros kd.
  destruct (decide (visits kd = 0)); [apply read_only_ret|exact IH].
Qed.

Lemma read_only_max_ucb_loop (cp : float) kids : forall m mn,
  read_only (@max_ucb_loop Board Action _ cp kids m mn).
Proof.
  induction kids as [|k ks IH]; intros m mn; [apply read_only_ret|].
  cbn [max_ucb_loop]. apply read_only_bind; [apply read_only_get_ucb|].
  intros u. destruct (py_lt m u); apply IH.
Qed.

Lemma read_only_select_fuel self f : forall n,
  @read_only Board Action _ (select_fuel self f n).
Proof.
  induction f as [|f IH]; intros n; [apply read_only_raise|].
  cbn [select_fuel]. apply read_only_bind; [apply read_only_get_node|].
  intros nd. destruct (decide _); [apply read_only_ret|].
  apply read_only_bind; [apply read_only_full_expanded|].
  intros [|]; [|apply read_only_first_unvisited].
  apply read_only_bind; [apply read_only_max_ucb_loop|].
  intros [c|]; [apply IH|apply read_only_raise].
Qed.

Lemma read_only_select self n : @read_only Board Action _ (select self n).
Proof. intros st. unfold select. apply read_only_select_fuel. Qed.

Lemma read_only_uct_decide self root :
  @read_only Board Action _ (uct_decide self root).
Proof.
  unfold uct_decide. apply read_only_bind; [apply read_only_get_node|].
  intros rd. apply read_only_bind; [apply read_only_max_ucb_loop|].
  intros [c|]; [|apply read_only_raise].
  apply read_only_bind; [apply read_only_get_node|].
  intros; apply read_only_ret.
Qed.

(** ** What each operation can do to the state *)

(** [extend] either leaves the state as it is or adds the children. *)
Lemma extend_cases self n st :
  (extend self n st).2 = st \/
  exists nd b,
    nodes st !! n = Some nd /\ boards st !! now_board nd = Some b /\
    visits nd <> 0 /\
    nodes (extend self n st).2 =
      <[n := with_children nd
               (children nd ++ seq (length (nodes st))
                                 (length (get_legal_actions b (color nd))))]>
        (nodes st)
      ++ imap (fun i a => child_node n (flip_color (color nd))
                            (length (boards st) + i) a)
           (get_legal_actions b (color nd)) /\
    boards (extend self n st).2 =
      boards st ++ map (fun a => _move b a (color nd))
                       (get_legal_actions b (color nd)).
Proof.
  destruct (nodes st !! n) as [nd|] eqn:Hn.
  - destruct (decide (visits nd = 0)) as [Hv|Hv].
    { left. now rewrite (extend_unvisited self n st nd Hn Hv). }
    destruct (boards st !! now_board nd) as [b|] eqn:Hb.
    + right. exists nd, b.
      destruct (extend_visited_state self n st nd b Hn Hb Hv) as [H1 H2].
      auto 6.
    + left. unfold extend.
      rewrite (bind_ok _ _ _ _ _ (get_node_ok _ _ _ Hn)).
      destruct (decide (visits nd = 0)); [done|].
      unfold board_get_legal_actions, bind, read_board. now rewrite Hb.
  - left. unfold extend, bind, get_node. now rewrite Hn.
Qed.

(** [stimulate] leaves the nodes as they are and at most adds one board. *)
Lemma stimulate_cases self n st :
  nodes (stimulate self n st).2 = nodes st /\
  exists ext, boards (stimulate self n st).2 = boards st ++ ext.
Proof.
  destruct (nodes st !! n) as [nd|] eqn:Hn.
  - destruct (boards st !! now_board nd) as [b|] eqn:Hb.
    + destruct (stimulate_run self n st nd b Hn Hb)
        as (br & lg & st' & Hs & H1 & H2 & _).
      rewrite Hs. split; [done|]. now exists [br].
    + unfold stimulate.
      rewrite (bind_ok _ _ _ _ _ (get_node_ok _ _ _ Hn)).
      unfold deepcopy, bind, read_board. rewrite Hb. split; [done|].
      exists []. now rewrite app_nil_r.
  - unfold stimulate, bind, get_node. rewrite Hn. split; [done|].
    exists []. now rewrite app_nil_r.
Qed.

Lemma touched_visited (nd : @Node Action) : touched nd (visited nd).
Proof. now repeat split. Qed.

Lemma touched_bump self rf (nd : @Node Action) : touched nd (bump self rf nd).
Proof. now repeat split. Qed.

(** The reward that [stimulate] returns converts to a float. *)
Lemma stimulate_converts self n st rw st' :
  stimulate self n st = (Ok rw, st') -> exists rf, py_float rw = Ok rf.
Proof.
  intros H. destruct (nodes st !! n) as [nd|] eqn:Hn.
  - destruct (boards st !! now_board nd) as [b|] eqn:Hb.
    + destruct (stimulate_run self n st nd b Hn Hb)
        as (br & lg & st1 & Hs & _).
      rewrite Hs in H. injection H as <- _. apply reward_converts.
    + unfold stimulate in H.
      rewrite (bind_ok _ _ _ _ _ (get_node_ok _ _ _ Hn)) in H.
      unfold deepcopy, bind, read_board in H. now rewrite Hb in H.
  - unfold stimulate, bind, get_node in H. now rewrite Hn in H.
Qed.

(** The loop of [backup] changes nodes only by counting a visit and
    updating the reward, one at a time, whether it returns or raises. *)
Lemma backup_fuel_ind_nodes self rw (P : list (@Node Action) -> Prop) :
  (forall nds n nd nd', P nds -> nds !! n = Some nd -> touched nd nd' ->
                        P (<[n := nd']> nds)) ->
  forall f node st,
    P (nodes st) ->
    P (nodes (backup_fuel self f node rw st).2) /\
    boards (backup_fuel self f node rw st).2 = boards st.
Proof.
  intros Hstep. induction f as [|f IH]; intros [n|] st HP;
    try (cbn; split; [assumption|reflexivity]).
  destruct (nodes st !! n) as [nd|] eqn:Hn.
  - destruct (py_float rw) as [rf|e] eqn:Hrw.
    + rewrite (backup_fuel_step _ _ _ _ _ _ _ Hn Hrw).
      destruct (IH (parent nd)
                  (set_nodes (fun l => <[n := bump self rf nd]> l) st))
        as [H1 H2]; [cbn; eapply Hstep; eauto using touched_bump|].
      split; [exact H1|exact H2].
    + rewrite (backup_fuel_overflow _ _ _ _ _ _ _ Hn Hrw). cbn.
      split; [|reflexivity]. eapply Hstep; eauto using touched_visited.
  - assert (Hg : get_node n st = (Raise DanglingRef, st)).
    { unfold get_node. now rewrite Hn. }
    cbn [backup_fuel].
    rewrite (bind_raise _ _ _ _ _ Hg). cbn. split; [assumption|reflexivity].
Qed.

(** ** The invariants of the data model *)

Lemma tree_inv_bump (nds : list (@Node Action)) n nd nd' :
  tree_inv nds -> nds !! n = Some nd -> touched nd nd' ->
  tree_inv (<[n := nd']> nds).
Proof.
  intros Hinv Hn (Tv & Tb & Tc & Tp & Ta & Tcol) i x Hi.
  pose proof (lookup_lt_Some _ _ _ Hn) as Hlt.
  assert (Hx : exists x0, nds !! i = Some x0 /\ parent x = parent x0 /\
                 color x = color x0 /\
                 (visits x = 0 -> visits x0 = 0 /\ reward x = reward x0)).
  { destruct (decide (i = n)) as [->|Hne].
    - rewrite list_lookup_insert_eq in Hi by done. injection Hi as <-.
      exists nd. repeat split; auto; lia.
    - rewrite list_lookup_insert_ne in Hi by done. exists x. auto. }
  destruct Hx as (x0 & Hx0 & Hp & Hc & Hv).
  destruct (Hinv i x0 Hx0) as [H1 H2]. split.
  - intros Hz. destruct (Hv Hz) as [Hz0 ->]. auto.
  - intros p Hpp. rewrite Hp in Hpp. destruct (H2 p Hpp) as (pd & Hpd & Hcol).
    destruct (decide (p = n)) as [->|Hne].
    + exists nd'. rewrite list_lookup_insert_eq by done.
      split; [done|]. congruence.
    + exists pd. rewrite list_lookup_insert_ne by done. split; congruence.
Qed.

Lemma tree_inv_extend (nds : list (@Node Action)) n nd cs lb acts :
  tree_inv nds -> nds !! n = Some nd ->
  tree_inv (<[n := with_children nd cs]> nds
            ++ imap (fun i a => child_node n (flip_color (color nd))
                                  (lb + i) a) acts).
Proof.
  intros Hinv Hn i x Hi.
  pose proof (lookup_lt_Some _ _ _ Hn) as Hlt.
  assert (Hpar : forall p pd, nds !! p = Some pd ->
            exists pd', (<[n := with_children nd cs]> nds
                         ++ imap (fun i a => child_node n
                                    (flip_color (color nd)) (lb + i) a) acts)
                          !! p = Some pd' /\ color pd' = color pd).
  { intros p pd Hp. pose proof (lookup_lt_Some _ _ _ Hp).
    rewrite lookup_app_l by (rewrite length_insert; lia).
    destruct (decide (p = n)) as [->|Hne].
    - rewrite list_lookup_insert_eq by done. eexists. split; [done|].
      cbn. congruence.
    - rewrite list_lookup_insert_ne by done. eauto. }
  destruct (decide (i < length nds)) as [Hi_lt|Hi_ge].
  - rewrite lookup_app_l in Hi by (rewrite length_insert; lia).
    assert (Hx : exists x0, nds !! i = Some x0 /\ parent x = parent x0 /\
                   color x = color x0 /\ visits x = visits x0 /\
                   reward x = reward x0).
    { destruct (decide (i = n)) as [->|Hne].
      - rewrite list_lookup_insert_eq in Hi by done. injection Hi as <-.
        exists nd. auto.
      - rewrite list_lookup_insert_ne in Hi by done. exists x. auto. }
    destruct Hx as (x0 & Hx0 & Hp & Hc & Hv & Hr).
    destruct (Hinv i x0 Hx0) as [H1 H2]. split.
    + intros Hz. rewrite Hr. apply H1. congruence.
    + intros p Hpp. rewrite Hp in Hpp.
      destruct (H2 p Hpp) as (pd & Hpd & Hcol).
      destruct (Hpar p pd Hpd) as (pd' & Hpd' & Hc').
      exists pd'. split; [done|]. congruence.
  - rewrite lookup_app_r in Hi by (rewrite length_insert; lia).
    apply list_lookup_imap_Some in Hi as (a & Ha & ->). split; [done|].
    intros p Hp. cbn in Hp. injection Hp as <-.
    destruct (Hpar n nd Hn) as (pd' & Hpd' & Hc').
    exists pd'. split; [done|]. cbn. congruence.
Qed.

(** C9: in every state reached from a freshly created root by any sequence
    of [select], [extend], [stimulate] and [backup], every node that has a
    parent has the colour opposite to its parent's, and every node with
    [visits = 0] has [reward = 0]. *)
Theorem reachable_tree_inv self st :
  reachable self st -> tree_inv (nodes st).
Proof.
  induction 1 as [nb c bs draws lg|st n Hr IH|st n Hr IH|st n Hr IH
                 |st n rw Hr IH].
  - intros i x Hi. cbn in Hi. destruct i as [|i]; [|done].
    injection Hi as <-. split; [done|]. intros p Hp. discriminate.
  - now rewrite read_only_select.
  - destruct (extend_cases self n st) as [->|(nd & b & Hn & Hb & Hv & H1 & H2)];
      [done|].
    rewrite H1. now apply tree_inv_extend.
  - now rewrite (proj1 (stimulate_cases self n st)).
  - unfold backup.
    apply (backup_fuel_ind_nodes self rw tree_inv); [|done].
    intros nds i x x' Hx Hi Ht. now apply tree_inv_bump with x.
Qed.

(** ** Frame properties *)

Lemma frame_refl st : frame st st.
Proof. split; [exists []; now rewrite app_nil_r|eauto]. Qed.

Lemma frame_trans st1 st2 st3 : frame st1 st2 -> frame st2 st3 -> frame st1 st3.
Proof.
  intros [[e1 H1] N1] [[e2 H2] N2]. split.
  - exists (e1 ++ e2). rewrite H2, H1. now rewrite app_assoc.
  - intros n nd Hn. destruct (N1 n nd Hn) as (nd1 & Hn1 & Hb1).
    destruct (N2 n nd1 Hn1) as (nd2 & Hn2 & Hb2).
    exists nd2. split; [done|congruence].
Qed.

Lemma preserving_bind {A B} (m : @M Board Action A)
    (k : A -> @M Board Action B) :
  preserving m -> (forall a, preserving (k a)) -> preserving (bind m k).
Proof.
  intros Hm Hk st. unfold bind. specialize (Hm st).
  destruct (m st) as [[a|e] st1]; cbn in Hm; [|exact Hm].
  eapply frame_trans; [exact Hm|apply Hk].
Qed.

Lemma read_only_preserving {A} (m : @M Board Action A) :
  read_only m -> preserving m.
Proof. intros H st. rewrite H. apply frame_refl. Qed.

Lemma preserving_deepcopy l : preserving (@deepcopy Board Action l).
Proof.
  intros st. destruct (boards st !! l) as [b|] eqn:Hb.
  - rewrite (deepcopy_ok _ _ _ Hb). split; [now exists [b]|eauto].
  - unfold deepcopy, bind, read_board. rewrite Hb. apply frame_refl.
Qed.

Lemma preserving_new_node nb par act c :
  preserving (@new_node Board Action nb par act c).
Proof.
  intros st. split; [exists []; cbn; now rewrite app_nil_r|].
  intros n nd Hn. exists nd. split; [|done]. cbn.
  rewrite lookup_app_l; [done|]. now apply lookup_lt_Some in Hn.
Qed.

Lemma preserving_extend self n : @preserving Board Action _ (extend self n).
Proof.
  intros st.
  destruct (extend_cases self n st) as [->|(nd & b & Hn & Hb & Hv & H1 & H2)];
    [apply frame_refl|].
  split; [rewrite H2; eauto|]. intros i x Hi. rewrite H1.
  pose proof (lookup_lt_Some _ _ _ Hi).
  rewrite lookup_app_l by (rewrite length_insert; lia).
  destruct (decide (i = n)) as [->|Hne].
  - rewrite list_lookup_insert_eq by done. eexists. split; [done|].
    cbn. congruence.
  - rewrite list_lookup_insert_ne by done. eauto.
Qed.

Lemma preserving_stimulate self n : @preserving Board Action _ (stimulate self n).
Proof.
  intros st. destruct (stimulate_cases self n st) as [H1 H2].
  split; [exact H2|]. intros i x Hi. rewrite H1. eauto.
Qed.

Lemma preserving_backup self n rw : @preserving Board Action _ (backup self n rw).
Proof.
  intros st. unfold backup.
  destruct (backup_fuel_ind_nodes self rw
              (fun nds => forall i x, nodes st !! i = Some x ->
                 exists x', nds !! i = Some x' /\ now_board x' = now_board x))
    with (f := length (nodes st)) (node := Some n) (st := st) as [H1 H2].
  - intros nds j y y' HP Hj (_ & Ty & _) i x Hi.
    destruct (HP i x Hi) as (x' & Hx' & Hb).
    pose proof (lookup_lt_Some _ _ _ Hj).
    destruct (decide (i = j)) as [->|Hne].
    + rewrite list_lookup_insert_eq by done. eexists. split; [done|].
      congruence.
    + rewrite list_lookup_insert_ne by done. eauto.
  - eauto.
  - split; [exists []; rewrite H2; now rewrite app_nil_r|exact H1].
Qed.

Lemma preserving_uct_iteration self root : @preserving Board Action _ (uct_iteration self root).
Proof.
  unfold uct_iteration. apply preserving_bind.
  { apply read_only_preserving, read_only_select. }
  intros [sel|]; [|apply read_only_preserving, read_only_raise].
  apply preserving_bind; [apply preserving_extend|]. intros leaf.
  apply preserving_bind; [apply preserving_stimulate|]. intros rw.
  apply preserving_bind; [apply preserving_backup|]. intros _.
  apply read_only_preserving, read_only_ret.
Qed.

Lemma preserving_uct_loop self root k : @preserving Board Action _ (uct_loop self k root).
Proof.
  induction k as [|k IH]; cbn [uct_loop].
  - apply read_only_preserving, read_only_ret.
  - apply preserving_bind; [apply preserving_uct_iteration|]. now intros _.
Qed.

(** More iterations continue from the state that fewer iterations reach. *)
Lemma uct_loop_more self root i k : forall st,
  frame (uct_loop self i root st).2 (uct_loop self (i + k) root st).2.
Proof.
  induction i as [|i IH]; intros st.
  - cbn [uct_loop Nat.add ret snd]. apply preserving_uct_loop.
  - cbn [uct_loop Nat.add]. unfold bind.
    destruct (uct_iteration self root st) as [[u|e] st1];
      [apply IH|apply frame_refl].
Qed.

Lemma bind_read_only_snd {A B} (m : @M Board Action A)
    (k : A -> @M Board Action B) st :
  (forall a, read_only (k a)) -> (bind m k st).2 = (m st).2.
Proof.
  intros Hk. unfold bind. destruct (m st) as [[a|e] st1]; [apply Hk|done].
Qed.

(** C10: a call of [get_move] ends in the state its search loop ends in
    (choosing the move writes nothing); whatever the number of iterations,
    every board object of the caller, the board passed in among them, has
    its contents unchanged; the root refers to a new board object with
    the contents of the caller's board; between any two points of the loop
    every board object and every node's snapshot reference is unchanged;
    and each of [extend], [stimulate] and [backup] only adds board objects
    and leaves the existing ones and the nodes' references as they are. *)
Theorem get_move_frame self l st :
  (get_move self l st).2 = (search_prefix self l (max_times self) st).2 /\
  (forall k, frame st (search_prefix self l k st).2) /\
  (forall b k, boards st !! l = Some b ->
     boards (search_prefix self l k st).2 !! l = Some b /\
     exists rd, nodes (search_prefix self l k st).2 !! length (nodes st)
                  = Some rd /\
                now_board rd = length (boards st) /\ now_board rd <> l /\
                boards (search_prefix self l k st).2 !! now_board rd
                  = Some b) /\
  (forall i j, i <= j ->
     frame (search_prefix self l i st).2 (search_prefix self l j st).2) /\
  (forall n st0, frame st0 (extend self n st0).2) /\
  (forall n st0, frame st0 (stimulate self n st0).2) /\
  (forall n rw st0, frame st0 (backup self n rw st0).2).
Proof.
  assert (Hpre : forall k, @preserving Board Action _ (search_prefix self l k)).
  { intros k. unfold search_prefix.
    apply preserving_bind; [apply preserving_deepcopy|]. intros rb.
    apply preserving_bind; [apply preserving_new_node|]. intros root.
    apply preserving_uct_loop. }
  split.
  { unfold get_move, search_prefix, bind, uct.
    destruct (deepcopy l st) as [[rb|e] st1]; [|done].
    destruct (new_node rb None None (ai_color self) st1) as [[root|e] st2];
      [|done].
    fold (@bind Board Action unit (option Action)
            (uct_loop self (max_times self) root)
            (fun _ => uct_decide self root)).
    apply bind_read_only_snd. intros _. apply read_only_uct_decide. }
  split; [intros k; apply Hpre|].
  split.
  { intros b k Hb. pose proof (lookup_lt_Some _ _ _ Hb) as Hlt.
    set (st0 := {| nodes := nodes st ++ [fresh_root (length (boards st))
                                           (ai_color self)];
                   boards := boards st ++ [b]; rng := rng st;
                   move_log := move_log st |}).
    assert (E : search_prefix self l k st
                = uct_loop self k (length (nodes st)) st0).
    { unfold search_prefix.
      now rewrite (bind_ok _ _ _ _ _ (deepcopy_ok _ _ _ Hb)). }
    rewrite E.
    destruct (preserving_uct_loop self (length (nodes st)) k st0)
      as [[ext He] Hn].
    cbn [boards nodes st0] in He, Hn.
    destruct (Hn (length (nodes st))
                 (fresh_root (length (boards st)) (ai_color self)))
      as (rd & Hrd & Hnb).
    { now rewrite list_lookup_middle. }
    split.
    - rewrite He. rewrite <- app_assoc. now rewrite lookup_app_l.
    - exists rd. split; [exact Hrd|]. cbn in Hnb.
      split; [exact Hnb|]. split; [lia|].
      rewrite He, Hnb. rewrite lookup_app_l by (rewrite length_app; cbn; lia).
      now rewrite list_lookup_middle. }
  split.
  { intros i j Hij. replace j with (i + (j - i)) by lia.
    unfold search_prefix, bind.
    destruct (deepcopy l st) as [[rb|e] st1]; [|apply frame_refl].
    destruct (new_node rb None None (ai_color self) st1) as [[root|e] st2];
      [|apply frame_refl].
    apply uct_loop_more. }
  split; [intros n st0; apply preserving_extend|].
  split; [intros n st0; apply preserving_stimulate|].
  intros n rw st0; apply preserving_backup.
Qed.

(** ** The score *)

Lemma get_ucb_unvisited n (C : float) st nd :
  nodes st !! n = Some nd -> visits nd = 0 ->
  get_ucb n C st = (Ok (PInt sys_maxsize), st).
Proof.
  intros Hn Hv. unfold get_ucb.
  rewrite (bind_ok _ _ _ _ _ (get_node_ok _ _ _ Hn)).
  now destruct (decide (visits nd = 0)).
Qed.

(** The argument of [math.sqrt] in [get_ucb] is never below zero. *)
Lemma explore_arg_sign (v k : Z) m e :
  (0 < k)%Z ->
  float_negative (fdiv (fmul float_two (libm_log k)) (S754_finite false m e))
  = false.
Proof.
  intros Hk. apply fdiv_sign, fmul_sign; [reflexivity|].
  now apply float_nonneg_negative, libm_log_nonneg.
Qed.

Lemma get_ucb_visited n (C : float) st nd p pd :
  nodes st !! n = Some nd -> visits nd <> 0 ->
  (Z.of_nat (visits nd) < 2 ^ 64)%Z -> parent nd = Some p ->
  nodes st !! p = Some pd -> visits pd <> 0 ->
  get_ucb n C st
  = (Ok (PFloat (ucb1 (reward nd) (visits nd) (visits pd) C)), st).
Proof.
  intros Hn Hv Hlt Hp Hpd Hpv. unfold get_ucb.
  rewrite (bind_ok _ _ _ _ _ (get_node_ok _ _ _ Hn)).
  destruct (decide (visits nd = 0)); [done|]. rewrite Hp.
  rewrite (bind_ok _ _ _ _ _ (get_node_ok _ _ _ Hpd)).
  unfold math_log. destruct (decide (visits pd = 0)); [done|].
  unfold bind at 1. unfold ret at 1.
  unfold ucb1, math_sqrt, bind, lift, ret.
  rewrite py_float_ok by lia.
  destruct (Z2float_positive (Z.of_nat (visits nd))) as (m & e & ->); [lia|].
  cbn [py_div]. unfold py_sqrt.
  rewrite (explore_arg_sign (Z.of_nat (visits nd))) by lia.
  reflexivity.
Qed.



(** ** Selection *)

Lemma nodes_forall_from_sound P (nds : list (@Node Action)) : forall k,
  nodes_forall_from P k nds = true ->
  forall n nd, nds !! n = Some nd -> P (k + n) nd = true.
Proof.
  induction nds as [|x rest IH]; intros k H n nd Hn; [done|].
  cbn [nodes_forall_from] in H. apply andb_true_iff in H as [H1 H2].
  destruct n as [|n]; cbn in Hn.
  - injection Hn as <-. now rewrite Nat.add_0_r.
  - rewrite <- Nat.add_succ_comm. now apply IH.
Qed.

Lemma children_ok_check (nds : list (@Node Action)) :
  children_okb nds = true -> children_ok nds.
Proof.
  intros H n nd k Hn Hk.
  pose proof (nodes_forall_from_sound _ nds 0 H n nd Hn) as Hc.
  cbn beta in Hc. rewrite forallb_forall in Hc.
  specialize (Hc k (proj1 (list_elem_of_In _ _) Hk)).
  apply andb_true_iff in Hc as [Ha Hb]. apply Nat.ltb_lt in Ha.
  destruct (nds !! k) as [kd|]; [|done].
  apply bool_decide_eq_true in Hb. split; [lia|eauto].
Qed.

Lemma visits_ok_check (nds : list (@Node Action)) :
  visits_okb nds = true -> visits_ok nds.
Proof.
  intros H n nd p pd Hn Hp Hpd.
  pose proof (nodes_forall_from_sound _ nds 0 H n nd Hn) as Hc.
  cbn beta in Hc. rewrite Hp, Hpd in Hc. now apply Nat.leb_le in Hc.
Qed.

Lemma all_visited_run (kids : list nat) st :
  (forall k, k ∈ kids -> is_Some (nodes st !! k)) ->
  exists fe,
    all_visited kids st = (Ok fe, st) /\
    (fe = true <->
     forall k kd, k ∈ kids -> nodes st !! k = Some kd -> visits kd <> 0).
Proof.
  induction kids as [|k ks IH]; intros Hv.
  - exists true. split; [done|]. split; [|done].
    intros _ k kd Hk. now apply elem_of_nil in Hk.
  - destruct (Hv k) as [kd Hkd]; [apply elem_of_cons; now left|].
    cbn [all_visited]. rewrite (bind_ok _ _ _ _ _ (get_node_ok _ _ _ Hkd)).
    destruct (decide (visits kd = 0)) as [Hz|Hz].
    + exists false. split; [done|]. split; [done|]. intros H.
      exfalso. apply (H k kd); [apply elem_of_cons; now left|done|done].
    + destruct IH as (fe & Hb & Hiff).
      { intros k' Hk'. apply Hv. apply elem_of_cons. now right. }
      exists fe. split; [done|]. rewrite Hiff. split.
      * intros H k' kd' Hk' Hl. apply elem_of_cons in Hk' as [->|Hk'].
        -- congruence.
        -- now apply (H k' kd').
      * intros H k' kd' Hk'. apply H. apply elem_of_cons. now right.
Qed.

Lemma first_unvisited_run (kids : list nat) st :
  (forall k, k ∈ kids -> is_Some (nodes st !! k)) ->
  exists r,
    first_unvisited kids st = (Ok r, st) /\
    match r with
    | None => forall k kd, k ∈ kids -> nodes st !! k = Some kd ->
                           visits kd <> 0
    | Some k =>
        exists i kd,
          kids !! i = Some k /\ nodes st !! k = Some kd /\ visits kd = 0 /\
          (forall j k' kd', j < i -> kids !! j = Some k' ->
                            nodes st !! k' = Some kd' -> visits kd' <> 0)
    end.
Proof.
  induction kids as [|k ks IH]; intros Hv.
  - exists None. split; [done|]. intros k kd Hk. now apply elem_of_nil in Hk.
  - destruct (Hv k) as [kd Hkd]; [apply elem_of_cons; now left|].
    cbn [first_unvisited].
    rewrite (bind_ok _ _ _ _ _ (get_node_ok _ _ _ Hkd)).
    destruct (decide (visits kd = 0)) as [Hz|Hz].
    + exists (Some k). split; [done|]. exists 0, kd.
      repeat split; auto. intros j k' kd' Hj. lia.
    + destruct IH as (r & Hr & Hspec).
      { intros k' Hk'. apply Hv. apply elem_of_cons. now right. }
      exists r. split; [done|]. destruct r as [k1|].
      * destruct Hspec as (i & kd1 & Hi & Hk1 & Hz1 & Hbefore).
        exists (S i), kd1. repeat split; auto.
        intros j k' kd' Hj Hjk Hl. destruct j as [|j].
        -- cbn in Hjk. congruence.
        -- cbn in Hjk. apply (Hbefore j k' kd'); [lia|done|done].
      * intros k' kd' Hk' Hl. apply elem_of_cons in Hk' as [->|Hk'].
        -- congruence.
        -- now apply (Hspec k' kd').
Qed.

(** The comparison loop, when every child has a score: it keeps the
    starting candidate if no score is above the starting bound, and
    otherwise ends on the first child with the highest score. *)
Lemma max_ucb_loop_run (C : float) st (score : nat -> pynum)
    (kids : list nat) :
  (forall k, k ∈ kids -> get_ucb k C st = (Ok (score k), st)) ->
  forall m mn,
  exists r,
    max_ucb_loop C kids m mn st = (Ok r, st) /\
    ((r = mn /\ forall k, k ∈ kids -> py_lt m (score k) = false) \/
     (exists i w,
        r = Some w /\ kids !! i = Some w /\ py_lt m (score w) = true /\
        (forall j k, kids !! j = Some k ->
                     py_lt (score w) (score k) = false) /\
        (forall j k, j < i -> kids !! j = Some k ->
                     py_lt (score k) (score w) = true \/ py_nan (score k)))).
Proof.
  induction kids as [|k ks IH]; intros Hs m mn.
  - exists mn. split; [done|]. left. split; [done|].
    intros k Hk. now apply elem_of_nil in Hk.
  - cbn [max_ucb_loop].
    rewrite (bind_ok _ _ _ _ _
               (Hs k (proj2 (elem_of_cons _ _ _) (or_introl eq_refl)))).
    assert (Hs' : forall k', k' ∈ ks -> get_ucb k' C st = (Ok (score k'), st)).
    { intros k' Hk'. apply Hs. apply elem_of_cons. now right. }
    destruct (py_lt m (score k)) eqn:Hlt.
    + destruct (IH Hs' (score k) (Some k)) as (r & Hr & [[-> Hall]|Hbest]).
      * exists (Some k). split; [done|]. right. exists 0, k.
        split; [done|]. split; [done|]. split; [done|]. split.
        -- intros j k' Hj. destruct j as [|j]; cbn in Hj.
           ++ injection Hj as <-. apply py_lt_irrefl.
           ++ apply Hall. eapply list_elem_of_lookup_2; eauto.
        -- intros j k' Hj. lia.
      * destruct Hbest as (i & w & -> & Hi & Hc & Hall & Hbefore).
        exists (Some w). split; [done|]. right. exists (S i), w.
        split; [done|]. split; [done|].
        split; [eauto using py_lt_trans|]. split.
        -- intros j k' Hj. destruct j as [|j]; cbn in Hj.
           ++ injection Hj as <-. now apply py_lt_asym.
           ++ now apply (Hall j).
        -- intros j k' Hji Hj. destruct j as [|j]; cbn in Hj.
           ++ injection Hj as <-. now left.
           ++ apply (Hbefore j); [lia|done].
    + destruct (IH Hs' m mn) as (r & Hr & [[-> Hall]|Hbest]).
      * exists mn. split; [done|]. left. split; [done|].
        intros k' Hk'. apply elem_of_cons in Hk' as [->|Hk']; [done|].
        now apply Hall.
      * destruct Hbest as (i & w & -> & Hi & Hc & Hall & Hbefore).
        exists (Some w). split; [done|]. right. exists (S i), w.
        split; [done|]. split; [done|]. split; [done|]. split.
        -- intros j k' Hj. destruct j as [|j]; cbn in Hj.
           ++ injection Hj as <-. eauto using py_lt_le_not_gt.
           ++ now apply (Hall j).
        -- intros j k' Hji Hj. destruct j as [|j]; cbn in Hj.
           ++ injection Hj as <-.
              destruct (py_value (score k)) as [v|] eqn:Hv; [|now right].
              left. apply (py_lt_le_lt m); [done..|].
              unfold py_nan. congruence.
           ++ apply (Hbefore j); [lia|done].
Qed.

(** Whatever the scores, the loop ends on one of the children or on the
    starting candidate. *)
Lemma max_ucb_loop_member (C : float) st (kids : list nat) :
  forall m mn w st',
  max_ucb_loop C kids m mn st = (Ok (Some w), st') ->
  w ∈ kids \/ mn = Some w.
Proof.
  induction kids as [|k ks IH]; intros m mn w st' H.
  - cbn in H. right. unfold ret in H. congruence.
  - cbn [max_ucb_loop] in H. unfold bind in H.
    destruct (get_ucb k C st) as [[u|e] st1] eqn:Hu; [|done].
    assert (st1 = st) as ->.
    { pose proof (read_only_get_ucb k C st) as Hro. now rewrite Hu in Hro. }
    destruct (py_lt m u).
    + destruct (IH _ _ _ _ H) as [Hin|Heq].
      * left. apply elem_of_cons. now right.
      * injection Heq as <-. left. apply elem_of_cons. now left.
    + destruct (IH _ _ _ _ H) as [Hin|Heq]; [|now right].
      left. apply elem_of_cons. now right.
Qed.

Lemma get_ucb_no_fuel_error k (C : float) st :
  (get_ucb k C st).1 <> @Raise pynum OutOfFuel.
Proof.
  unfold get_ucb, bind, get_node, math_log, math_sqrt, lift, ret, raise.
  destruct (nodes st !! k) as [kd|]; [|cbn; congruence].
  destruct (decide (visits kd = 0)); [cbn; congruence|].
  destruct (parent kd) as [p|]; [|cbn; congruence].
  destruct (nodes st !! p) as [pd|]; [|cbn; congruence].
  destruct (decide (visits pd = 0)); [cbn; congruence|].
  unfold py_float, py_div, py_sqrt.
  destruct (Z2float _); try (cbn; congruence);
    destruct (float_negative _); cbn; congruence.
Qed.

Lemma max_ucb_loop_no_fuel_error (C : float) st (kids : list nat) :
  forall m mn,
  (max_ucb_loop C kids m mn st).1 <> @Raise (option nat) OutOfFuel.
Proof.
  induction kids as [|k ks IH]; intros m mn; [cbn; congruence|].
  cbn [max_ucb_loop]. unfold bind.
  pose proof (get_ucb_no_fuel_error k C st) as Hk.
  pose proof (read_only_get_ucb k C st) as Hro.
  destruct (get_ucb k C st) as [[u|e] st1]; cbn in Hk, Hro; subst.
  - destruct (py_lt m u); apply IH.
  - cbn. congruence.
Qed.

Lemma children_valid (nds : list (@Node Action)) n nd :
  children_ok nds -> nds !! n = Some nd ->
  forall k, k ∈ children nd -> is_Some (nds !! k).
Proof.
  intros Hok Hn k Hk. destruct (Hok n nd k Hn Hk) as (_ & kd & Hkd & _).
  now exists kd.
Qed.

Lemma full_expanded_run n st nd :
  children_ok (nodes st) -> nodes st !! n = Some nd ->
  exists fe,
    full_expanded n st = (Ok fe, st) /\
    (fe = true <->
     children nd <> [] /\
     forall k kd, k ∈ children nd -> nodes st !! k = Some kd ->
                  visits kd <> 0).
Proof.
  intros Hok Hn. unfold full_expanded.
  rewrite (bind_ok _ _ _ _ _ (get_node_ok _ _ _ Hn)).
  destruct (decide (length (children nd) = 0)) as [Hz|Hz].
  - exists false. split; [done|]. split; [done|]. intros [Hne _].
    apply length_zero_iff_nil in Hz. done.
  - destruct (all_visited_run (children nd) st (children_valid _ n nd Hok Hn))
      as (fe & Hfe & Hiff).
    exists fe. split; [done|]. rewrite Hiff. split; [|tauto].
    intros H. split; [|done]. intros E. now rewrite E in Hz.
Qed.

(** On a well-formed arena the bound on the recursion of [select] is
    never hit, and any larger bound gives the same result. *)
Lemma select_fuel_stable self st :
  children_ok (nodes st) ->
  forall f1 n f2,
    n < length (nodes st) ->
    length (nodes st) - n <= f1 -> length (nodes st) - n <= f2 ->
    select_fuel self f1 n st = select_fuel self f2 n st /\
    (select_fuel self f1 n st).1 <> @Raise (option nat) OutOfFuel.
Proof.
  intros Hok. induction f1 as [|f1 IH]; intros n f2 Hn H1 H2; [lia|].
  destruct f2 as [|f2]; [lia|]. cbn [select_fuel].
  destruct (lookup_lt_is_Some_2 _ _ Hn) as [nd Hnd].
  rewrite !(bind_ok _ _ _ _ _ (get_node_ok _ _ _ Hnd)).
  destruct (decide (length (children nd) = 0)); [split; [done|cbn; congruence]|].
  destruct (full_expanded_run n st nd Hok Hnd) as (fe & Hfe & _).
  rewrite !(bind_ok _ _ _ _ _ Hfe). destruct fe.
  - pose proof (max_ucb_loop_no_fuel_error (ucb_param self) st (children nd)
                  (PInt (- sys_maxsize)) None) as Hno.
    pose proof (read_only_max_ucb_loop (ucb_param self) (children nd)
                  (PInt (- sys_maxsize)) None st) as Hro.
    destruct (max_ucb_loop (ucb_param self) (children nd)
                (PInt (- sys_maxsize)) None st) as [[mn|e] st1] eqn:Hm;
      cbn in Hno, Hro; subst st1.
    + rewrite !(bind_ok _ _ _ _ _ Hm). destruct mn as [w|].
      * destruct (max_ucb_loop_member _ _ _ _ _ _ _ Hm) as [Hin|Hin];
          [|done].
        destruct (Hok n nd w Hnd Hin) as (Hlt & wd & Hwd & _).
        pose proof (lookup_lt_Some _ _ _ Hwd).
        apply IH; lia.
      * split; [done|cbn; congruence].
    + rewrite !(bind_raise _ _ _ _ _ Hm). split; [done|]. cbn. congruence.
  - destruct (first_unvisited_run (children nd) st
                (children_valid _ n nd Hok Hnd)) as (r & Hr & _).
    rewrite Hr. split; [done|cbn; congruence].
Qed.

(** C6: on a well-formed tree, [select] returns the node itself if it has
    no children; if it has children and one of them has no visit, the
    first such child in the order of the child list; and if all its
    children are visited (the node itself fewer than 2 ^ 64 times), every
    child has a score and the result is that of [select] on the child with
    the highest score, the first one in the order of the child list among
    equal scores, whose score is above the bound -[sys.maxsize] from which
    the comparison starts; if no score is above that bound, [select] on
    [None] raises.  The scores are compared as Python compares numbers.
    The recursion always comes to an end. *)
Theorem select_spec self st n nd :
  children_ok (nodes st) -> visits_ok (nodes st) ->
  nodes st !! n = Some nd ->
  (children nd = [] -> select self n st = (Ok (Some n), st)) /\
  (children nd <> [] ->
   (exists k kd, k ∈ children nd /\ nodes st !! k = Some kd /\
                 visits kd = 0) ->
   exists k, first_unvisited_child st nd k /\
             select self n st = (Ok (Some k), st)) /\
  (children nd <> [] ->
   (forall k kd, k ∈ children nd -> nodes st !! k = Some kd ->
                 visits kd <> 0) ->
   (Z.of_nat (visits nd) < 2 ^ 64)%Z ->
   (forall k, k ∈ children nd ->
      get_ucb k (ucb_param self) st
      = (Ok (child_score (ucb_param self) st nd k), st)) /\
   ((exists w, first_max_child (ucb_param self) st nd w /\
               py_lt (PInt (- sys_maxsize))
                     (child_score (ucb_param self) st nd w) = true /\
               select self n st = select self w st) \/
    ((forall k, k ∈ children nd ->
        py_lt (PInt (- sys_maxsize))
              (child_score (ucb_param self) st nd k) = false) /\
     select self n st = (Raise AttributeError, st)))) /\
  (select self n st).1 <> @Raise (option nat) OutOfFuel.
Proof.
  intros Hok Hvis Hnd.
  pose proof (lookup_lt_Some _ _ _ Hnd) as Hlt.
  assert (Hstep : forall f,
    select_fuel self (S f) n st =
      (if decide (length (children nd) = 0) then ret (Some n)
       else bind (full_expanded n)
              (fun fe => if fe
                 then bind (max_ucb_loop (ucb_param self) (children nd)
                              (PInt (- sys_maxsize)) None)
                        (fun max_node => match max_node with
                                         | None => raise AttributeError
                                         | Some w => select_fuel self f w
                                         end)
                 else first_unvisited (children nd))) st).
  { intros f. cbn [select_fuel].
    now rewrite (bind_ok _ _ _ _ _ (get_node_ok _ _ _ Hnd)). }
  assert (Hsel : exists f, length (nodes st) = S f).
  { destruct (length (nodes st)); [lia|eauto]. }
  destruct Hsel as [f Hf].
  split.
  { intros Hc. now apply select_childless with nd. }
  split.
  { intros Hne (k0 & kd0 & Hk0 & Hkd0 & Hz0).
    unfold select. rewrite Hf, Hstep.
    destruct (decide (length (children nd) = 0)) as [Hz|_].
    { apply length_zero_iff_nil in Hz. done. }
    destruct (full_expanded_run n st nd Hok Hnd) as (fe & Hfe & Hiff).
    rewrite (bind_ok _ _ _ _ _ Hfe).
    destruct fe.
    { destruct (proj1 Hiff eq_refl) as [_ Hall].
      now destruct (Hall k0 kd0 Hk0 Hkd0). }
    destruct (first_unvisited_run (children nd) st
                (children_valid _ n nd Hok Hnd)) as (r & Hr & Hspec).
    destruct r as [k|].
    - exists k. split; [exact Hspec|exact Hr].
    - now destruct (Hspec k0 kd0 Hk0 Hkd0). }
  split.
  { intros Hne Hall Hbound.
    assert (Hscore : forall k, k ∈ children nd ->
              get_ucb k (ucb_param self) st
              = (Ok (child_score (ucb_param self) st nd k), st)).
    { intros k Hk. destruct (Hok n nd k Hnd Hk) as (_ & kd & Hkd & Hp).
      pose proof (Hall k kd Hk Hkd).
      pose proof (Hvis k kd n nd Hkd Hp Hnd).
      unfold child_score. rewrite Hkd.
      apply get_ucb_visited with n; auto; lia. }
    split; [exact Hscore|].
    assert (Hrun : select self n st
                   = bind (max_ucb_loop (ucb_param self) (children nd)
                             (PInt (- sys_maxsize)) None)
                       (fun max_node => match max_node with
                                        | None => raise AttributeError
                                        | Some w => select_fuel self f w
                                        end) st).
    { unfold select. rewrite Hf, Hstep.
      destruct (decide (length (children nd) = 0)) as [Hz|_].
      { apply length_zero_iff_nil in Hz. done. }
      destruct (full_expanded_run n st nd Hok Hnd) as (fe & Hfe & Hiff).
      rewrite (bind_ok _ _ _ _ _ Hfe).
      destruct fe; [done|discriminate (proj2 Hiff (conj Hne Hall))]. }
    destruct (max_ucb_loop_run (ucb_param self) st
                (child_score (ucb_param self) st nd) (children nd) Hscore
                (PInt (- sys_maxsize)) None)
      as (r & Hr & [[-> Hle]|(i & w & -> & Hi & Hw & Hmax & Hbefore)]).
    { right. split; [exact Hle|]. rewrite Hrun.
      now rewrite (bind_ok _ _ _ _ _ Hr). }
    left. exists w. split; [exists i; auto|]. split; [exact Hw|].
    rewrite Hrun, (bind_ok _ _ _ _ _ Hr).
    assert (Hin : w ∈ children nd) by (eapply list_elem_of_lookup_2; eauto).
    destruct (Hok n nd w Hnd Hin) as (Hnw & wd & Hwd & _).
    pose proof (lookup_lt_Some _ _ _ Hwd).
    apply (select_fuel_stable self st Hok); lia. }
  unfold select. apply (select_fuel_stable self st Hok _ n (length (nodes st)));
    lia.
Qed.

(** ** Every tree the engine builds is well formed *)

Lemma parent_chain_closed (nds : list (@Node Action)) f : forall n x xd p,
  parents_below nds -> n < f ->
  x ∈ parent_chain nds f n -> nds !! x = Some xd -> parent xd = Some p ->
  p ∈ parent_chain nds f n.
Proof.
  induction f as [|f IH]; intros n x xd p Hpb Hf Hx Hxd Hp; [lia|].
  cbn [parent_chain] in *.
  destruct (nds !! n) as [nd|] eqn:Hn; [|now apply elem_of_nil in Hx].
  apply elem_of_cons in Hx as [->|Hx].
  - assert (xd = nd) by congruence. subst xd. rewrite Hp.
    apply elem_of_cons. right.
    pose proof (Hpb n nd p Hn Hp) as Hlt.
    destruct f as [|f]; [lia|]. cbn [parent_chain].
    destruct (lookup_lt_is_Some_2 nds p) as [pd Hpd].
    { apply lookup_lt_Some in Hn. lia. }
    rewrite Hpd. apply elem_of_cons. now left.
  - apply elem_of_cons. right.
    destruct (parent nd) as [q|] eqn:Hq; [|now apply elem_of_nil in Hx].
    pose proof (Hpb n nd q Hn Hq). apply (IH q x xd p); auto. lia.
Qed.

Lemma links_extend (nds : list (@Node Action)) n nd c1 lb
    (acts : list Action) :
  parents_below nds -> children_ok nds -> nds !! n = Some nd ->
  let new := <[n := with_children nd
                      (children nd ++ seq (length nds) (length acts))]> nds
             ++ imap (fun i a => child_node n c1 (lb + i) a) acts in
  parents_below new /\ children_ok new /\ (visits_ok nds -> visits_ok new).
Proof.
  intros Hpb Hco Hn.
  pose proof (lookup_lt_Some _ _ _ Hn) as Hlt.
  set (cs := children nd ++ seq (length nds) (length acts)).
  set (new := <[n := with_children nd cs]> nds
              ++ imap (fun i a => child_node n c1 (lb + i) a) acts).
  cbv zeta.
  assert (Hold : forall i x0, nds !! i = Some x0 ->
            new !! i = Some (if decide (i = n) then with_children x0 cs
                             else x0)).
  { intros i x0 Hi. pose proof (lookup_lt_Some _ _ _ Hi). unfold new.
    rewrite lookup_app_l by (rewrite length_insert; lia).
    destruct (decide (i = n)) as [->|Hne].
    - rewrite list_lookup_insert_eq by done. congruence.
    - now rewrite list_lookup_insert_ne by done. }
  assert (Hnew : forall i x, new !! i = Some x -> length nds <= i ->
            i < length nds + length acts /\ parent x = Some n /\
            visits x = 0 /\ children x = []).
  { intros i x Hi Hge. unfold new in Hi.
    rewrite lookup_app_r in Hi by (rewrite length_insert; lia).
    pose proof (lookup_lt_Some _ _ _ Hi) as Hl.
    rewrite length_imap, length_insert in Hl.
    apply list_lookup_imap_Some in Hi as (a & Ha & ->). cbn.
    repeat split; auto. lia. }
  assert (Hkid : forall j, j < length acts ->
            exists x, new !! (length nds + j) = Some x /\ parent x = Some n).
  { intros j Hj. destruct (lookup_lt_is_Some_2 acts j Hj) as [a Ha].
    exists (child_node n c1 (lb + j) a). split; [|done]. unfold new.
    rewrite lookup_app_r by (rewrite length_insert; lia).
    rewrite length_insert. replace (length nds + j - length nds) with j by lia.
    rewrite list_lookup_imap. now rewrite Ha. }
  assert (Hinv : forall i x, new !! i = Some x -> i < length nds ->
            exists x0, nds !! i = Some x0 /\
              x = (if decide (i = n) then with_children x0 cs else x0)).
  { intros i x Hi Hl. destruct (lookup_lt_is_Some_2 nds i Hl) as [x0 Hx0].
    exists x0. split; [done|]. rewrite (Hold i x0 Hx0) in Hi. congruence. }
  split; [|split].
  - intros i x p Hi Hp. destruct (decide (i < length nds)) as [Hl|Hl].
    + destruct (Hinv i x Hi Hl) as (x0 & Hx0 & ->).
      apply (Hpb i x0 p Hx0). now destruct (decide (i = n)).
    + destruct (Hnew i x Hi) as (_ & Hp' & _); [lia|].
      assert (p = n) by congruence. lia.
  - intros i x k Hi Hk. destruct (decide (i < length nds)) as [Hl|Hl].
    + destruct (Hinv i x Hi Hl) as (x0 & Hx0 & ->).
      assert (Hcase : k ∈ children x0 \/
                (i = n /\ k ∈ seq (length nds) (length acts))).
      { destruct (decide (i = n)) as [->|Hne]; [|now left].
        cbn in Hk. unfold cs in Hk. apply elem_of_app in Hk as [Hk|Hk].
        - left. congruence.
        - now right. }
      destruct Hcase as [Hk0|[-> Hk0]].
      * destruct (Hco i x0 k Hx0 Hk0) as (Hik & kd & Hkd & Hpk).
        split; [done|]. eexists. split; [apply (Hold k kd Hkd)|].
        now destruct (decide (k = n)).
      * apply elem_of_seq in Hk0.
        destruct (Hkid (k - length nds)) as (x & Hx & Hpx); [lia|].
        replace (length nds + (k - length nds)) with k in Hx by lia.
        split; [lia|]. now exists x.
    + destruct (Hnew i x Hi) as (_ & _ & _ & Hc); [lia|].
      rewrite Hc in Hk. now apply elem_of_nil in Hk.
  - intros Hvo i x p pd Hi Hp Hpd.
    destruct (decide (i < length nds)) as [Hl|Hl].
    + destruct (Hinv i x Hi Hl) as (x0 & Hx0 & ->).
      assert (Hp0 : parent x0 = Some p) by now destruct (decide (i = n)).
      pose proof (Hpb i x0 p Hx0 Hp0) as Hpi.
      destruct (Hinv p pd Hpd) as (pd0 & Hpd0 & ->); [lia|].
      pose proof (Hvo i x0 p pd0 Hx0 Hp0 Hpd0).
      now destruct (decide (i = n)), (decide (p = n)).
    + destruct (Hnew i x Hi) as (_ & _ & Hv & _); [lia|]. lia.
Qed.

Lemma well_formed_extend (nds : list (@Node Action)) n nd c1 lb
    (acts : list Action) :
  well_formed nds -> nds !! n = Some nd ->
  well_formed
    (<[n := with_children nd
              (children nd ++ seq (length nds) (length acts))]> nds
     ++ imap (fun i a => child_node n c1 (lb + i) a) acts).
Proof.
  intros (Hpb & Hco & Hvo) Hn.
  destruct (links_extend nds n nd c1 lb acts Hpb Hco Hn) as (H1 & H2 & H3).
  split; [exact H1|]. split; [exact H2|]. now apply H3.
Qed.

Lemma backup_out_of_range self n rw st :
  length (nodes st) <= n -> (backup self n rw st).2 = st.
Proof.
  intros Hge. unfold backup. destruct (length (nodes st)) eqn:E; [done|].
  cbn [backup_fuel]. unfold bind, get_node.
  rewrite lookup_ge_None_2; [done|lia].
Qed.

Lemma well_formed_backup self n rw rf st :
  py_float rw = Ok rf ->
  well_formed (nodes st) -> well_formed (nodes (backup self n rw st).2).
Proof.
  intros Hrw (Hpb & Hco & Hvo).
  destruct (decide (n < length (nodes st))) as [Hlt|Hge];
    [|rewrite backup_out_of_range by lia; done].
  destruct (backup_lookup self n rw rf st Hrw Hpb Hlt)
    as (st' & Hrun & _ & Hlen & Hlook).
  rewrite Hrun. cbn [snd].
  assert (Hinv : forall i x, nodes st' !! i = Some x ->
            exists x0, nodes st !! i = Some x0 /\
              x = (if bool_decide (i ∈ ancestors st n)
                   then bump self rf x0 else x0)).
  { intros i x Hi. pose proof (lookup_lt_Some _ _ _ Hi) as Hl.
    rewrite Hlen in Hl. destruct (lookup_lt_is_Some_2 _ _ Hl) as [x0 Hx0].
    exists x0. split; [done|]. rewrite (Hlook i x0 Hx0) in Hi.
    injection Hi as <-. reflexivity. }
  split; [|split].
  - intros i x p Hi Hp. destruct (Hinv i x Hi) as (x0 & Hx0 & ->).
    apply (Hpb i x0 p Hx0). now destruct (bool_decide _).
  - intros i x k Hi Hk. destruct (Hinv i x Hi) as (x0 & Hx0 & ->).
    assert (Hk0 : k ∈ children x0) by now destruct (bool_decide _).
    destruct (Hco i x0 k Hx0 Hk0) as (Hik & kd & Hkd & Hpk).
    split; [done|]. eexists. split; [apply (Hlook k kd Hkd)|].
    destruct (bool_decide (k ∈ ancestors st n)); cbn; exact Hpk.
  - intros i x p pd Hi Hp Hpd.
    destruct (Hinv i x Hi) as (x0 & Hx0 & ->).
    destruct (Hinv p pd Hpd) as (pd0 & Hpd0 & ->).
    assert (Hp0 : parent x0 = Some p) by now destruct (bool_decide _).
    pose proof (Hvo i x0 p pd0 Hx0 Hp0 Hpd0) as Hle.
    destruct (decide (i ∈ ancestors st n)) as [Hin|Hnin].
    + assert (Hpin : p ∈ ancestors st n).
      { apply (parent_chain_closed (nodes st) _ n i x0 p); auto. }
      rewrite !bool_decide_eq_true_2 by done. cbn. lia.
    + rewrite (bool_decide_eq_false_2 (i ∈ ancestors st n)) by done.
      destruct (bool_decide (p ∈ ancestors st n)); cbn; lia.
Qed.

Lemma parents_below_touch (nds : list (@Node Action)) n nd nd' :
  parents_below nds -> nds !! n = Some nd -> touched nd nd' ->
  parents_below (<[n := nd']> nds).
Proof.
  intros H Hn (_ & _ & _ & Tp & _) i x p Hi Hp.
  pose proof (lookup_lt_Some _ _ _ Hn).
  destruct (decide (i = n)) as [->|Hne].
  - rewrite list_lookup_insert_eq in Hi by done. injection Hi as <-.
    apply (H n nd p Hn). congruence.
  - rewrite list_lookup_insert_ne in Hi by done. now apply (H i x p).
Qed.

Lemma children_ok_touch (nds : list (@Node Action)) n nd nd' :
  children_ok nds -> nds !! n = Some nd -> touched nd nd' ->
  children_ok (<[n := nd']> nds).
Proof.
  intros H Hn (_ & _ & Tc & Tp & _) i x k Hi Hk.
  pose proof (lookup_lt_Some _ _ _ Hn).
  assert (Hx : exists x0, nds !! i = Some x0 /\ k ∈ children x0).
  { destruct (decide (i = n)) as [->|Hne].
    - rewrite list_lookup_insert_eq in Hi by done. injection Hi as <-.
      exists nd. split; [done|]. congruence.
    - rewrite list_lookup_insert_ne in Hi by done. eauto. }
  destruct Hx as (x0 & Hx0 & Hk0).
  destruct (H i x0 k Hx0 Hk0) as (Hik & kd & Hkd & Hpk).
  split; [done|]. destruct (decide (k = n)) as [->|Hne].
  - exists nd'. rewrite list_lookup_insert_eq by done.
    split; [done|]. congruence.
  - exists kd. now rewrite list_lookup_insert_ne by done.
Qed.

(** The links of the tree are sound in every state of a search: parents
    are older than their children, and child links lead to nodes that
    point back. *)
Lemma reachable_links self st :
  reachable self st -> parents_below (nodes st) /\ children_ok (nodes st).
Proof.
  induction 1 as [nb c bs draws lg|st n Hr IH|st n Hr IH|st n Hr IH
                 |st n rw Hr IH].
  - cbn [nodes]. split.
    + intros [|i] x p Hi Hp; [|done]. cbn in Hi. injection Hi as <-. done.
    + intros [|i] x k Hi Hk; [|done]. cbn in Hi. injection Hi as <-.
      now apply elem_of_nil in Hk.
  - now rewrite read_only_select.
  - destruct (extend_cases self n st) as [->|(nd & b & Hn & Hb & Hv & H1 & H2)];
      [done|].
    rewrite H1. destruct IH as [Hpb Hco].
    destruct (links_extend (nodes st) n nd (flip_color (color nd))
                (length (boards st)) (get_legal_actions b (color nd))
                Hpb Hco Hn) as (H3 & H4 & _).
    split; [exact H3|exact H4].
  - now rewrite (proj1 (stimulate_cases self n st)).
  - unfold backup. destruct IH as [Hpb Hco]. split.
    + apply (backup_fuel_ind_nodes self rw parents_below); [|done].
      intros nds i x x' HP Hi Ht. now apply parents_below_touch with x.
    + apply (backup_fuel_ind_nodes self rw children_ok); [|done].
      intros nds i x x' HP Hi Ht. now apply children_ok_touch with x.
Qed.

(** ** What [select] hands to [extend] *)

Lemma reachable_unvisited_childless self st :
  reachable self st -> unvisited_childless (nodes st).
Proof.
  induction 1 as [nb c bs draws lg|st n Hr IH|st n Hr IH|st n Hr IH
                 |st n rw Hr IH].
  - intros [|i] x Hi Hv; [|done]. cbn in Hi. now injection Hi as <-.
  - now rewrite read_only_select.
  - destruct (extend_cases self n st)
      as [->|(nd & b & Hn & Hb & Hv & H1 & H2)]; [done|].
    rewrite H1. intros i x Hi Hz.
    pose proof (lookup_lt_Some _ _ _ Hn) as Hlt.
    destruct (decide (i < length (nodes st))) as [Hl|Hl].
    + rewrite lookup_app_l in Hi by (rewrite length_insert; lia).
      destruct (decide (i = n)) as [->|Hne].
      * rewrite list_lookup_insert_eq in Hi by done. injection Hi as <-.
        cbn in Hz. done.
      * rewrite list_lookup_insert_ne in Hi by done. now apply (IH i x).
    + rewrite lookup_app_r in Hi by (rewrite length_insert; lia).
      now apply list_lookup_imap_Some in Hi as (a & Ha & ->).
  - now rewrite (proj1 (stimulate_cases self n st)).
  - unfold backup.
    apply (backup_fuel_ind_nodes self rw unvisited_childless); [|done].
    intros nds i x x' HP Hi (Tv & _) j y Hj Hz.
    pose proof (lookup_lt_Some _ _ _ Hi).
    destruct (decide (j = i)) as [->|Hne].
    + rewrite list_lookup_insert_eq in Hj by done. injection Hj as <-. lia.
    + rewrite list_lookup_insert_ne in Hj by done. now apply (HP j y).
Qed.

Lemma first_unvisited_some (kids : list nat) st k st' :
  first_unvisited kids st = (Ok (Some k), st') ->
  exists kd, nodes st !! k = Some kd /\ visits kd = 0.
Proof.
  induction kids as [|k0 ks IH]; intros H; [discriminate|].
  cbn [first_unvisited] in H. unfold bind, get_node in H.
  destruct (nodes st !! k0) as [kd|] eqn:Hk; [|discriminate].
  destruct (decide (visits kd = 0)).
  - unfold ret in H. injection H as <- <-. eauto.
  - now apply IH.
Qed.

(** X10: in every state of a search, whatever the node [select] starts
    from, the node it returns is in the arena and has no children: [extend]
    is only ever asked to expand a node that was not expanded before. *)
Lemma select_returns_childless self st n k st' :
  reachable self st -> select self n st = (Ok (Some k), st') ->
  exists kd, nodes st !! k = Some kd /\ children kd = [].
Proof.
  intros Hr. pose proof (reachable_unvisited_childless self st Hr) as Hun.
  unfold select. generalize (length (nodes st)). intros f. revert n.
  induction f as [|f IH]; intros n H; [discriminate|].
  cbn [select_fuel] in H. unfold bind at 1 in H. unfold get_node at 1 in H.
  destruct (nodes st !! n) as [nd|] eqn:Hn; [|discriminate].
  destruct (decide (length (children nd) = 0)) as [Hz|Hz].
  { unfold ret in H. injection H as <- <-. exists nd. split; [done|].
    now apply length_zero_iff_nil. }
  unfold bind at 1 in H.
  pose proof (read_only_full_expanded n st) as Hro.
  destruct (full_expanded n st) as [[fe|e] st1]; [|discriminate].
  cbn in Hro. subst st1. destruct fe.
  - unfold bind at 1 in H.
    pose proof (read_only_max_ucb_loop (ucb_param self) (children nd)
                  (PInt (- sys_maxsize)) None st) as Hro.
    destruct (max_ucb_loop _ _ _ _ st) as [[[w|]|e] st1]; try discriminate.
    cbn in Hro. subst st1. now apply (IH w).
  - destruct (first_unvisited_some _ _ _ _ H) as (kd & Hkd & Hv).
    exists kd. split; [done|]. now apply (Hun k kd).
Qed.

(** ** The decision without a legal move, and the rollout *)

(** C1 (amended): for every position in which the side to move has no legal
    move, the root never acquires a child and [get_move] returns no move (it
    does not choose among an empty set of children); on such a position,
    terminal or not, the search still runs all [max_times] iterations, each
    of them on the root itself, which ends with [max_times] visits. *)
Theorem get_move_without_legal_move self l st b :
  boards st !! l = Some b -> get_legal_actions b (ai_color self) = [] ->
  exists res st' rd,
    get_move self l st = (res, st') /\
    (forall a, res <> Ok (Some a)) /\
    nodes st' !! length (nodes st) = Some rd /\
    children rd = [] /\ visits rd = max_times self.
Proof.
  intros Hb Hl.
  destruct (get_move_no_legal_move_raises self l st b Hb Hl)
    as (st' & rd & Hg & Hn & Hc & Hv).
  exists (Raise AttributeError), st', rd. repeat split; auto.
Qed.

(** The reward of [stimulate], seen from the winner (w, d) of the final
    rollout board: 0 on a draw, magnitude 10 + d otherwise, negative when
    the engine's own colour has won and positive when the other has. *)
Lemma stimulate_reward_sign self n st nd b0 :
  nodes st !! n = Some nd -> boards st !! now_board nd = Some b0 ->
  exists rw br st',
    stimulate self n st = (Ok rw, st') /\
    boards st' !! length (boards st) = Some br /\
    ((get_winner br).1 = 2 -> rw = 0)%Z /\
    ((get_winner br).1 <> 2 -> 0 <= (get_winner br).2 ->
       Z.abs rw = 10 + (get_winner br).2)%Z /\
    ((get_winner br).1 = 0 -> 0 <= (get_winner br).2 ->
       (ai_color self = X -> rw < 0) /\ (ai_color self = O -> 0 < rw))%Z /\
    ((get_winner br).1 = 1 -> 0 <= (get_winner br).2 ->
       (ai_color self = O -> rw < 0) /\ (ai_color self = X -> 0 < rw))%Z.
Proof.
  intros Hn Hb.
  destruct (stimulate_run self n st nd b0 Hn Hb)
    as (br & lg & st' & Hs & H1 & H2 & _).
  eexists _, br, st'. split; [exact Hs|].
  split. { rewrite H2. now rewrite list_lookup_middle. }
  destruct (get_winner br) as [w d]; simpl.
  destruct (ai_color self); repeat case_decide; try congruence;
    repeat split; intros; try congruence; lia.
Qed.

(** C4: from every node, [stimulate] returns a reward: no step of its loop
    fails, it applies at most 50 moves, and each of them was chosen from a
    list of legal moves that has it as a member, so no [random.choice] is
    made from an empty list; on a position where neither side can move the
    terminal check ends the rollout before any move is applied. *)
Theorem stimulate_total self n st nd :
  nodes st !! n = Some nd -> is_Some (boards st !! now_board nd) ->
  exists rw st' plies,
    stimulate self n st = (Ok rw, st') /\
    move_log st' = move_log st ++ plies /\
    length plies <= 50 /\
    (forall b0, boards st !! now_board nd = Some b0 ->
       Forall (fun e => e.1.2 ∈ get_legal_actions b0 e.2) plies /\
       (~ has_move b0 -> plies = [])).
Proof.
  intros Hn [b0 Hb].
  destruct (stimulate_run self n st nd b0 Hn Hb)
    as (br & lg & st' & Hs & _ & _ & H3 & H4 & H5 & H6).
  eexists _, st', lg. split; [exact Hs|]. split; [exact H3|].
  split; [exact H4|]. intros b1 Hb1.
  assert (b1 = b0) by congruence. subst. split; [exact H5|].
  intros Hno. now apply H6.
Qed.

End EngineProofs.

(** * Further properties of the players *)

Section MoreProofs.

Context {Board Action : Type} `{Pos : Position Board Action} `{Lm : Libm}.

Implicit Types (st : @State Board Action) (nd : @Node Action).
Implicit Types (self : AIPlayer) (b : Board) (c : Color).

(** ** [Node.full_expanded] and [Node.add_child] *)

(** X1: [full_expanded] answers [True] exactly when the node has at least
    one child and every child has been visited; it answers [False] for a
    node without children, and it leaves the state as it is. *)
Theorem full_expanded_iff n st nd :
  nodes st !! n = Some nd ->
  (forall k, k ∈ children nd -> is_Some (nodes st !! k)) ->
  exists fe,
    full_expanded n st = (Ok fe, st) /\
    (children nd = [] -> fe = false) /\
    (fe = true <->
     children nd <> [] /\
     forall k kd, k ∈ children nd -> nodes st !! k = Some kd ->
                  visits kd <> 0).
Proof.
  intros Hn Hkids. unfold full_expanded.
  rewrite (bind_ok _ _ _ _ _ (get_node_ok _ _ _ Hn)).
  destruct (decide (length (children nd) = 0)) as [Hz|Hz].
  - apply length_zero_iff_nil in Hz. exists false. split; [done|].
    split; [done|]. split; [done|]. now intros [Hne _].
  - destruct (all_visited_run (children nd) st Hkids) as (fe & Hfe & Hiff).
    exists fe. split; [exact Hfe|]. split.
    + intros E. now rewrite E in Hz.
    + rewrite Hiff. split; [|tauto].
      intros H. split; [|exact H]. intros E. now rewrite E in Hz.
Qed.

(** X2: on a well-formed tree, [add_child] creates one node, unvisited,
    without reward and without children, whose parent link is the node it
    was added to; it becomes the last child of that node, every other node
    and every board is as before, and the tree is still well formed. *)
Theorem add_child_well_formed n l (a : Action) c st nd :
  well_formed (nodes st) -> nodes st !! n = Some nd ->
  exists st' nd',
    add_child n l a c st = (Ok tt, st') /\
    well_formed (nodes st') /\
    length (nodes st') = S (length (nodes st)) /\
    nodes st' !! length (nodes st)
      = Some {| visits := 0; reward := float_zero; now_board := l;
                children := []; parent := Some n; action := Some a;
                color := c |} /\
    nodes st' !! n = Some nd' /\
    children nd' = children nd ++ [length (nodes st)] /\
    visits nd' = visits nd /\ reward nd' = reward nd /\
    parent nd' = parent nd /\ color nd' = color nd /\
    now_board nd' = now_board nd /\
    (forall i x, i <> n -> nodes st !! i = Some x ->
                 nodes st' !! i = Some x) /\
    boards st' = boards st.
Proof.
  intros Hwf Hn. pose proof (lookup_lt_Some _ _ _ Hn) as Hlt.
  eexists _, (with_children nd (children nd ++ [length (nodes st)])).
  split; [apply (add_child_ok n l a c st nd Hn)|]. cbn [nodes boards].
  split.
  { pose proof (well_formed_extend (nodes st) n nd c l [a] Hwf Hn) as H.
    cbn [length seq imap] in H. rewrite Nat.add_0_r in H. exact H. }
  split. { rewrite length_app, length_insert. cbn. lia. }
  split.
  { rewrite lookup_app_r by (rewrite length_insert; lia).
    rewrite length_insert, Nat.sub_diag. reflexivity. }
  split.
  { rewrite lookup_app_l by (rewrite length_insert; lia).
    now apply list_lookup_insert_eq. }
  do 6 (split; [reflexivity|]). split; [|reflexivity].
  intros i x Hne Hi. pose proof (lookup_lt_Some _ _ _ Hi).
  rewrite lookup_app_l by (rewrite length_insert; lia).
  now rewrite list_lookup_insert_ne by done.
Qed.

(** ** [RandomPlayer] *)

(** X3: the random player answers [None] exactly when its side has no legal
    move on the board, and otherwise a legal move of its side; it never
    raises, and it changes neither the board nor anything else but the
    state of the random generator. *)
Theorem RandomPlayer_get_move_spec (self : RandomPlayer) board st b :
  boards st !! board = Some b ->
  exists r st',
    RandomPlayer_get_move self board st = (Ok r, st') /\
    nodes st' = nodes st /\ boards st' = boards st /\
    move_log st' = move_log st /\
    (r = None <-> get_legal_actions b (random_color self) = []) /\
    (forall a, r = Some a -> a ∈ get_legal_actions b (random_color self)).
Proof.
  intros Hb. unfold RandomPlayer_get_move, RandomPlayer_random_choice, bind.
  rewrite (board_get_legal_actions_ok _ _ _ _ Hb).
  destruct (decide (length (get_legal_actions b (random_color self)) = 0))
    as [Hz|Hz].
  - apply length_zero_iff_nil in Hz. exists None, st.
    repeat split; auto; congruence.
  - assert (Hne : get_legal_actions b (random_color self) <> []).
    { intros E. now rewrite E in Hz. }
    destruct (random_choice_ok _ st Hne) as (a & Ha & Hr).
    exists (Some a). eexists. split; [rewrite Hr; reflexivity|].
    cbn. repeat split; auto; congruence.
Qed.

(** ** [game_over] and the rollout on a finished position *)

(** X4: when neither side has a legal move on the node's board,
    [game_over] stops the rollout at once: [stimulate] applies no move and
    takes no random draw, the only change of the state is the copy of the
    board it made, and the reward is the one of the winner of the node's
    own position. *)
Theorem stimulate_finished_position self n st nd b0 :
  nodes st !! n = Some nd -> boards st !! now_board nd = Some b0 ->
  get_legal_actions b0 X = [] -> get_legal_actions b0 O = [] ->
  game_over self (now_board nd) st = (Ok true, st) /\
  stimulate self n st =
    (Ok (rollout_reward self (get_winner b0)),
     {| nodes := nodes st; boards := boards st ++ [b0]; rng := rng st;
        move_log := move_log st |}).
Proof.
  intros Hn Hb HX HO. split.
  { rewrite (game_over_ok self _ _ _ Hb). now rewrite HX, HO. }
  unfold stimulate.
  rewrite (bind_ok _ _ _ _ _ (get_node_ok _ _ _ Hn)).
  rewrite (bind_ok _ _ _ _ _ (deepcopy_ok _ _ _ Hb)).
  set (st1 := {| nodes := nodes st; boards := boards st ++ [b0];
                 rng := rng st; move_log := move_log st |}).
  assert (Hcopy : boards st1 !! length (boards st) = Some b0).
  { cbn. now rewrite list_lookup_middle. }
  assert (Hloop : stimulate_loop self (now_board nd) (length (boards st))
                    (color nd) 50 st1 = (Ok (color nd), st1)).
  { cbn [stimulate_loop].
    rewrite (bind_ok _ _ _ _ _ (game_over_ok self _ _ _ Hcopy)).
    now rewrite HX, HO. }
  rewrite (bind_ok _ _ _ _ _ Hloop).
  unfold board_get_winner.
  rewrite (bind_ok _ _ _ _ _
             (bind_ok _ _ _ _ _ (read_board_ok _ _ _ Hcopy))).
  reflexivity.
Qed.

(** ** Reading operations *)

(** X5: scoring and selecting write nothing: [get_ucb], [full_expanded],
    [select] and the final choice of [uct] leave the nodes, the boards, the
    random generator and the log as they were, whether they return or
    raise; so a second call of [get_ucb] or of [select] right after the
    first gives the same answer. *)
Theorem selection_reads_only self n (C : float) st :
  (get_ucb n C st).2 = st /\
  (full_expanded n st).2 = st /\
  (select self n st).2 = st /\
  (uct_decide self n st).2 = st /\
  bind (get_ucb n C) (fun _ => get_ucb n C) st
  = match get_ucb n C st with
    | (Ok u, _) => (Ok u, st)
    | (Raise e, _) => (Raise e, st)
    end /\
  bind (select self n) (fun _ => select self n) st
  = match select self n st with
    | (Ok k, _) => (Ok k, st)
    | (Raise e, _) => (Raise e, st)
    end.
Proof.
  pose proof (read_only_get_ucb n C st) as H1.
  pose proof (read_only_full_expanded n st) as H2.
  pose proof (read_only_select self n st) as H3.
  pose proof (read_only_uct_decide self n st) as H4.
  do 4 (split; [assumption|]). split.
  - unfold bind. destruct (get_ucb n C st) as [[u|e] st1] eqn:E;
      cbn in H1; subst st1; [|reflexivity]. now rewrite E.
  - unfold bind. destruct (select self n st) as [[k|e] st1] eqn:E;
      cbn in H3; subst st1; [|reflexivity]. now rewrite E.
Qed.

(** ** Too few iterations *)

(** One iteration on a root that was never visited: the root itself is
    simulated from and gets its first visit, and no child is created. *)
Lemma uct_iteration_fresh self root st rd b :
  nodes st !! root = Some rd -> children rd = [] -> parent rd = None ->
  visits rd = 0 -> boards st !! now_board rd = Some b ->
  exists rw br st',
    uct_iteration self root st = (Ok tt, st') /\
    nodes st' = <[root := bump self rw rd]> (nodes st) /\
    boards st' = boards st ++ [br].
Proof.
  intros Hn Hc Hp Hv Hb. unfold uct_iteration.
  rewrite (bind_ok _ _ _ _ _ (select_childless self _ _ _ Hn Hc)).
  rewrite (bind_ok _ _ _ _ _ (extend_unvisited self _ _ _ Hn Hv)).
  destruct (stimulate_run self root st rd b Hn Hb)
    as (br & lg & st1 & Hs & H1 & H2 & _).
  rewrite (bind_ok _ _ _ _ _ Hs).
  assert (Hn1 : nodes st1 !! root = Some rd) by now rewrite H1.
  destruct (reward_converts (ai_color self) br) as [rf Hrf].
  rewrite (bind_ok _ _ _ _ _ (backup_root self root _ rf st1 rd Hn1 Hp Hrf)).
  exists rf, br. eexists. split; [reflexivity|]. cbn. now rewrite H1.
Qed.

(** X6: the root is expanded in the second iteration at the earliest: a
    search of fewer than two iterations leaves the root without children,
    and [get_move] then fails on [max_node.action] whatever the position,
    also when the engine's side has legal moves. *)
Theorem get_move_too_few_iterations self l st b :
  max_times self <= 1 -> boards st !! l = Some b ->
  exists st' rd,
    get_move self l st = (Raise AttributeError, st') /\
    nodes st' !! length (nodes st) = Some rd /\
    children rd = [] /\ visits rd = max_times self.
Proof.
  intros Ht Hb. unfold get_move.
  rewrite (bind_ok _ _ _ _ _ (deepcopy_ok _ _ _ Hb)).
  unfold bind at 1. unfold new_node at 1. unfold set_nodes.
  cbn beta iota delta [nodes boards rng move_log].
  set (rd := {| visits := 0; reward := float_zero;
                now_board := length (boards st);
                children := []; parent := None; action := None;
                color := ai_color self |}).
  set (st0 := {| nodes := nodes st ++ [rd]; boards := boards st ++ [b];
                 rng := rng st; move_log := move_log st |}).
  assert (Hrd : nodes st0 !! length (nodes st) = Some rd).
  { cbn. now rewrite list_lookup_middle. }
  assert (Hrb : boards st0 !! now_board rd = Some b).
  { cbn. now rewrite list_lookup_middle. }
  assert (Hdec : forall st1 rd1,
            nodes st1 !! length (nodes st) = Some rd1 -> children rd1 = [] ->
            uct_decide self (length (nodes st)) st1
            = (Raise AttributeError, st1)).
  { intros st1 rd1 H1 Hc1. unfold uct_decide.
    rewrite (bind_ok _ _ _ _ _ (get_node_ok _ _ _ H1)). now rewrite Hc1. }
  unfold uct. destruct (max_times self) as [|[|t]]; [| |lia].
  - assert (Hloop : uct_loop self 0 (length (nodes st)) st0 = (Ok tt, st0))
      by reflexivity.
    rewrite (bind_ok _ _ _ _ _ Hloop).
    rewrite (Hdec st0 rd Hrd eq_refl). now exists st0, rd.
  - destruct (uct_iteration_fresh self (length (nodes st)) st0 rd b
                Hrd eq_refl eq_refl eq_refl Hrb)
      as (rw & br & st1 & Hit & H1 & H2).
    assert (Hloop : uct_loop self 1 (length (nodes st)) st0 = (Ok tt, st1)).
    { cbn [uct_loop]. now rewrite (bind_ok _ _ _ _ _ Hit). }
    rewrite (bind_ok _ _ _ _ _ Hloop).
    assert (Hrd1 : nodes st1 !! length (nodes st) = Some (bump self rw rd)).
    { rewrite H1. apply list_lookup_insert_eq.
      now apply lookup_lt_Some in Hrd. }
    rewrite (Hdec st1 (bump self rw rd) Hrd1 eq_refl).
    now exists st1, (bump self rw rd).
Qed.

(** ** Properties kept by every operation *)

Lemma keeps_bind {A B} (G : @State Board Action -> Prop)
    (m : @M Board Action A) (k : A -> @M Board Action B) :
  keeps G m -> (forall a, keeps G (k a)) -> keeps G (bind m k).
Proof.
  intros Hm Hk st HG. unfold bind. specialize (Hm st HG).
  destruct (m st) as [[a|e] st1]; cbn in Hm; [now apply Hk|exact Hm].
Qed.

Lemma keeps_read_only {A} (G : @State Board Action -> Prop)
    (m : @M Board Action A) :
  read_only m -> keeps G m.
Proof. intros H st HG. now rewrite H. Qed.

(** The rest of a computation may rely on what is known of the value it
    receives. *)
Lemma keeps_bind_value {A B} (G : @State Board Action -> Prop)
    (Q : A -> Prop) (m : @M Board Action A) (k : A -> @M Board Action B) :
  keeps G m -> (forall st a st', m st = (Ok a, st') -> Q a) ->
  (forall a, Q a -> keeps G (k a)) -> keeps G (bind m k).
Proof.
  intros Hm HQ Hk st HG. unfold bind. specialize (Hm st HG).
  destruct (m st) as [[a|e] st1] eqn:E; cbn in Hm; [|exact Hm].
  apply (Hk a); [now apply (HQ st a st1)|exact Hm].
Qed.

(** The arena after an expansion of [n], address by address. *)
Lemma expanded_lookup_old (nds : list (@Node Action)) n nd cs c1 lb
    (acts : list Action) i x0 :
  nds !! n = Some nd -> nds !! i = Some x0 ->
  (<[n := with_children nd cs]> nds
   ++ imap (fun j a => child_node n c1 (lb + j) a) acts) !! i
  = Some (if decide (i = n) then with_children x0 cs else x0).
Proof.
  intros Hn Hi. pose proof (lookup_lt_Some _ _ _ Hi).
  rewrite lookup_app_l by (rewrite length_insert; lia).
  destruct (decide (i = n)) as [->|Hne].
  - rewrite list_lookup_insert_eq by done. congruence.
  - now rewrite list_lookup_insert_ne by done.
Qed.

Lemma expanded_lookup_inv (nds : list (@Node Action)) n nd cs c1 lb
    (acts : list Action) i x :
  nds !! n = Some nd ->
  (<[n := with_children nd cs]> nds
   ++ imap (fun j a => child_node n c1 (lb + j) a) acts) !! i = Some x ->
  (exists x0, nds !! i = Some x0 /\
              x = (if decide (i = n) then with_children x0 cs else x0)) \/
  (exists j a, i = length nds + j /\ acts !! j = Some a /\
               x = child_node n c1 (lb + j) a).
Proof.
  intros Hn Hi. destruct (decide (i < length nds)) as [Hl|Hl].
  - left. destruct (lookup_lt_is_Some_2 nds i Hl) as [x0 Hx0].
    exists x0. split; [done|].
    rewrite (expanded_lookup_old nds n nd cs c1 lb acts i x0 Hn Hx0) in Hi.
    congruence.
  - right. rewrite lookup_app_r in Hi by (rewrite length_insert; lia).
    rewrite length_insert in Hi.
    apply list_lookup_imap_Some in Hi as (a & Ha & ->).
    exists (i - length nds), a. split; [lia|]. split; [done|reflexivity].
Qed.

(** ** Nodes only grow *)

Lemma grows_refl st : grows st st.
Proof.
  split; [exists []; now rewrite app_nil_r|]. intros n nd Hn. exists nd.
  split; [done|]. split; [exists []; now rewrite app_nil_r|]. auto.
Qed.

Lemma grows_trans st1 st2 st3 : grows st1 st2 -> grows st2 st3 -> grows st1 st3.
Proof.
  intros [[e1 H1] N1] [[e2 H2] N2]. split.
  - exists (e1 ++ e2). rewrite H2, H1. now rewrite app_assoc.
  - intros n nd Hn.
    destruct (N1 n nd Hn) as (nd1 & Hn1 & [m1 Hc1] & Hp1 & Hco1 & Hb1 & Ha1 & Hv1).
    destruct (N2 n nd1 Hn1)
      as (nd2 & Hn2 & [m2 Hc2] & Hp2 & Hco2 & Hb2 & Ha2 & Hv2).
    exists nd2. split; [done|]. split.
    { exists (m1 ++ m2). rewrite Hc2, Hc1. now rewrite app_assoc. }
    repeat split; try congruence. lia.
Qed.

Lemma grows_bind {A B} (m : @M Board Action A) (k : A -> @M Board Action B) :
  (forall st, grows st (m st).2) -> (forall a st, grows st (k a st).2) ->
  forall st, grows st (bind m k st).2.
Proof.
  intros Hm Hk st. unfold bind. specialize (Hm st).
  destruct (m st) as [[a|e] st1]; cbn in Hm; [|exact Hm].
  eapply grows_trans; [exact Hm|apply Hk].
Qed.

Lemma grows_extend self n st : grows st (extend self n st).2.
Proof.
  destruct (extend_cases self n st)
    as [->|(nd & b & Hn & Hb & Hv & H1 & H2)]; [apply grows_refl|].
  split; [rewrite H2; eauto|]. intros i x Hi. rewrite H1.
  rewrite (expanded_lookup_old _ _ _ _ _ _ _ _ _ Hn Hi).
  eexists. split; [reflexivity|].
  destruct (decide (i = n)) as [->|Hne].
  - assert (x = nd) by congruence. subst x. cbn.
    split; [eauto|]. auto.
  - split; [exists []; now rewrite app_nil_r|]. auto.
Qed.

Lemma grows_stimulate self n st : grows st (stimulate self n st).2.
Proof.
  destruct (stimulate_cases self n st) as [H1 H2].
  split; [exact H2|]. intros i x Hi. rewrite H1. exists x.
  split; [done|]. split; [exists []; now rewrite app_nil_r|]. auto.
Qed.

Lemma grows_backup self n rw st : grows st (backup self n rw st).2.
Proof.
  unfold backup.
  destruct (backup_fuel_ind_nodes (Board := Board) self rw
              (fun nds => forall i x, nodes st !! i = Some x ->
                 exists x', nds !! i = Some x' /\
                   children x' = children x /\ parent x' = parent x /\
                   color x' = color x /\ now_board x' = now_board x /\
                   action x' = action x /\ visits x <= visits x'))
    with (f := length (nodes st)) (node := Some n) (st := st) as [H1 H2].
  - intros nds j y y' HP Hj (Tv & Tb & Tc & Tp & Ta & Tcol) i x Hi.
    destruct (HP i x Hi) as (x' & Hx' & Hc & Hp & Hco & Hb & Ha & Hv).
    pose proof (lookup_lt_Some _ _ _ Hj).
    destruct (decide (i = j)) as [->|Hne].
    + rewrite list_lookup_insert_eq by done. eexists. split; [done|].
      assert (y = x') by congruence. subst y.
      repeat split; try congruence. lia.
    + rewrite list_lookup_insert_ne by done. exists x'. auto 10.
  - intros i x Hi. exists x. auto 10.
  - split; [exists []; rewrite H2; now rewrite app_nil_r|].
    intros i x Hi. destruct (H1 i x Hi) as (x' & Hx' & Hc & Hrest).
    exists x'. split; [done|]. split; [|exact Hrest].
    exists []. now rewrite app_nil_r.
Qed.

Lemma grows_uct_iteration self root st :
  grows st (uct_iteration self root st).2.
Proof.
  revert st. unfold uct_iteration. apply grows_bind.
  { intros st. rewrite read_only_select. apply grows_refl. }
  intros [sel|] st; [|apply grows_refl].
  revert st. apply grows_bind; [apply grows_extend|]. intros leaf.
  apply grows_bind; [apply grows_stimulate|]. intros rw.
  apply grows_bind; [apply grows_backup|]. intros _ st. apply grows_refl.
Qed.

Lemma grows_uct_loop self root k : forall st,
  grows st (uct_loop self k root st).2.
Proof.
  induction k as [|k IH]; cbn [uct_loop]; [intros st; apply grows_refl|].
  apply grows_bind; [apply grows_uct_iteration|]. now intros _.
Qed.

(** ** The invariant of a search *)

Lemma tree_rest_bump base root st n nd nd' :
  tree_rest base root st -> nodes st !! n = Some nd -> touched nd nd' ->
  tree_rest base root
    {| nodes := <[n := nd']> (nodes st); boards := boards st;
       rng := rng st; move_log := move_log st |}.
Proof.
  intros (Hso & Hba & Hun & Hcl & Hsd & Hsr) Hn
         (Tv & Tb & Tc & Tp & Ta & Tcol).
  pose proof (lookup_lt_Some _ _ _ Hn) as Hlt.
  assert (Hinv : forall i x, <[n := nd']> (nodes st) !! i = Some x ->
            exists x0, nodes st !! i = Some x0 /\
              children x = children x0 /\ parent x = parent x0 /\
              color x = color x0 /\ now_board x = now_board x0 /\
              action x = action x0 /\ (visits x = 0 -> visits x0 = 0)).
  { intros i x Hi. destruct (decide (i = n)) as [->|Hne].
    - rewrite list_lookup_insert_eq in Hi by done. injection Hi as <-.
      exists nd. repeat split; auto. lia.
    - rewrite list_lookup_insert_ne in Hi by done. exists x. auto 10. }
  split; [|split; [|split; [|split; [|split]]]]; cbn [nodes boards].
  - intros i x Hi. destruct (Hinv i x Hi) as (x0 & Hx0 & _ & _ & _ & Hb & _).
    rewrite Hb. now apply (Hso i x0).
  - intros i x Hi. destruct (Hinv i x Hi) as (x0 & Hx0 & _ & _ & _ & Hb & _).
    rewrite Hb. now apply (Hba i x0).
  - intros i x Hi Hz.
    destruct (Hinv i x Hi) as (x0 & Hx0 & Hc & _ & _ & _ & _ & Hv).
    rewrite Hc. apply (Hun i x0 Hx0). now apply Hv.
  - intros i x k kd Hi Hk Hkd.
    destruct (Hinv i x Hi) as (x0 & Hx0 & Hc & _ & Hco & Hb & _).
    destruct (Hinv k kd Hkd) as (kd0 & Hkd0 & _ & _ & _ & _ & Ha & _).
    rewrite Hc in Hk. destruct (Hcl i x0 k kd0 Hx0 Hk Hkd0)
      as (b & a & Hbb & Haa & Hin).
    exists b, a. rewrite Hb, Ha, Hco. auto.
  - intros i j x y Hi Hj Hxy.
    destruct (Hinv i x Hi) as (x0 & Hx0 & _ & _ & _ & Hb & _).
    destruct (Hinv j y Hj) as (y0 & Hy0 & _ & _ & _ & Hb' & _).
    apply (Hsd i j x0 y0 Hx0 Hy0). congruence.
  - intros i x Hi Hp.
    destruct (Hinv i x Hi) as (x0 & Hx0 & _ & Hp0 & _).
    apply (Hsr i x0 Hx0). congruence.
Qed.

Lemma tree_rest_backup self n rw base root st :
  tree_rest base root st -> tree_rest base root (backup self n rw st).2.
Proof.
  intros Ht. unfold backup.
  destruct (backup_fuel_ind_nodes (Board := Board) self rw
              (fun nds => tree_rest base root
                 {| nodes := nds; boards := boards st; rng := rng st;
                    move_log := move_log st |}))
    with (f := length (nodes st)) (node := Some n) (st := st) as [H1 H2].
  - intros nds j y y' HP Hj Hy.
    apply (tree_rest_bump base root _ j y y' HP Hj Hy).
  - now destruct st.
  - destruct H1 as (Hso & Hba & Hun & Hcl & Hsd & Hsr).
    unfold tree_rest, snapshots_ok, children_legal in *.
    cbn [nodes boards] in *. rewrite H2. auto 10.
Qed.

Lemma tree_rest_stimulate self n base root st :
  tree_rest base root st -> tree_rest base root (stimulate self n st).2.
Proof.
  intros (Hso & Hba & Hun & Hcl & Hsd & Hsr).
  destruct (stimulate_cases self n st) as [H1 [ext H2]].
  unfold tree_rest, snapshots_ok, children_legal. rewrite H1, H2.
  split; [|split; [|split; [|split; [|split]]]]; auto.
  - intros i x Hi. rewrite length_app. pose proof (Hso i x Hi). lia.
  - intros i x k kd Hi Hk Hkd.
    destruct (Hcl i x k kd Hi Hk Hkd) as (b & a & Hb & Ha & Hin).
    exists b, a. split; [|auto].
    rewrite lookup_app_l; [done|]. now apply (Hso i x).
Qed.

Lemma tree_ok_extend self n base root st :
  tree_ok base root st -> tree_ok base root (extend self n st).2.
Proof.
  intros [Hwf (Hso & Hba & Hun & Hcl & Hsd & Hsr)].
  destruct (extend_cases self n st)
    as [->|(nd & b & Hn & Hb & Hv & H1 & H2)]; [done|].
  set (acts := get_legal_actions b (color nd)) in *.
  set (cs := children nd ++ seq (length (nodes st)) (length acts)) in *.
  split; [rewrite H1; now apply well_formed_extend|].
  pose proof (lookup_lt_Some _ _ _ Hn) as Hlt.
  pose proof (lookup_lt_Some _ _ _ Hb) as Hltb.
  destruct Hwf as (Hpb & Hco & Hvo).
  assert (Hinv := fun i x =>
    expanded_lookup_inv (nodes st) n nd cs (flip_color (color nd))
      (length (boards st)) acts i x Hn).
  assert (Hlen : length (boards (extend self n st).2)
                 = length (boards st) + length acts).
  { rewrite H2, length_app, length_map. reflexivity. }
  unfold tree_rest, snapshots_ok, children_legal. rewrite H1.
  split; [|split; [|split; [|split; [|split]]]].
  - intros i x Hi. rewrite Hlen.
    destruct (Hinv i x Hi) as [(x0 & Hx0 & ->)|(j & a & -> & Ha & ->)].
    + pose proof (Hso i x0 Hx0). destruct (decide (i = n)); cbn; lia.
    + apply lookup_lt_Some in Ha. cbn. lia.
  - intros i x Hi.
    destruct (Hinv i x Hi) as [(x0 & Hx0 & ->)|(j & a & -> & Ha & ->)].
    + pose proof (Hba i x0 Hx0). destruct (decide (i = n)); cbn; lia.
    + pose proof (Hba n nd Hn). cbn. lia.
  - intros i x Hi Hz.
    destruct (Hinv i x Hi) as [(x0 & Hx0 & ->)|(j & a & -> & Ha & ->)];
      [|reflexivity].
    destruct (decide (i = n)) as [->|Hne]; [|now apply (Hun i x0)].
    assert (x0 = nd) by congruence. subst x0. cbn in Hz. done.
  - intros i x k kd Hi Hk Hkd.
    destruct (Hinv i x Hi) as [(x0 & Hx0 & ->)|(j & a & -> & Ha & ->)];
      [|now apply elem_of_nil in Hk].
    assert (Hold : k ∈ children x0 ->
              exists b' a, boards st !! now_board x0 = Some b' /\
                           action kd = Some a /\
                           a ∈ get_legal_actions b' (color x0)).
    { intros Hk0. destruct (Hco i x0 k Hx0 Hk0) as (_ & kd0 & Hkd0 & _).
      destruct (Hinv k kd Hkd) as [(kd1 & Hkd1 & ->)|(j & a & -> & _)].
      - assert (kd1 = kd0) by congruence. subst kd1.
        destruct (Hcl i x0 k kd0 Hx0 Hk0 Hkd0) as (b' & a & Hb' & Ha & Hin).
        exists b', a. split; [done|]. split; [|done].
        now destruct (decide (k = n)).
      - apply lookup_lt_Some in Hkd0. lia. }
    assert (Hfin : (exists b' a, boards st !! now_board x0 = Some b' /\
                      action kd = Some a /\
                      a ∈ get_legal_actions b' (color x0)) ->
              exists b' a,
                boards (extend self n st).2
                  !! now_board (if decide (i = n) then with_children x0 cs
                                else x0) = Some b' /\
                action kd = Some a /\
                a ∈ get_legal_actions b'
                      (color (if decide (i = n) then with_children x0 cs
                              else x0))).
    { intros (b' & a & Hb' & Ha & Hin). exists b', a. rewrite H2.
      pose proof (lookup_lt_Some _ _ _ Hb').
      destruct (decide (i = n)); cbn;
        (split; [now rewrite lookup_app_l by lia|auto]). }
    apply Hfin. destruct (decide (i = n)) as [->|Hne]; [|now apply Hold].
    assert (x0 = nd) by congruence. subst x0. cbn in Hk. unfold cs in Hk.
    apply elem_of_app in Hk as [Hk|Hk]; [now apply Hold|].
    apply elem_of_seq in Hk.
    destruct (Hinv k kd Hkd) as [(kd1 & Hkd1 & _)|(j & a & -> & Ha & ->)].
    { apply lookup_lt_Some in Hkd1. lia. }
    exists b, a. split; [done|]. split; [reflexivity|].
    eapply list_elem_of_lookup_2. exact Ha.
  - intros i j x y Hi Hj Hxy.
    destruct (Hinv i x Hi) as [(x0 & Hx0 & ->)|(i' & a & -> & Ha & ->)];
      destruct (Hinv j y Hj) as [(y0 & Hy0 & ->)|(j' & a' & -> & Ha' & ->)].
    + apply (Hsd i j x0 y0 Hx0 Hy0).
      now destruct (decide (i = n)), (decide (j = n)).
    + pose proof (Hso i x0 Hx0).
      destruct (decide (i = n)); cbn in Hxy; lia.
    + pose proof (Hso j y0 Hy0).
      destruct (decide (j = n)); cbn in Hxy; lia.
    + cbn in Hxy. lia.
  - intros i x Hi Hp.
    destruct (Hinv i x Hi) as [(x0 & Hx0 & ->)|(j & a & -> & Ha & ->)];
      [|discriminate].
    apply (Hsr i x0 Hx0). now destruct (decide (i = n)).
Qed.

Lemma tree_ok_stimulate self n base root st :
  tree_ok base root st -> tree_ok base root (stimulate self n st).2.
Proof.
  intros [Hwf Ht]. split; [|now apply tree_rest_stimulate].
  now rewrite (proj1 (stimulate_cases self n st)).
Qed.

Lemma tree_ok_backup self n rw rf base root st :
  py_float rw = Ok rf ->
  tree_ok base root st -> tree_ok base root (backup self n rw st).2.
Proof.
  intros Hrw [Hwf Ht]. split; [now apply well_formed_backup with rf|].
  now apply tree_rest_backup.
Qed.

Lemma tree_ok_uct_iteration self root0 base root :
  keeps (tree_ok base root) (uct_iteration self root0).
Proof.
  unfold uct_iteration. apply keeps_bind.
  { apply keeps_read_only, read_only_select. }
  intros [sel|]; [|apply keeps_read_only, read_only_raise].
  apply keeps_bind; [intros st; apply tree_ok_extend|]. intros leaf.
  apply (keeps_bind_value _ (fun rw => exists rf, py_float rw = Ok rf));
    [intros st; apply tree_ok_stimulate|apply stimulate_converts|].
  intros rw [rf Hrf].
  apply keeps_bind; [intros st; now apply tree_ok_backup with rf|]. intros _.
  apply keeps_read_only, read_only_ret.
Qed.

Lemma tree_ok_uct_loop self root0 base root k :
  keeps (tree_ok base root) (uct_loop self k root0).
Proof.
  induction k as [|k IH]; cbn [uct_loop].
  - apply keeps_read_only, read_only_ret.
  - apply keeps_bind; [apply tree_ok_uct_iteration|]. now intros _.
Qed.

(** ** The outcome of every step of a search *)

Lemma nonempty_elem {A} (l : list A) : l <> [] -> exists x, x ∈ l.
Proof. destruct l as [|x l]; [done|]. exists x. apply elem_of_cons. auto. Qed.

(** [select] on a well-formed tree returns a node of the arena, unless the
    comparison loop finds no child at some node on the way down. *)
Lemma select_fuel_outcome self st :
  well_formed (nodes st) ->
  (forall n nd, nodes st !! n = Some nd ->
                (Z.of_nat (visits nd) < 2 ^ 64)%Z) ->
  forall f n, n < length (nodes st) -> length (nodes st) - n <= f ->
    (exists k, select_fuel self f n st = (Ok (Some k), st) /\
               k < length (nodes st)) \/
    (select_fuel self f n st = (Raise AttributeError, st) /\
     stuck (ucb_param self) st).
Proof.
  intros (Hpb & Hok & Hvis) Hbound.
  induction f as [|f IH]; intros n Hn Hf; [lia|]. cbn [select_fuel].
  destruct (lookup_lt_is_Some_2 _ _ Hn) as [nd Hnd].
  rewrite (bind_ok _ _ _ _ _ (get_node_ok _ _ _ Hnd)).
  destruct (decide (length (children nd) = 0)) as [Hz|Hz];
    [left; now exists n|].
  assert (Hne : children nd <> []).
  { intros Hc. now rewrite Hc in Hz. }
  destruct (full_expanded_run n st nd Hok Hnd) as (fe & Hfe & Hiff).
  rewrite (bind_ok _ _ _ _ _ Hfe). destruct fe.
  - destruct (proj1 Hiff eq_refl) as [_ Hall].
    destruct (nonempty_elem _ Hne) as [k0 Hk0].
    destruct (Hok n nd k0 Hnd Hk0) as (_ & kd0 & Hkd0 & Hp0).
    pose proof (Hall k0 kd0 Hk0 Hkd0) as Hv0.
    assert (Hv : visits nd <> 0).
    { pose proof (Hvis k0 kd0 n nd Hkd0 Hp0 Hnd). lia. }
    assert (Hscore : forall k, k ∈ children nd ->
              get_ucb k (ucb_param self) st
              = (Ok (child_score (ucb_param self) st nd k), st)).
    { intros k Hk. destruct (Hok n nd k Hnd Hk) as (_ & kd & Hkd & Hp).
      unfold child_score. rewrite Hkd.
      apply get_ucb_visited with n; eauto. }
    destruct (max_ucb_loop_run (ucb_param self) st
                (child_score (ucb_param self) st nd) (children nd) Hscore
                (PInt (- sys_maxsize)) None)
      as (r & Hr & [[-> Hle]|(i & w & -> & Hi & _)]);
      rewrite (bind_ok _ _ _ _ _ Hr).
    + right. split; [done|]. exists n, nd, k0, kd0. auto 10.
    + assert (Hin : w ∈ children nd) by (eapply list_elem_of_lookup_2; eauto).
      destruct (Hok n nd w Hnd Hin) as (Hnw & wd & Hwd & _).
      pose proof (lookup_lt_Some _ _ _ Hwd). apply IH; lia.
  - destruct (first_unvisited_run (children nd) st
                (children_valid _ n nd Hok Hnd)) as (r & Hr & Hspec).
    rewrite Hr. destruct r as [k|].
    + left. exists k. split; [done|].
      destruct Hspec as (i & kd & _ & Hkd & _).
      now apply lookup_lt_Some in Hkd.
    + discriminate (proj2 Hiff (conj Hne Hspec)).
Qed.

Lemma select_outcome self st n :
  well_formed (nodes st) ->
  (forall n nd, nodes st !! n = Some nd ->
                (Z.of_nat (visits nd) < 2 ^ 64)%Z) ->
  n < length (nodes st) ->
  (exists k, select self n st = (Ok (Some k), st) /\ k < length (nodes st)) \/
  (select self n st = (Raise AttributeError, st) /\
   stuck (ucb_param self) st).
Proof.
  intros Hwf Hbound Hn. unfold select.
  apply select_fuel_outcome; [done|done|lia..].
Qed.

(** No node has more visits than the root. *)
Lemma visits_le_root base root st rd :
  tree_ok base root st -> nodes st !! root = Some rd ->
  forall n nd, nodes st !! n = Some nd -> visits nd <= visits rd.
Proof.
  intros [(Hpb & Hok & Hvis) (_ & _ & _ & _ & _ & Hsr)] Hrd n.
  induction n as [n IH] using lt_wf_ind. intros nd Hnd.
  destruct (parent nd) as [p|] eqn:Hp.
  - pose proof (Hpb n nd p Hnd Hp) as Hlt.
    destruct (lookup_lt_is_Some_2 (nodes st) p) as [pd Hpd].
    { apply lookup_lt_Some in Hnd. lia. }
    pose proof (Hvis n nd p pd Hnd Hp Hpd). pose proof (IH p Hlt pd Hpd). lia.
  - rewrite (Hsr n nd Hnd Hp) in Hnd. assert (nd = rd) by congruence.
    subst. lia.
Qed.

(** [extend] on a node with a board returns a node of the arena. *)
Lemma extend_returns self n st nd :
  children_ok (nodes st) -> nodes st !! n = Some nd ->
  now_board nd < length (boards st) ->
  exists leaf st', extend self n st = (Ok leaf, st') /\
                   leaf < length (nodes st').
Proof.
  intros Hok Hn Hb. pose proof (lookup_lt_Some _ _ _ Hn) as Hlt.
  destruct (decide (visits nd = 0)) as [Hv|Hv].
  { exists n, st. split; [now apply extend_unvisited with nd|done]. }
  destruct (lookup_lt_is_Some_2 _ _ Hb) as [b Hbb].
  unfold extend.
  rewrite (bind_ok _ _ _ _ _ (get_node_ok _ _ _ Hn)).
  destruct (decide (visits nd = 0)); [done|].
  rewrite (bind_ok _ _ _ _ _ (board_get_legal_actions_ok _ _ _ _ Hbb)).
  rewrite (bind_ok _ _ _ _ _
             (extend_loop_run n (now_board nd) (color nd)
                (flip_color (color nd)) _ st nd b Hn Hbb)).
  erewrite bind_ok; cycle 1.
  { apply get_node_ok. cbn [nodes].
    rewrite lookup_app_l by (rewrite length_insert; lia).
    apply list_lookup_insert_eq. lia. }
  cbn [children with_children].
  destruct (children nd ++ seq (length (nodes st))
              (length (get_legal_actions b (color nd))))
    as [|first rest] eqn:Hc.
  - eexists _, _. split; [reflexivity|]. cbn [nodes].
    rewrite length_app, length_insert. lia.
  - eexists _, _. split; [reflexivity|]. cbn [nodes].
    rewrite length_app, length_insert, length_imap.
    assert (Hin : first ∈ children nd ++ seq (length (nodes st))
                    (length (get_legal_actions b (color nd)))).
    { rewrite Hc. apply elem_of_cons. auto. }
    apply elem_of_app in Hin as [Hin|Hin].
    + destruct (Hok n nd first Hn Hin) as (_ & kd & Hkd & _).
      apply lookup_lt_Some in Hkd. lia.
    + apply elem_of_seq in Hin. lia.
Qed.

(** [extend] leaves the visits and the reward of every node as they are. *)
Lemma extend_keeps_visits self n st i x :
  nodes st !! i = Some x ->
  exists x', nodes (extend self n st).2 !! i = Some x' /\
             visits x' = visits x /\ reward x' = reward x.
Proof.
  intros Hi.
  destruct (extend_cases self n st)
    as [->|(nd & b & Hn & Hb & Hv & H1 & H2)]; [now exists x|].
  rewrite H1. rewrite (expanded_lookup_old _ _ _ _ _ _ _ _ _ Hn Hi).
  eexists. split; [reflexivity|]. now destruct (decide (i = n)).
Qed.

(** What a later state keeps of a node and of its board. *)
Lemma grows_node st st' n nd nd' b :
  grows st st' -> nodes st !! n = Some nd -> nodes st' !! n = Some nd' ->
  boards st !! now_board nd = Some b ->
  (children nd <> [] -> children nd' <> []) /\
  color nd' = color nd /\ now_board nd' = now_board nd /\
  boards st' !! now_board nd' = Some b /\ visits nd <= visits nd'.
Proof.
  intros [[ext He] Hg] Hn Hn' Hb.
  destruct (Hg n nd Hn) as (x & Hx & [more Hc] & _ & Hco & Hnb & _ & Hv).
  assert (x = nd') by congruence. subst x.
  split; [|split; [done|split; [done|split; [|done]]]].
  - intros Hne Hc'. rewrite Hc in Hc'. apply app_eq_nil in Hc' as [? _]. done.
  - rewrite Hnb, He. rewrite lookup_app_l; [done|].
    now apply lookup_lt_Some in Hb.
Qed.

(** One pass of the loop of [uct] on a tree that satisfies the invariant:
    it returns and the root has one visit more, and a childless root that
    was visited and has a legal move has children afterwards; or [select]
    found no child to descend to. *)
Lemma uct_iteration_outcome self base root st rd :
  tree_ok base root st -> nodes st !! root = Some rd ->
  (Z.of_nat (visits rd) < 2 ^ 64)%Z ->
  (exists st' rd',
     uct_iteration self root st = (Ok tt, st') /\
     nodes st' !! root = Some rd' /\ visits rd' = visits rd + 1 /\
     (children rd = [] -> visits rd <> 0 ->
      forall b0, boards st !! now_board rd = Some b0 ->
        get_legal_actions b0 (color rd) <> [] -> children rd' <> [])) \/
  (uct_iteration self root st = (Raise AttributeError, st) /\
   stuck (ucb_param self) st).
Proof.
  intros Htree Hrd Hbound. pose proof Htree as [Hwf Hrest].
  pose proof (lookup_lt_Some _ _ _ Hrd) as Hroot.
  assert (Hall : forall n nd, nodes st !! n = Some nd ->
                   (Z.of_nat (visits nd) < 2 ^ 64)%Z).
  { intros n nd Hnd.
    pose proof (visits_le_root base root st rd Htree Hrd n nd Hnd). lia. }
  unfold uct_iteration.
  destruct (select_outcome self st root Hwf Hall Hroot)
    as [(sel & Hsel & Hlt)|[Hsel Hst]].
  2:{ right. now rewrite (bind_raise _ _ _ _ _ Hsel). }
  left. rewrite (bind_ok _ _ _ _ _ Hsel).
  destruct (lookup_lt_is_Some_2 _ _ Hlt) as [sd Hsd].
  destruct (extend_returns self sel st sd (proj1 (proj2 Hwf)) Hsd
              (proj1 Hrest _ _ Hsd)) as (leaf & st1 & E1 & Hleaf).
  rewrite (bind_ok _ _ _ _ _ E1).
  pose proof (tree_ok_extend self sel base root st Htree) as T1.
  destruct (extend_keeps_visits self sel st root rd Hrd)
    as (rd1 & Hrd1 & Hv1 & _).
  pose proof (extend_visited_state self sel st) as Hexp.
  rewrite E1 in T1, Hrd1, Hexp. cbn [snd] in T1, Hrd1, Hexp.
  destruct T1 as [Hwf1 Hrest1].
  destruct (lookup_lt_is_Some_2 _ _ Hleaf) as [ld Hld].
  destruct (lookup_lt_is_Some_2 _ _ (proj1 Hrest1 leaf ld Hld)) as [b1 Hb1].
  destruct (stimulate_run self leaf st1 ld b1 Hld Hb1)
    as (br & lg & st2 & Hs & Hn2 & Hb2 & _).
  rewrite (bind_ok _ _ _ _ _ Hs).
  destruct (reward_converts (ai_color self) br) as [rf Hrf]. revert Hrf.
  match goal with
  | |- context [backup self leaf ?e] => generalize e; intros rw Hrf
  end.
  assert (Hpb2 : parents_below (nodes st2)) by (rewrite Hn2; apply Hwf1).
  assert (Hleaf2 : leaf < length (nodes st2)) by now rewrite Hn2.
  destruct (backup_lookup self leaf rw rf st2 Hrf Hpb2 Hleaf2)
    as (st3 & Hbk & Hb3 & Hlen3 & Hlook).
  rewrite (bind_ok _ _ _ _ _ Hbk).
  assert (Hanc : root ∈ ancestors st2 leaf).
  { destruct (parent_chain_last (nodes st2) (length (nodes st2)) leaf
                Hpb2 Hleaf2 Hleaf2) as (r0 & r0d & Hlast & Hr0 & Hp0).
    rewrite Hn2 in Hr0.
    destruct Hrest1 as (_ & _ & _ & _ & _ & Hsr).
    rewrite (Hsr r0 r0d Hr0 Hp0) in Hlast.
    now apply last_Some_elem_of in Hlast. }
  assert (Hrd3 : nodes st3 !! root = Some (bump self rf rd1)).
  { rewrite (Hlook root rd1) by now rewrite Hn2.
    now rewrite bool_decide_eq_true_2. }
  exists st3, (bump self rf rd1). split; [reflexivity|]. split; [done|].
  split; [cbn; lia|].
  intros Hc Hv b0 Hb0 Hacts. cbn [children bump].
  assert (sel = root).
  { pose proof (select_childless self root st rd Hrd Hc). congruence. }
  subst sel. destruct (Hexp rd b0 Hrd Hb0 Hv) as [Hnodes _].
  rewrite Hnodes in Hrd1.
  rewrite (expanded_lookup_old _ _ _ _ _ _ _ _ _ Hrd Hrd) in Hrd1.
  rewrite decide_True in Hrd1 by done. injection Hrd1 as <-.
  cbn [children with_children]. rewrite Hc. cbn [app].
  destruct (get_legal_actions b0 (color rd)); [done|]. cbn. discriminate.
Qed.

(** The loop of [uct]: all [k] passes return and the root has [k] visits
    more, or one of them found no child to descend to. *)
Lemma uct_loop_outcome self base root k : forall st rd,
  tree_ok base root st -> nodes st !! root = Some rd ->
  (Z.of_nat (visits rd + k) < 2 ^ 64)%Z ->
  (exists st' rd',
     uct_loop self k root st = (Ok tt, st') /\
     nodes st' !! root = Some rd' /\ visits rd' = visits rd + k) \/
  (exists st',
     uct_loop self k root st = (Raise AttributeError, st') /\
     stuck (ucb_param self) st').
Proof.
  induction k as [|k IH]; intros st rd Ht Hrd Hbound; cbn [uct_loop].
  - left. exists st, rd. split; [done|]. split; [done|lia].
  - destruct (uct_iteration_outcome self base root st rd Ht Hrd)
      as [(st1 & rd1 & E & Hrd1 & Hv & _)|[E Hs]]; [lia|..].
    + rewrite (bind_ok _ _ _ _ _ E).
      pose proof (tree_ok_uct_iteration self root base root st Ht) as T1.
      rewrite E in T1.
      destruct (IH st1 rd1 T1 Hrd1)
        as [(st2 & rd2 & E2 & Hrd2 & Hv2)|(st2 & E2 & Hs2)]; [lia|..].
      * left. exists st2, rd2. split; [done|]. split; [done|lia].
      * right. eauto.
    + right. exists st. now rewrite (bind_raise _ _ _ _ _ E).
Qed.

(** The end of [uct]: the move of a child of the root, which is a legal
    move of the root's side on the root's board; or no child is found. *)
Lemma uct_decide_outcome self base root st rd :
  tree_ok base root st -> nodes st !! root = Some rd ->
  (Z.of_nat (visits rd) < 2 ^ 64)%Z ->
  (exists w wd a b0,
     uct_decide self root st = (Ok (Some a), st) /\
     w ∈ children rd /\ nodes st !! w = Some wd /\ action wd = Some a /\
     boards st !! now_board rd = Some b0 /\
     a ∈ get_legal_actions b0 (color rd)) \/
  (uct_decide self root st = (Raise AttributeError, st) /\
   (children rd = [] \/ stuck (ucb_param self) st)).
Proof.
  intros [(Hpb & Hok & Hvis) (Hso & Hba & Hun & Hcl & Hsd & Hsr)] Hrd Hbound.
  unfold uct_decide. rewrite (bind_ok _ _ _ _ _ (get_node_ok _ _ _ Hrd)).
  set (score := final_score (ucb_param self) st rd).
  assert (Hscore : forall k, k ∈ children rd ->
            get_ucb k (ucb_param self) st = (Ok (score k), st)).
  { intros k Hk. destruct (Hok root rd k Hrd Hk) as (_ & kd & Hkd & Hp).
    unfold score, final_score. rewrite Hkd.
    pose proof (Hvis k kd root rd Hkd Hp Hrd).
    destruct (decide (visits kd = 0)) as [Hz|Hz];
      [now apply get_ucb_unvisited with kd|].
    apply get_ucb_visited with root; auto; lia. }
  destruct (max_ucb_loop_run _ st score (children rd) Hscore
              (PInt (- sys_maxsize)) None)
    as (r & Hr & [[-> Hle]|(i & w & -> & Hi & _)]);
    rewrite (bind_ok _ _ _ _ _ Hr).
  - right. split; [done|].
    destruct (decide (children rd = [])) as [Hc|Hc]; [now left|right].
    destruct (nonempty_elem _ Hc) as [k0 Hk0].
    destruct (Hok root rd k0 Hrd Hk0) as (_ & kd & Hkd & Hp).
    pose proof (Hle k0 Hk0) as Hlow. unfold score, final_score in Hlow.
    rewrite Hkd in Hlow.
    destruct (decide (visits kd = 0)) as [Hz|Hz].
    { exfalso. vm_compute in Hlow. discriminate. }
    exists root, rd, k0, kd. split; [done|]. split; [done|].
    split; [done|]. split; [done|].
    split; [pose proof (Hvis k0 kd root rd Hkd Hp Hrd); lia|].
    unfold child_score. now rewrite Hkd.
  - left.
    assert (Hin : w ∈ children rd) by (eapply list_elem_of_lookup_2; eauto).
    destruct (Hok root rd w Hrd Hin) as (_ & wd & Hwd & _).
    rewrite (bind_ok _ _ _ _ _ (get_node_ok _ _ _ Hwd)).
    destruct (Hcl root rd w wd Hrd Hin Hwd) as (b0 & a & Hb0 & Ha & Hleg).
    exists w, wd, a, b0. rewrite Ha. auto 10.
Qed.

(** After two passes the root has children, if its side has a move. *)
Lemma uct_loop_root_children self base root st rd b0 t st3 rd3 :
  tree_ok base root st -> nodes st !! root = Some rd ->
  boards st !! now_board rd = Some b0 ->
  get_legal_actions b0 (color rd) <> [] ->
  (Z.of_nat (visits rd + S (S t)) < 2 ^ 64)%Z ->
  uct_loop self (S (S t)) root st = (Ok tt, st3) ->
  nodes st3 !! root = Some rd3 -> children rd3 <> [].
Proof.
  intros Ht Hrd Hb0 Hacts Hbound E Hrd3. cbn [uct_loop] in E.
  destruct (uct_iteration_outcome self base root st rd Ht Hrd)
    as [(st1 & rd1 & E1 & Hrd1 & Hv1 & Hch1)|[E1 _]]; [lia|..].
  2:{ now rewrite (bind_raise _ _ _ _ _ E1) in E. }
  rewrite (bind_ok _ _ _ _ _ E1) in E.
  pose proof (tree_ok_uct_iteration self root base root st Ht) as T1.
  pose proof (grows_uct_iteration self root st) as G1.
  rewrite E1 in T1, G1. cbn [snd] in T1, G1.
  destruct (grows_node st st1 root rd rd1 b0 G1 Hrd Hrd1 Hb0)
    as (Hk1 & Hco1 & Hnb1 & Hbb1 & _).
  destruct (uct_iteration_outcome self base root st1 rd1 T1 Hrd1)
    as [(st2 & rd2 & E2 & Hrd2 & Hv2 & Hch2)|[E2 _]]; [lia|..].
  2:{ now rewrite (bind_raise _ _ _ _ _ E2) in E. }
  rewrite (bind_ok _ _ _ _ _ E2) in E.
  pose proof (grows_uct_iteration self root st1) as G2.
  pose proof (grows_uct_loop self root t st2) as G3.
  rewrite E2 in G2. rewrite E in G3. cbn [snd] in G2, G3.
  destruct (grows_node st1 st2 root rd1 rd2 b0 G2 Hrd1 Hrd2 Hbb1)
    as (Hk2 & _ & _ & Hbb2 & _).
  destruct (grows_node st2 st3 root rd2 rd3 b0 G3 Hrd2 Hrd3 Hbb2)
    as (Hk3 & _).
  apply Hk3. destruct (decide (children rd1 = [])) as [Hc|Hc]; [|auto].
  apply (Hch2 Hc ltac:(lia) b0 Hbb1). now rewrite Hco1.
Qed.

(** [uct] from a root that satisfies the invariant. *)
Lemma uct_outcome self base root st rd b0 k :
  tree_ok base root st -> nodes st !! root = Some rd ->
  boards st !! now_board rd = Some b0 ->
  (Z.of_nat (visits rd + k) < 2 ^ 64)%Z ->
  (exists a st' rd',
     uct self k root st = (Ok (Some a), st') /\
     a ∈ get_legal_actions b0 (color rd) /\
     nodes st' !! root = Some rd' /\ visits rd' = visits rd + k) \/
  (exists st',
     uct self k root st = (Raise AttributeError, st') /\
     (k <= 1 \/ get_legal_actions b0 (color rd) = [] \/
      stuck (ucb_param self) st')).
Proof.
  intros Ht Hrd Hb0 Hbound. unfold uct.
  destruct (uct_loop_outcome self base root k st rd Ht Hrd Hbound)
    as [(st3 & rd3 & E & Hrd3 & Hv3)|(st3 & E & Hs)].
  2:{ right. exists st3. rewrite (bind_raise _ _ _ _ _ E). auto. }
  rewrite (bind_ok _ _ _ _ _ E).
  pose proof (tree_ok_uct_loop self root base root k st Ht) as T3.
  pose proof (grows_uct_loop self root k st) as G3.
  rewrite E in T3, G3. cbn [snd] in T3, G3.
  destruct (grows_node st st3 root rd rd3 b0 G3 Hrd Hrd3 Hb0)
    as (_ & Hco & _ & Hbb & _).
  destruct (uct_decide_outcome self base root st3 rd3 T3 Hrd3)
    as [(w & wd & a & b1 & Hd & _ & _ & _ & Hb1 & Hleg)|[Hd Hwhy]];
    [lia|..].
  - left. exists a, st3, rd3. split; [done|].
    assert (b1 = b0) by congruence. subst b1. rewrite <- Hco. auto.
  - right. exists st3. split; [done|].
    destruct Hwhy as [Hc|Hs]; [|auto].
    destruct k as [|[|t]]; [left; lia..|]. right. left.
    destruct (decide (get_legal_actions b0 (color rd) = [])) as [|Hne];
      [done|].
    now destruct (uct_loop_root_children self base root st rd b0 t st3 rd3
                    Ht Hrd Hb0 Hne Hbound E Hrd3).
Qed.

(** The tree with which [get_move] starts satisfies the invariant. *)
Lemma tree_ok_initial (bs : list Board) (b : Board) c draws
    (lg : list (Board * Action * Color)) :
  tree_ok (length bs) 0
    {| nodes := [fresh_root (length bs) c]; boards := bs ++ [b];
       rng := draws; move_log := lg |}.
Proof.
  assert (Hone : forall i (x : @Node Action),
            [fresh_root (length bs) c] !! i = Some x ->
            i = 0 /\ x = fresh_root (length bs) c).
  { intros i x H. apply list_lookup_singleton_Some in H as [-> <-]. done. }
  split; [split; [|split]|split; [|split; [|split; [|split; [|split]]]]];
    cbn [nodes boards].
  - intros n nd p Hn Hp. apply Hone in Hn as [-> ->]. discriminate.
  - intros n nd k Hn Hk. apply Hone in Hn as [-> ->].
    now apply elem_of_nil in Hk.
  - intros n nd p pd Hn Hp. apply Hone in Hn as [-> ->]. discriminate.
  - intros n nd Hn. apply Hone in Hn as [-> ->]. cbn.
    rewrite length_app. cbn. lia.
  - intros n nd Hn. apply Hone in Hn as [-> ->]. cbn. lia.
  - intros n nd Hn _. now apply Hone in Hn as [-> ->].
  - intros n nd k kd Hn Hk. apply Hone in Hn as [-> ->].
    now apply elem_of_nil in Hk.
  - intros i j x y Hi Hj _. apply Hone in Hi as [-> _].
    now apply Hone in Hj as [-> _].
  - intros n nd Hn _. now apply Hone in Hn as [-> _].
Qed.

(** [get_move] on an empty arena is [uct] on a fresh root that holds a
    copy of the caller's board. *)
Lemma get_move_start self l st b :
  nodes st = [] -> boards st !! l = Some b ->
  get_move self l st =
    uct self (max_times self) 0
      {| nodes := [fresh_root (length (boards st)) (ai_color self)];
         boards := boards st ++ [b]; rng := rng st;
         move_log := move_log st |}.
Proof.
  intros Hn Hb. unfold get_move.
  rewrite (bind_ok _ _ _ _ _ (deepcopy_ok _ _ _ Hb)).
  unfold bind at 1. unfold new_node at 1. unfold set_nodes.
  cbn beta iota delta [nodes boards rng move_log]. now rewrite Hn.
Qed.

(** X7: on a fresh arena, and for fewer than 2 ^ 64 iterations,
    [get_move] either returns a move, and then one that is legal for the
    engine's side on the caller's board, after exactly [max_times] visits
    of the root; or it raises [AttributeError], and then fewer than two
    iterations were asked for, or the engine's side has no legal move, or
    the comparison loop met a node with a child whose score, a float, is
    not above -[sys.maxsize].  It never returns [None] or a move that is
    not legal, and it raises nothing else: no conversion to a float
    overflows, no division is by zero, and [math.log] and [math.sqrt] get
    arguments of their domains. *)
Theorem get_move_outcome self l st b :
  nodes st = [] -> boards st !! l = Some b ->
  (Z.of_nat (max_times self) < 2 ^ 64)%Z ->
  (exists a st' rd,
     get_move self l st = (Ok (Some a), st') /\
     a ∈ get_legal_actions b (ai_color self) /\
     nodes st' !! 0 = Some rd /\ visits rd = max_times self) \/
  (exists st',
     get_move self l st = (Raise AttributeError, st') /\
     (max_times self <= 1 \/ get_legal_actions b (ai_color self) = [] \/
      stuck (ucb_param self) st')).
Proof.
  intros Hn Hb Hbound. rewrite (get_move_start self l st b Hn Hb).
  set (st0 := {| nodes := [fresh_root (length (boards st)) (ai_color self)];
                 boards := boards st ++ [b]; rng := rng st;
                 move_log := move_log st |}).
  assert (Hb0 : boards st0 !! length (boards st) = Some b).
  { cbn. now rewrite list_lookup_middle. }
  destruct (uct_outcome self (length (boards st)) 0 st0
              (fresh_root (length (boards st)) (ai_color self)) b
              (max_times self) (tree_ok_initial _ _ _ _ _) eq_refl Hb0
              Hbound)
    as [(a & st' & rd & E & Hleg & Hrd & Hv)|(st' & E & Hwhy)].
  - left. exists a, st', rd. auto.
  - right. exists st'. auto.
Qed.

(** X8: all along a search on a fresh arena, after any number of
    iterations, the tree is well formed, every node has a board object of
    its own that was allocated by the search (none is the caller's board
    and no two nodes share one), a node without visits has no children,
    the move of every child is a legal move of its parent's side on its
    parent's board, and the root is the only node without a parent. *)
Theorem search_prefix_tree_ok self l k st b :
  nodes st = [] -> boards st !! l = Some b ->
  tree_ok (length (boards st)) 0 (search_prefix self l k st).2 /\
  forall n nd, nodes (search_prefix self l k st).2 !! n = Some nd ->
    now_board nd <> l.
Proof.
  intros Hn Hb.
  assert (Hrun : search_prefix self l k st =
            uct_loop self k 0
              {| nodes := [fresh_root (length (boards st)) (ai_color self)];
                 boards := boards st ++ [b]; rng := rng st;
                 move_log := move_log st |}).
  { unfold search_prefix.
    rewrite (bind_ok _ _ _ _ _ (deepcopy_ok _ _ _ Hb)).
    unfold bind at 1. unfold new_node at 1. unfold set_nodes.
    cbn beta iota delta [nodes boards rng move_log]. now rewrite Hn. }
  rewrite Hrun.
  pose proof (tree_ok_uct_loop self 0 (length (boards st)) 0 k _
                (tree_ok_initial (boards st) b (ai_color self) (rng st)
                   (move_log st))) as T.
  split; [exact T|]. intros n nd Hnd.
  destruct T as [_ (_ & Hbase & _)]. pose proof (Hbase n nd Hnd).
  apply lookup_lt_Some in Hb. lia.
Qed.

(** ** Rewards within a margin: the search always finds a child *)

Lemma py_float_value rw rf : py_float rw = Ok rf -> rf = Z2float rw.
Proof. unfold py_float. destruct (Z2float rw); congruence. Qed.

(** The loop of [backup] changes nodes only by its two updates, one at a
    time, whether it returns or raises. *)
Lemma backup_fuel_ind_updates self rw (P : list (@Node Action) -> Prop) :
  (forall nds n nd, P nds -> nds !! n = Some nd ->
                    P (<[n := visited nd]> nds)) ->
  (forall nds n nd rf, P nds -> nds !! n = Some nd -> py_float rw = Ok rf ->
                       P (<[n := bump self rf nd]> nds)) ->
  forall f node st,
    P (nodes st) -> P (nodes (backup_fuel self f node rw st).2).
Proof.
  intros Hvis Hbump. induction f as [|f IH]; intros [n|] st HP;
    try (cbn; assumption).
  destruct (nodes st !! n) as [nd|] eqn:Hn.
  - destruct (py_float rw) as [rf|e] eqn:Hrw.
    + rewrite (backup_fuel_step _ _ _ _ _ _ _ Hn Hrw).
      apply IH. cbn. now apply Hbump.
    + rewrite (backup_fuel_overflow _ _ _ _ _ _ _ Hn Hrw). cbn.
      now apply Hvis.
  - assert (Hg : get_node n st = (Raise DanglingRef, st)).
    { unfold get_node. now rewrite Hn. }
    cbn [backup_fuel]. rewrite (bind_raise _ _ _ _ _ Hg). cbn. assumption.
Qed.

(** With integer reward sums below 2 ^ 53 and fewer than 2 ^ 53 visits,
    every score is above the bound from which the comparison loops
    start. *)
Lemma not_stuck (C : float) (K : Z) (V : nat) st :
  finite_positive C -> (0 <= K)%Z -> rewards_within K (nodes st) ->
  (forall n nd, nodes st !! n = Some nd -> visits nd <= V) ->
  (K * Z.of_nat V < 2 ^ 53)%Z -> (Z.of_nat V < 2 ^ 53)%Z ->
  ~ stuck C st.
Proof.
  intros HC HK Hrw HV HKV HV53
         (n & nd & k & kd & Hn & Hk & Hkd & Hvk & Hvn & Hlow).
  unfold child_score in Hlow. rewrite Hkd in Hlow.
  destruct C as [|s| |[] m e]; try destruct HC.
  pose proof (HV k kd Hkd) as Hle.
  destruct (Hrw k kd Hkd) as (r & Hr & Hb); [nia|].
  unfold ucb1 in Hlow. rewrite Hr in Hlow.
  rewrite score_above in Hlow; [discriminate|nia|lia|].
  apply libm_log_nonneg. lia.
Qed.

Lemma read_only_board_get_legal_actions l c :
  read_only (@board_get_legal_actions Board Action _ l c).
Proof.
  unfold board_get_legal_actions.
  apply read_only_bind; [apply read_only_read_board|].
  intros; apply read_only_ret.
Qed.

Lemma read_only_game_over self l :
  @read_only Board Action _ (game_over self l).
Proof.
  unfold game_over.
  apply read_only_bind; [apply read_only_board_get_legal_actions|]. intros xs.
  apply read_only_bind; [apply read_only_board_get_legal_actions|]. intros ys.
  apply read_only_ret.
Qed.

(** The state in which [uct] ends is the one in which its loop ends. *)
Lemma uct_state self k root st :
  (uct self k root st).2 = (uct_loop self k root st).2.
Proof.
  unfold uct, bind. destruct (uct_loop self k root st) as [[u|e] s];
    [apply read_only_uct_decide|reflexivity].
Qed.

(** After [k] passes, complete or not, the root has [k] visits more at
    most. *)
Lemma uct_loop_root_visits self base root k : forall st rd,
  tree_ok base root st -> nodes st !! root = Some rd ->
  (Z.of_nat (visits rd + k) < 2 ^ 64)%Z ->
  exists rd', nodes (uct_loop self k root st).2 !! root = Some rd' /\
              visits rd' <= visits rd + k.
Proof.
  induction k as [|k IH]; intros st rd Ht Hrd Hbound; cbn [uct_loop].
  - exists rd. split; [done|lia].
  - destruct (uct_iteration_outcome self base root st rd Ht Hrd)
      as [(st1 & rd1 & E & Hrd1 & Hv & _)|[E Hs]]; [lia|..].
    + rewrite (bind_ok _ _ _ _ _ E).
      pose proof (tree_ok_uct_iteration self root base root st Ht) as T1.
      rewrite E in T1.
      destruct (IH st1 rd1 T1 Hrd1) as (rd' & Hrd' & Hv'); [lia|].
      exists rd'. split; [done|lia].
    + rewrite (bind_raise _ _ _ _ _ E). exists rd. split; [done|lia].
Qed.

Section Margin.

Variable good : Board -> Prop.
Variable K : Z.
Hypothesis margin : margin_ok good K.

Lemma boards_good_deepcopy l : @keeps Board Action _ (boards_good good) (deepcopy l).
Proof.
  intros st Hg. unfold deepcopy, bind, read_board.
  destruct (boards st !! l) as [b|] eqn:Hb; [|exact Hg].
  cbn. intros l' b' H. apply lookup_app_Some in H as [H|[_ H]].
  - now apply (Hg l').
  - apply list_lookup_singleton_Some in H as [_ <-]. now apply (Hg l).
Qed.

Lemma boards_good_board_move l (a : Action) c :
  @keeps Board Action _ (boards_good good) (board_move l a c).
Proof using margin.
  intros st Hg. unfold board_move, bind, read_board.
  destruct (boards st !! l) as [b|] eqn:Hb; [|exact Hg].
  cbn. intros l' b' H.
  apply list_lookup_insert_Some in H as [(-> & <- & _)|[_ H]].
  - apply (proj1 margin). now apply (Hg l').
  - now apply (Hg l').
Qed.

Lemma boards_good_random_choice {A} (xs : list A) :
  @keeps Board Action _ (boards_good good) (@random_choice Board Action A xs).
Proof. intros st Hg. destruct xs; exact Hg. Qed.

Lemma boards_good_stimulate_loop self nb board k : forall c,
  @keeps Board Action _ (boards_good good) (stimulate_loop self nb board c k).
Proof using margin.
  induction k as [|k IH]; intros c; cbn [stimulate_loop].
  { apply keeps_read_only, read_only_ret. }
  apply keeps_bind; [apply keeps_read_only, read_only_game_over|].
  intros [|]; [apply keeps_read_only, read_only_ret|].
  apply keeps_bind;
    [apply keeps_read_only, read_only_board_get_legal_actions|].
  intros xs. apply keeps_bind; [|intros c'; apply IH].
  destruct (negb _).
  - apply keeps_bind; [apply boards_good_random_choice|]. intros a.
    apply keeps_bind; [apply boards_good_board_move|]. intros _.
    apply keeps_read_only, read_only_ret.
  - apply keeps_bind;
      [apply keeps_read_only, read_only_board_get_legal_actions|].
    intros ys. apply keeps_bind; [apply boards_good_random_choice|].
    intros a. apply keeps_bind; [apply boards_good_board_move|]. intros _.
    apply keeps_read_only, read_only_ret.
Qed.

Lemma boards_good_stimulate self n :
  @keeps Board Action _ (boards_good good) (stimulate self n).
Proof using margin.
  unfold stimulate.
  apply keeps_bind; [apply keeps_read_only, read_only_get_node|]. intros nd.
  apply keeps_bind; [apply boards_good_deepcopy|]. intros board.
  apply keeps_bind; [apply boards_good_stimulate_loop|]. intros _.
  apply keeps_bind.
  { apply keeps_read_only. unfold board_get_winner.
    apply read_only_bind; [apply read_only_read_board|].
    intros; apply read_only_ret. }
  intros wd. apply keeps_read_only, read_only_ret.
Qed.

Lemma boards_good_extend self n : @keeps Board Action _ (boards_good good) (extend self n).
Proof using margin.
  intros st Hg.
  destruct (extend_cases self n st)
    as [->|(nd & b & Hn & Hb & Hv & H1 & H2)]; [done|].
  intros l' b' H. rewrite H2 in H.
  apply lookup_app_Some in H as [H|[_ H]]; [now apply (Hg l')|].
  change (map (fun a => _move b a (color nd))
            (get_legal_actions b (color nd)))
    with ((fun a => _move b a (color nd)) <$>
            get_legal_actions b (color nd)) in H.
  apply list_lookup_fmap_Some in H as (a & -> & _).
  apply (proj1 margin). now apply (Hg (now_board nd)).
Qed.

Lemma boards_good_backup self n rw :
  @keeps Board Action _ (boards_good good) (backup self n rw).
Proof.
  intros st Hg. unfold backup.
  destruct (backup_fuel_ind_nodes (Board := Board) (Action := Action) self rw
              (fun _ => True))
    with (f := length (nodes st)) (node := Some n) (st := st) as [_ H2];
    [done..|].
  intros l' b' H. rewrite H2 in H. now apply (Hg l').
Qed.

Lemma rewards_within_extend self n st :
  rewards_within K (nodes st) -> rewards_within K (nodes (extend self n st).2).
Proof.
  intros Hr.
  destruct (extend_cases self n st)
    as [->|(nd & b & Hn & Hb & Hv & H1 & H2)]; [done|].
  intros i x Hi. rewrite H1 in Hi.
  destruct (expanded_lookup_inv _ _ _ _ _ _ _ _ _ Hn Hi)
    as [(x0 & Hx0 & ->)|(j & a & -> & Ha & ->)].
  - pose proof (Hr i x0 Hx0). now destruct (decide (i = n)).
  - intros _. exists 0%Z. split; [reflexivity|]. cbn. lia.
Qed.

(** The sums stay exact: the float of an integer below 2 ^ 53 plus or
    minus the float of a reward within [K] is the float of the integer
    sum. *)
Lemma rewards_within_backup self n rw st :
  (- K <= rw <= K)%Z -> rewards_within K (nodes st) ->
  rewards_within K (nodes (backup self n rw st).2).
Proof.
  intros Hrw Hr. unfold backup.
  apply (backup_fuel_ind_updates self rw (rewards_within K)); [..|exact Hr].
  - intros nds j y HP Hj i x Hi. pose proof (lookup_lt_Some _ _ _ Hj).
    destruct (decide (i = j)) as [->|Hne].
    + rewrite list_lookup_insert_eq in Hi by done. injection Hi as <-.
      cbn [visits reward visited]. rewrite Nat2Z.inj_add. intros Hlt.
      destruct (HP j y Hj) as (r & Hy & Hb); [nia|].
      exists r. split; [exact Hy|nia].
    + rewrite list_lookup_insert_ne in Hi by done. now apply (HP i x).
  - intros nds j y rf HP Hj Hrf i x Hi. pose proof (lookup_lt_Some _ _ _ Hj).
    apply py_float_value in Hrf. subst rf.
    destruct (decide (i = j)) as [->|Hne].
    + rewrite list_lookup_insert_eq in Hi by done. injection Hi as <-.
      cbn [visits reward bump]. rewrite Nat2Z.inj_add. intros Hlt.
      destruct (HP j y Hj) as (r & Hy & Hb); [nia|]. rewrite Hy.
      destruct (decide (color y = ai_color self)).
      * exists (r + rw)%Z. split; [apply fadd_exact; nia|nia].
      * exists (r - rw)%Z. split; [apply fsub_exact; nia|nia].
    + rewrite list_lookup_insert_ne in Hi by done. now apply (HP i x).
Qed.

(** The reward of a rollout on good boards is within the margin. *)
Lemma stimulate_reward_within self n st rw st' :
  boards_good good st -> stimulate self n st = (Ok rw, st') ->
  (- K <= rw <= K)%Z.
Proof using margin.
  intros Hg Hs. pose proof (boards_good_stimulate self n st Hg) as Hg'.
  destruct (nodes st !! n) as [nd|] eqn:Hn.
  2:{ unfold stimulate, bind, get_node in Hs. rewrite Hn in Hs. discriminate. }
  destruct (boards st !! now_board nd) as [b|] eqn:Hb.
  2:{ unfold stimulate in Hs.
      rewrite (bind_ok _ _ _ _ _ (get_node_ok _ _ _ Hn)) in Hs.
      unfold deepcopy, bind, read_board in Hs. rewrite Hb in Hs.
      discriminate. }
  destruct (stimulate_run self n st nd b Hn Hb)
    as (br & lg & st2 & Hs2 & _ & H2 & _).
  rewrite Hs2 in Hs, Hg'. cbn [snd] in Hg'.
  assert (Hbr : good br).
  { apply (Hg' (length (boards st))). rewrite H2.
    now rewrite list_lookup_middle. }
  pose proof (proj2 margin br Hbr). injection Hs as <- _.
  cbn zeta. repeat case_decide; lia.
Qed.

Lemma search_inv_uct_iteration self root :
  @keeps Board Action _ (search_inv good K) (uct_iteration self root).
Proof using margin.
  intros st [Hg Hr]. unfold uct_iteration.
  pose proof (read_only_select self root st) as Hro.
  destruct (select self root st) as [[[sel|]|e] s0] eqn:Hsel;
    cbn [snd] in Hro; subst s0.
  2:{ now rewrite (bind_ok _ _ _ _ _ Hsel). }
  2:{ now rewrite (bind_raise _ _ _ _ _ Hsel). }
  rewrite (bind_ok _ _ _ _ _ Hsel).
  pose proof (boards_good_extend self sel st Hg) as Hg1.
  pose proof (rewards_within_extend self sel st Hr) as Hr1.
  destruct (extend self sel st) as [[leaf|e] st1] eqn:E1;
    cbn [snd] in Hg1, Hr1.
  2:{ now rewrite (bind_raise _ _ _ _ _ E1). }
  rewrite (bind_ok _ _ _ _ _ E1).
  pose proof (boards_good_stimulate self leaf st1 Hg1) as Hg2.
  pose proof (proj1 (stimulate_cases self leaf st1)) as Hn2.
  pose proof (stimulate_reward_within self leaf st1) as Hrw.
  destruct (stimulate self leaf st1) as [[rw|e] st2] eqn:E2;
    cbn [snd] in Hg2, Hn2.
  2:{ rewrite (bind_raise _ _ _ _ _ E2). split; [done|]. cbn.
      now rewrite Hn2. }
  rewrite (bind_ok _ _ _ _ _ E2).
  specialize (Hrw rw st2 Hg1 eq_refl).
  assert (Hr2 : rewards_within K (nodes st2)) by now rewrite Hn2.
  pose proof (boards_good_backup self leaf rw st2 Hg2) as Hg3.
  pose proof (rewards_within_backup self leaf rw st2 Hrw Hr2) as Hr3.
  destruct (backup self leaf rw st2) as [[z|e] st3] eqn:E3;
    cbn [snd] in Hg3, Hr3.
  - now rewrite (bind_ok _ _ _ _ _ E3).
  - now rewrite (bind_raise _ _ _ _ _ E3).
Qed.

Lemma search_inv_uct_loop self root k :
  @keeps Board Action _ (search_inv good K) (uct_loop self k root).
Proof using margin.
  induction k as [|k IH]; cbn [uct_loop].
  - apply keeps_read_only, read_only_ret.
  - apply keeps_bind; [apply search_inv_uct_iteration|]. now intros _.
Qed.

(** X9: when the boards of the game stay within a class on which a
    rollout is rewarded with at most [K] in absolute value, [K] times the
    iterations is below 2 ^ 53, the exploration constant is a finite float
    above zero, at least two iterations are asked for and the engine's
    side has a legal move, then [get_move] returns: it raises nothing, and
    its result is a legal move of the engine's side on the caller's board,
    found after [max_times] visits of the root.  Every reward sum is then
    an integer that its float holds exactly, so that no score is at or
    below -[sys.maxsize], whatever the logarithm of the platform. *)
Theorem get_move_returns_move self l st b :
  finite_positive (ucb_param self) -> 2 <= max_times self ->
  (Z.of_nat (max_times self) < 2 ^ 53)%Z ->
  (K * Z.of_nat (max_times self) < 2 ^ 53)%Z ->
  nodes st = [] -> boards_good good st -> boards st !! l = Some b ->
  get_legal_actions b (ai_color self) <> [] ->
  exists a st' rd,
    get_move self l st = (Ok (Some a), st') /\
    a ∈ get_legal_actions b (ai_color self) /\
    nodes st' !! 0 = Some rd /\ visits rd = max_times self.
Proof using margin.
  intros HC Ht HV HKV Hn Hg Hb Hacts.
  assert (HK : (0 <= K)%Z).
  { pose proof (proj2 margin b (Hg l b Hb)). lia. }
  rewrite (get_move_start self l st b Hn Hb).
  set (st0 := {| nodes := [fresh_root (length (boards st)) (ai_color self)];
                 boards := boards st ++ [b]; rng := rng st;
                 move_log := move_log st |}).
  assert (Hb0 : boards st0 !! length (boards st) = Some b).
  { cbn. now rewrite list_lookup_middle. }
  assert (Hinv : search_inv good K st0).
  { split.
    - intros l' b' H. cbn in H. apply lookup_app_Some in H as [H|[_ H]].
      + now apply (Hg l').
      + apply list_lookup_singleton_Some in H as [_ <-]. now apply (Hg l).
    - intros i x H. cbn in H.
      apply list_lookup_singleton_Some in H as [_ <-]. intros _.
      exists 0%Z. split; [reflexivity|]. cbn. lia. }
  pose proof (tree_ok_initial (boards st) b (ai_color self) (rng st)
                (move_log st)) as T0. fold st0 in T0.
  assert (Hbound : (Z.of_nat (max_times self) < 2 ^ 64)%Z) by lia.
  destruct (uct_outcome self (length (boards st)) 0 st0
              (fresh_root (length (boards st)) (ai_color self)) b
              (max_times self) T0 eq_refl Hb0 Hbound)
    as [(a & st' & rd & E & Hleg & Hrd & Hv)|(st' & E & Hwhy)].
  - exists a, st', rd. auto.
  - exfalso. destruct Hwhy as [Hle|[Hno|Hs]]; [lia|done|].
    assert (Hst : st' = (uct_loop self (max_times self) 0 st0).2).
    { rewrite <- uct_state, E. reflexivity. }
    pose proof (search_inv_uct_loop self 0 (max_times self) st0 Hinv)
      as [_ Hrw].
    pose proof (tree_ok_uct_loop self 0 (length (boards st)) 0
                  (max_times self) st0 T0) as T.
    destruct (uct_loop_root_visits self (length (boards st)) 0
                (max_times self) st0 _ T0 eq_refl Hbound)
      as (rd' & Hrd' & Hv').
    rewrite <- Hst in Hrw, T, Hrd'. cbn [visits fresh_root] in Hv'.
    apply (not_stuck (ucb_param self) K (max_times self) st'); try done.
    intros n nd Hnd.
    pose proof (visits_le_root _ 0 st' rd' T Hrd' n nd Hnd). lia.
Qed.

(** X15: when the boards of the game stay within a class on which a
    rollout is rewarded with at most [K] in absolute value, then after any
    number of iterations of a search on a fresh arena every board the
    search has allocated is of that class, and the reward sum of every
    node is computed without any rounding as long as [K] times its visits
    is below 2 ^ 53: it is the float of an integer within [K] times the
    visits of the node. *)
Theorem search_prefix_rewards_within self l k st b :
  nodes st = [] -> boards_good good st -> boards st !! l = Some b ->
  boards_good good (search_prefix self l k st).2 /\
  forall n nd, nodes (search_prefix self l k st).2 !! n = Some nd ->
    (K * Z.of_nat (visits nd) < 2 ^ 53)%Z ->
    exists r : Z,
      reward nd = Z2float r /\
      (- K * Z.of_nat (visits nd) <= r <= K * Z.of_nat (visits nd))%Z.
Proof using margin.
  intros Hn Hg Hb.
  assert (Hrun : search_prefix self l k st =
            uct_loop self k 0
              {| nodes := [fresh_root (length (boards st)) (ai_color self)];
                 boards := boards st ++ [b]; rng := rng st;
                 move_log := move_log st |}).
  { unfold search_prefix.
    rewrite (bind_ok _ _ _ _ _ (deepcopy_ok _ _ _ Hb)).
    unfold bind at 1. unfold new_node at 1. unfold set_nodes.
    cbn beta iota delta [nodes boards rng move_log]. now rewrite Hn. }
  rewrite Hrun. apply (search_inv_uct_loop self 0 k). split.
  - intros l' b' H. cbn in H. apply lookup_app_Some in H as [H|[_ H]].
    + now apply (Hg l').
    + apply list_lookup_singleton_Some in H as [_ <-]. now apply (Hg l).
  - intros i x H. cbn in H.
    apply list_lookup_singleton_Some in H as [_ <-]. intros _.
    exists 0%Z. split; [reflexivity|]. cbn. lia.
Qed.

End Margin.

(** ** A reward beyond the floats *)

(** X17: when the reward is an [int] beyond the range of the floats,
    [backup] raises [OverflowError] in its first pass: the visit of the
    leaf has been counted by then, its reward and every other node are as
    before, and no ancestor is reached. *)
Theorem backup_overflow self leaf rw st nd :
  nodes st !! leaf = Some nd -> py_float rw = Raise OverflowError ->
  backup self leaf rw st
  = (Raise OverflowError,
     {| nodes := <[leaf := {| visits := visits nd + 1; reward := reward nd;
                              now_board := now_board nd;
                              children := children nd; parent := parent nd;
                              action := action nd; color := color nd |}]>
                   (nodes st);
        boards := boards st; rng := rng st; move_log := move_log st |}).
Proof.
  intros Hn Hrw. unfold backup.
  pose proof (lookup_lt_Some _ _ _ Hn) as Hlt.
  destruct (length (nodes st)) as [|f]; [lia|].
  now rewrite (backup_fuel_overflow _ _ _ _ _ _ _ Hn Hrw).
Qed.

(** ** The final choice of [uct] *)

(** X11: the move [uct] returns is the move of the root's child with the
    highest score, the first one in the order of the child list among equal
    scores, where a child without a visit scores the [int] [sys.maxsize]
    and a visited one the float of its UCB1 value with the exploration
    term, compared as Python compares numbers: the choice is by score, not
    by visit count or mean reward.  A root without children, or one whose
    children all have scores that are not above -[sys.maxsize], makes
    [max_node.action] fail; a child without a visit always scores above
    that bound. *)
Theorem uct_decide_first_max self st root rd :
  children_ok (nodes st) -> visits_ok (nodes st) ->
  nodes st !! root = Some rd -> (Z.of_nat (visits rd) < 2 ^ 64)%Z ->
  (children rd = [] -> uct_decide self root st = (Raise AttributeError, st)) /\
  (forall k, k ∈ children rd ->
     get_ucb k (ucb_param self) st
     = (Ok (final_score (ucb_param self) st rd k), st)) /\
  ((exists w wd,
      uct_decide self root st = (Ok (action wd), st) /\
      nodes st !! w = Some wd /\
      first_max (final_score (ucb_param self) st rd) (children rd) w /\
      py_lt (PInt (- sys_maxsize))
            (final_score (ucb_param self) st rd w) = true) \/
   (uct_decide self root st = (Raise AttributeError, st) /\
    forall k, k ∈ children rd ->
      py_lt (PInt (- sys_maxsize))
            (final_score (ucb_param self) st rd k) = false)) /\
  (forall k kd, k ∈ children rd -> nodes st !! k = Some kd ->
     visits kd = 0 ->
     py_lt (PInt (- sys_maxsize))
           (final_score (ucb_param self) st rd k) = true).
Proof.
  intros Hok Hvis Hrd Hbound.
  assert (Hscore : forall k, k ∈ children rd ->
            get_ucb k (ucb_param self) st
            = (Ok (final_score (ucb_param self) st rd k), st)).
  { intros k Hk. destruct (Hok root rd k Hrd Hk) as (_ & kd & Hkd & Hp).
    unfold final_score. rewrite Hkd.
    pose proof (Hvis k kd root rd Hkd Hp Hrd).
    destruct (decide (visits kd = 0)) as [Hz|Hz];
      [now apply get_ucb_unvisited with kd|].
    apply get_ucb_visited with root; auto; lia. }
  split; [|split; [exact Hscore|split]].
  - intros Hc. unfold uct_decide.
    rewrite (bind_ok _ _ _ _ _ (get_node_ok _ _ _ Hrd)). now rewrite Hc.
  - unfold uct_decide.
    rewrite (bind_ok _ _ _ _ _ (get_node_ok _ _ _ Hrd)).
    destruct (max_ucb_loop_run _ st _ (children rd) Hscore
                (PInt (- sys_maxsize)) None)
      as (r & Hr & [[-> Hle]|(i & w & -> & Hi & Hw & Hmax & Hbefore)]);
      rewrite (bind_ok _ _ _ _ _ Hr).
    { right. split; [reflexivity|exact Hle]. }
    left.
    assert (Hin : w ∈ children rd) by (eapply list_elem_of_lookup_2; eauto).
    destruct (Hok root rd w Hrd Hin) as (_ & wd & Hwd & _).
    rewrite (bind_ok _ _ _ _ _ (get_node_ok _ _ _ Hwd)).
    exists w, wd. split; [reflexivity|]. split; [exact Hwd|].
    split; [exists i; auto|exact Hw].
  - intros k kd Hk Hkd Hz. unfold final_score. rewrite Hkd.
    rewrite decide_True by done. reflexivity.
Qed.

(** ** Every node is expanded once *)

Lemma select_fuel_childless self st :
  unvisited_childless (nodes st) ->
  forall f n k st',
    select_fuel self f n st = (Ok (Some k), st') ->
    exists kd, nodes st !! k = Some kd /\ children kd = [].
Proof.
  intros Hun. induction f as [|f IH]; intros n k st' H; [discriminate|].
  cbn [select_fuel] in H. unfold bind at 1 in H. unfold get_node at 1 in H.
  destruct (nodes st !! n) as [nd|] eqn:Hn; [|discriminate].
  destruct (decide (length (children nd) = 0)) as [Hz|Hz].
  { unfold ret in H. injection H as <- <-. exists nd. split; [done|].
    now apply length_zero_iff_nil. }
  unfold bind at 1 in H.
  pose proof (read_only_full_expanded n st) as Hro.
  destruct (full_expanded n st) as [[fe|e] st1]; [|discriminate].
  cbn in Hro. subst st1. destruct fe.
  - unfold bind at 1 in H.
    pose proof (read_only_max_ucb_loop (ucb_param self) (children nd)
                  (PInt (- sys_maxsize)) None st) as Hro.
    destruct (max_ucb_loop _ _ _ _ st) as [[[w|]|e] st1]; try discriminate.
    cbn in Hro. subst st1. now apply (IH w k st').
  - destruct (first_unvisited_some _ _ _ _ H) as (kd & Hkd & Hv).
    exists kd. split; [done|]. now apply (Hun k kd).
Qed.

Lemma expanded_once_extend self n st nd :
  nodes st !! n = Some nd -> children nd = [] ->
  expanded_once st -> expanded_once (extend self n st).2.
Proof.
  intros Hn Hc He.
  destruct (extend_cases self n st)
    as [->|(nd' & b & Hn' & Hb & Hv & H1 & H2)]; [done|].
  assert (nd' = nd) by congruence. subst nd'.
  rewrite Hc in H1. cbn [app] in H1.
  set (acts := get_legal_actions b (color nd)) in *.
  set (cs := seq (length (nodes st)) (length acts)) in *.
  pose proof (lookup_lt_Some _ _ _ Hn) as Hlt.
  pose proof (lookup_lt_Some _ _ _ Hb) as Hltb.
  assert (Hkeep : forall (nd0 : @Node Action) b0 k a,
            child_of st nd0 b0 k a -> child_of (extend self n st).2 nd0 b0 k a).
  { intros nd0 b0 k a (kd & Hkd & Ha & Hbk). unfold child_of.
    rewrite H1, H2.
    exists (if decide (k = n) then with_children kd cs else kd).
    split; [apply (expanded_lookup_old _ _ _ _ _ _ _ _ _ Hn Hkd)|].
    pose proof (lookup_lt_Some _ _ _ Hbk).
    destruct (decide (k = n)); cbn [action now_board with_children];
      (split; [done|]); now rewrite lookup_app_l by lia. }
  intros i x Hi Hne. rewrite H1 in Hi.
  destruct (expanded_lookup_inv _ _ _ _ _ _ _ _ _ Hn Hi)
    as [(x0 & Hx0 & ->)|(j & a & -> & Ha & ->)]; [|done].
  destruct (decide (i = n)) as [->|Hin].
  - assert (x0 = nd) by congruence. subst x0.
    cbn [children now_board color with_children] in *.
    exists b. split; [rewrite H2; now rewrite lookup_app_l by lia|].
    apply Forall2_same_length_lookup_2; [unfold cs; now rewrite length_seq|].
    intros j k a Hk Ha. fold acts in Ha. apply lookup_seq in Hk as [-> Hj].
    exists (child_node n (flip_color (color nd)) (length (boards st) + j) a).
    split; [|split; [reflexivity|]].
    + rewrite H1. rewrite lookup_app_r by (rewrite length_insert; lia).
      rewrite length_insert, list_lookup_imap.
      replace (length (nodes st) + j - length (nodes st)) with j by lia.
      now rewrite Ha.
    + rewrite H2. cbn [now_board child_node].
      rewrite lookup_app_r by lia.
      replace (length (boards st) + j - length (boards st)) with j by lia.
      change (map (fun a => _move b a (color nd)) acts)
        with ((fun a => _move b a (color nd)) <$> acts).
      rewrite list_lookup_fmap. now rewrite Ha.
  - destruct (He i x0 Hx0 Hne) as (b0 & Hb0 & Hall).
    exists b0. split.
    + rewrite H2. apply lookup_lt_Some in Hb0 as Hl0.
      now rewrite lookup_app_l by lia.
    + eapply Forall2_impl; [exact Hall|]. intros k a. apply Hkeep.
Qed.

Lemma expanded_once_stimulate self n st :
  expanded_once st -> expanded_once (stimulate self n st).2.
Proof.
  intros He. destruct (stimulate_cases self n st) as [H1 [ext H2]].
  intros i x Hi Hne. rewrite H1 in Hi.
  destruct (He i x Hi Hne) as (b & Hb & Hall). exists b. split.
  - rewrite H2. apply lookup_lt_Some in Hb as Hl.
    now rewrite lookup_app_l by lia.
  - eapply Forall2_impl; [exact Hall|].
    intros k a (kd & Hkd & Ha & Hbk). exists kd. rewrite H1, H2.
    split; [done|]. split; [done|]. apply lookup_lt_Some in Hbk as Hl.
    now rewrite lookup_app_l by lia.
Qed.

Lemma expanded_once_backup self n rw st :
  expanded_once st -> expanded_once (backup self n rw st).2.
Proof.
  intros He. unfold backup.
  destruct (backup_fuel_ind_nodes (Board := Board) (Action := Action) self rw
              (fun nds => expanded_once
                 {| nodes := nds; boards := boards st; rng := rng st;
                    move_log := move_log st |}))
    with (f := length (nodes st)) (node := Some n) (st := st) as [H1 H2].
  - intros nds j y y' HP Hj (Tv & Tb & Tc & Tp & Ta & Tcol) i x Hi Hne.
    cbn [nodes boards] in *.
    pose proof (lookup_lt_Some _ _ _ Hj) as Hlj.
    assert (Hx : exists x0, nds !! i = Some x0 /\ children x = children x0 /\
                   now_board x = now_board x0 /\ color x = color x0).
    { destruct (decide (i = j)) as [->|Hij].
      - rewrite list_lookup_insert_eq in Hi by done. injection Hi as <-.
        exists y. auto.
      - rewrite list_lookup_insert_ne in Hi by done. exists x. auto. }
    destruct Hx as (x0 & Hx0 & Hc & Hb & Hco). rewrite Hc in Hne.
    destruct (HP i x0 Hx0 Hne) as (b & Hbb & Hall). cbn [nodes boards] in *.
    exists b. rewrite Hb, Hc, Hco. split; [done|].
    eapply Forall2_impl; [exact Hall|].
    intros k a (kd & Hkd & Ha & Hbk). cbn [nodes boards] in *.
    unfold child_of. cbn [nodes boards]. rewrite Hco.
    destruct (decide (k = j)) as [->|Hkj].
    + exists y'. rewrite list_lookup_insert_eq by done.
      assert (kd = y) by congruence. subst kd.
      split; [done|]. split; congruence.
    + exists kd. rewrite list_lookup_insert_ne by done. auto.
  - now destruct st.
  - intros i x Hi Hne. destruct (H1 i x Hi Hne) as (b & Hb & Hall).
    cbn [nodes boards] in *. exists b. rewrite H2. split; [done|].
    eapply Forall2_impl; [exact Hall|].
    intros k a (kd & Hkd & Ha & Hbk). exists kd. cbn [nodes boards] in *.
    rewrite H2. auto.
Qed.

Lemma expanded_once_uct_iteration self root0 base root :
  @keeps Board Action _ (fun st => tree_ok base root st /\ expanded_once st)
    (uct_iteration self root0).
Proof.
  intros st [Ht He].
  split; [now apply tree_ok_uct_iteration|]. unfold uct_iteration.
  pose proof (read_only_select self root0 st) as Hro.
  destruct (select self root0 st) as [[[sel|]|e] s0] eqn:Hsel;
    cbn [snd] in Hro; subst s0.
  2:{ now rewrite (bind_ok _ _ _ _ _ Hsel). }
  2:{ now rewrite (bind_raise _ _ _ _ _ Hsel). }
  rewrite (bind_ok _ _ _ _ _ Hsel).
  destruct Ht as [_ (_ & _ & Hun & _)].
  destruct (select_fuel_childless self st Hun _ _ _ _ Hsel)
    as (sd & Hsd & Hc).
  pose proof (expanded_once_extend self sel st sd Hsd Hc He) as He1.
  destruct (extend self sel st) as [[leaf|e] st1] eqn:E1; cbn [snd] in He1.
  2:{ now rewrite (bind_raise _ _ _ _ _ E1). }
  rewrite (bind_ok _ _ _ _ _ E1).
  pose proof (expanded_once_stimulate self leaf st1 He1) as He2.
  destruct (stimulate self leaf st1) as [[rw|e] st2] eqn:E2; cbn [snd] in He2.
  2:{ now rewrite (bind_raise _ _ _ _ _ E2). }
  rewrite (bind_ok _ _ _ _ _ E2).
  pose proof (expanded_once_backup self leaf rw st2 He2) as He3.
  destruct (backup self leaf rw st2) as [[z|e] st3] eqn:E3; cbn [snd] in He3.
  - now rewrite (bind_ok _ _ _ _ _ E3).
  - now rewrite (bind_raise _ _ _ _ _ E3).
Qed.

Lemma expanded_once_uct_loop self root0 base root k :
  @keeps Board Action _ (fun st => tree_ok base root st /\ expanded_once st)
    (uct_loop self k root0).
Proof.
  induction k as [|k IH]; cbn [uct_loop].
  - apply keeps_read_only, read_only_ret.
  - apply keeps_bind; [apply expanded_once_uct_iteration|]. now intros _.
Qed.

(** X12: the search expands no node twice and builds a faithful game
    tree: after any number of iterations on a fresh arena, every node with
    children has exactly one child per legal move of its side on its
    board, in the order of [get_legal_actions]; each child stores its move
    and holds the board of its parent after that move. *)
Theorem search_prefix_expanded_once self l k st b :
  nodes st = [] -> boards st !! l = Some b ->
  expanded_once (search_prefix self l k st).2.
Proof.
  intros Hn Hb.
  assert (Hrun : search_prefix self l k st =
            uct_loop self k 0
              {| nodes := [fresh_root (length (boards st)) (ai_color self)];
                 boards := boards st ++ [b]; rng := rng st;
                 move_log := move_log st |}).
  { unfold search_prefix.
    rewrite (bind_ok _ _ _ _ _ (deepcopy_ok _ _ _ Hb)).
    unfold bind at 1. unfold new_node at 1. unfold set_nodes.
    cbn beta iota delta [nodes boards rng move_log]. now rewrite Hn. }
  rewrite Hrun.
  refine (proj2 (expanded_once_uct_loop self 0 (length (boards st)) 0 k _ _)).
  split; [apply tree_ok_initial|].
  intros n nd Hnd Hne. cbn [nodes] in Hnd.
  apply list_lookup_singleton_Some in Hnd as [_ <-]. done.
Qed.

(** ** The account of the visits *)

Lemma visits_of_ext (nds nds' : list (@Node Action)) ks :
  (forall k, k ∈ ks -> visits_at nds' k = visits_at nds k) ->
  visits_of nds' ks = visits_of nds ks.
Proof.
  induction ks as [|k ks IH]; intros H; [reflexivity|].
  unfold visits_of in *. cbn [sum_list_with].
  rewrite H by (apply elem_of_cons; auto).
  rewrite IH; [reflexivity|]. intros k' Hk'. apply H, elem_of_cons. auto.
Qed.

Lemma visits_of_zero (nds : list (@Node Action)) ks :
  (forall k, k ∈ ks -> visits_at nds k = 0) -> visits_of nds ks = 0.
Proof.
  induction ks as [|k ks IH]; intros H; [reflexivity|].
  unfold visits_of in *. cbn [sum_list_with].
  rewrite H by (apply elem_of_cons; auto).
  rewrite IH; [reflexivity|]. intros k' Hk'. apply H, elem_of_cons. auto.
Qed.

Lemma visits_at_bump self rw (nds : list (@Node Action)) n nd k :
  nds !! n = Some nd ->
  visits_at (<[n := bump self rw nd]> nds) k
  = visits_at nds k + (if decide (k = n) then 1 else 0).
Proof.
  intros Hn. pose proof (lookup_lt_Some _ _ _ Hn). unfold visits_at.
  destruct (decide (k = n)) as [->|Hne].
  - rewrite list_lookup_insert_eq by done. now rewrite Hn.
  - rewrite list_lookup_insert_ne by done. lia.
Qed.

Lemma visits_of_bump_notin self rw (nds : list (@Node Action)) n nd ks :
  nds !! n = Some nd -> n ∉ ks ->
  visits_of (<[n := bump self rw nd]> nds) ks = visits_of nds ks.
Proof.
  intros Hn Hnin. apply visits_of_ext. intros k Hk.
  rewrite (visits_at_bump self rw nds n nd k Hn).
  destruct (decide (k = n)) as [->|]; [done|lia].
Qed.

Lemma visits_of_bump_in self rw (nds : list (@Node Action)) n nd ks :
  nds !! n = Some nd -> NoDup ks -> n ∈ ks ->
  visits_of (<[n := bump self rw nd]> nds) ks = visits_of nds ks + 1.
Proof.
  intros Hn Hnd Hin.
  apply list_elem_of_split in Hin as (l1 & l2 & ->).
  apply NoDup_app in Hnd as (_ & Hdis & Hnd2).
  apply NoDup_cons in Hnd2 as [Hn2 _].
  assert (Hn1 : n ∉ l1).
  { intros H1. apply (Hdis n H1). apply elem_of_cons. auto. }
  pose proof (visits_of_bump_notin self rw nds n nd l1 Hn Hn1) as E1.
  pose proof (visits_of_bump_notin self rw nds n nd l2 Hn Hn2) as E2.
  unfold visits_of in *. rewrite !sum_list_with_app. cbn [sum_list_with].
  rewrite E1, E2, (visits_at_bump self rw nds n nd n Hn).
  rewrite decide_True by done. lia.
Qed.

(** One step of [backup] keeps the shape of the tree. *)
Lemma shape_bump self rw (nds : list (@Node Action)) n nd :
  parents_below nds -> children_ok nds -> children_listed nds ->
  nds !! n = Some nd ->
  parents_below (<[n := bump self rw nd]> nds) /\
  children_ok (<[n := bump self rw nd]> nds) /\
  children_listed (<[n := bump self rw nd]> nds).
Proof.
  intros Hpb Hok [Hli Hnd] Hn.
  pose proof (lookup_lt_Some _ _ _ Hn) as Hlt.
  assert (Hinv : forall i x, <[n := bump self rw nd]> nds !! i = Some x ->
            exists x0, nds !! i = Some x0 /\
              children x = children x0 /\ parent x = parent x0).
  { intros i x Hi. destruct (decide (i = n)) as [->|Hne].
    - rewrite list_lookup_insert_eq in Hi by done. injection Hi as <-.
      exists nd. auto.
    - rewrite list_lookup_insert_ne in Hi by done. exists x. auto. }
  assert (Hfwd : forall i x0, nds !! i = Some x0 ->
            exists x, <[n := bump self rw nd]> nds !! i = Some x /\
              children x = children x0 /\ parent x = parent x0).
  { intros i x0 Hi. destruct (decide (i = n)) as [->|Hne].
    - rewrite list_lookup_insert_eq by done. eexists. split; [done|].
      assert (x0 = nd) by congruence. subst x0. auto.
    - rewrite list_lookup_insert_ne by done. exists x0. auto. }
  split; [|split; [|split]].
  - intros i x p Hi Hp. destruct (Hinv i x Hi) as (x0 & Hx0 & _ & Hp0).
    apply (Hpb i x0 p Hx0). congruence.
  - intros i x k Hi Hk. destruct (Hinv i x Hi) as (x0 & Hx0 & Hc & _).
    rewrite Hc in Hk. destruct (Hok i x0 k Hx0 Hk) as (Hik & kd & Hkd & Hpk).
    split; [done|]. destruct (Hfwd k kd Hkd) as (kd' & Hkd' & _ & Hp').
    exists kd'. split; [done|]. congruence.
  - intros k kd p Hk Hp. destruct (Hinv k kd Hk) as (kd0 & Hkd0 & _ & Hp0).
    rewrite Hp0 in Hp. destruct (Hli k kd0 p Hkd0 Hp) as (pd & Hpd & Hin).
    destruct (Hfwd p pd Hpd) as (pd' & Hpd' & Hc' & _).
    exists pd'. split; [done|]. now rewrite Hc'.
  - intros i x Hi. destruct (Hinv i x Hi) as (x0 & Hx0 & Hc & _).
    rewrite Hc. now apply (Hnd i x0).
Qed.

(** One step of [backup] counts the pending node and leaves its parent one
    visit short. *)
Lemma visits_accounted_bump self rw st n nd :
  parents_below (nodes st) -> children_ok (nodes st) ->
  children_listed (nodes st) ->
  nodes st !! n = Some nd -> visits_accounted st (Some n) ->
  visits_accounted
    {| nodes := <[n := bump self rw nd]> (nodes st); boards := boards st;
       rng := rng st; move_log := move_log st |} (parent nd).
Proof.
  intros Hpb Hok [Hli Hnd] Hn [HA HB].
  pose proof (lookup_lt_Some _ _ _ Hn) as Hlt.
  assert (Hself : n ∉ children nd).
  { intros Hin. destruct (Hok n nd n Hn Hin) as [? _]. lia. }
  assert (Hother : forall m md, nodes st !! m = Some md ->
            parent nd <> Some m -> m <> n -> n ∉ children md).
  { intros m md Hm Hp Hne Hin.
    destruct (Hok m md n Hm Hin) as (_ & nd' & Hn' & Hp').
    congruence. }
  split; cbn [nodes boards].
  - intros m md1 Hm1 Hne.
    destruct (decide (parent nd = Some m)) as [Hp|Hp].
    + pose proof (Hpb n nd m Hn Hp) as Hmn.
      rewrite list_lookup_insert_ne in Hm1 by lia.
      destruct (Hli n nd m Hn Hp) as (pd & Hpd & Hin).
      assert (pd = md1) by congruence. subst pd.
      rewrite (visits_of_bump_in self rw _ n nd _ Hn (Hnd m md1 Hm1) Hin).
      pose proof (HA m md1 Hm1 Hne) as E.
      rewrite decide_False in E by (intros [=]; lia). lia.
    + destruct (decide (m = n)) as [->|Hmn].
      * rewrite list_lookup_insert_eq in Hm1 by done. injection Hm1 as <-.
        cbn [children visits bump] in *.
        rewrite (visits_of_bump_notin self rw _ n nd _ Hn Hself).
        pose proof (HA n nd Hn Hne) as E.
        rewrite decide_True in E by done. lia.
      * rewrite list_lookup_insert_ne in Hm1 by done.
        rewrite (visits_of_bump_notin self rw _ n nd _ Hn
                   (Hother m md1 Hm1 Hp Hmn)).
        pose proof (HA m md1 Hm1 Hne) as E.
        rewrite decide_False in E by congruence. lia.
  - intros m md1 b Hm1 Hc Hb Hacts.
    destruct (decide (parent nd = Some m)) as [Hp|Hp].
    + pose proof (Hpb n nd m Hn Hp) as Hmn.
      rewrite list_lookup_insert_ne in Hm1 by lia.
      destruct (Hli n nd m Hn Hp) as (pd & Hpd & Hin).
      assert (pd = md1) by congruence. subst pd.
      rewrite Hc in Hin. now apply elem_of_nil in Hin.
    + destruct (decide (m = n)) as [->|Hmn].
      * rewrite list_lookup_insert_eq in Hm1 by done. injection Hm1 as <-.
        cbn [children visits bump now_board color] in *.
        pose proof (HB n nd b Hn Hc Hb Hacts) as E.
        rewrite decide_True in E by done. lia.
      * rewrite list_lookup_insert_ne in Hm1 by done.
        pose proof (HB m md1 b Hm1 Hc Hb Hacts) as E.
        rewrite decide_False in E by congruence. lia.
Qed.

(** The loop of [backup] settles the account. *)
Lemma backup_fuel_accounted self rw rf : py_float rw = Ok rf ->
  forall f cur st,
  parents_below (nodes st) -> children_ok (nodes st) ->
  children_listed (nodes st) -> visits_accounted st cur ->
  (forall n, cur = Some n -> n < f) ->
  children_listed (nodes (backup_fuel self f cur rw st).2) /\
  visits_accounted (backup_fuel self f cur rw st).2 None.
Proof.
  intros Hrw.
  induction f as [|f IH]; intros [n|] st Hpb Hok Hli Hacc Hfuel;
    try (cbn [backup_fuel]; split; [exact Hli|exact Hacc]).
  { pose proof (Hfuel n eq_refl). lia. }
  destruct (nodes st !! n) as [nd|] eqn:Hn.
  - rewrite (backup_fuel_step _ _ _ _ _ _ _ Hn Hrw).
    destruct (shape_bump self rf (nodes st) n nd Hpb Hok Hli Hn)
      as (Hpb1 & Hok1 & Hli1).
    apply IH; try assumption.
    + apply (visits_accounted_bump self rf st n nd Hpb Hok Hli Hn Hacc).
    + intros p Hp. cbn [nodes set_nodes] in *.
      pose proof (Hpb n nd p Hn Hp). pose proof (Hfuel n eq_refl). lia.
  - assert (Hg : get_node n st = (Raise DanglingRef, st)).
    { unfold get_node. now rewrite Hn. }
    cbn [backup_fuel].
    rewrite (bind_raise _ _ _ _ _ Hg). cbn [snd]. split; [exact Hli|].
    destruct Hacc as [HA HB]. split.
    + intros m md Hm Hne. pose proof (HA m md Hm Hne) as E.
      destruct (decide (Some n = Some m)) as [[= ->]|_]; [congruence|].
      now rewrite decide_False by done.
    + intros m md b Hm Hc Hb Hacts. pose proof (HB m md b Hm Hc Hb Hacts) as E.
      destruct (decide (Some n = Some m)) as [[= ->]|_]; [congruence|].
      now rewrite decide_False by done.
Qed.

(** The node [extend] hands to the rollout, for a node without children:
    it has no children, and no visit unless its side cannot move. *)
Lemma extend_leaf self n st nd :
  nodes st !! n = Some nd -> children nd = [] ->
  now_board nd < length (boards st) ->
  exists leaf st' ld,
    extend self n st = (Ok leaf, st') /\
    nodes st' !! leaf = Some ld /\ children ld = [] /\
    (visits ld = 0 \/
     forall b, boards st' !! now_board ld = Some b ->
               get_legal_actions b (color ld) = []).
Proof.
  intros Hn Hc Hb. destruct (decide (visits nd = 0)) as [Hv|Hv].
  { exists n, st, nd. split; [now apply extend_unvisited with nd|]. auto. }
  destruct (lookup_lt_is_Some_2 _ _ Hb) as [b Hbb].
  destruct (decide (get_legal_actions b (color nd) = [])) as [Ha|Ha].
  { exists n, st, nd. split; [now apply extend_no_moves with nd b|].
    split; [done|]. split; [done|]. right. intros b' Hb'. congruence. }
  pose proof (lookup_lt_Some _ _ _ Hn) as Hlt.
  unfold extend.
  rewrite (bind_ok _ _ _ _ _ (get_node_ok _ _ _ Hn)).
  destruct (decide (visits nd = 0)); [done|].
  rewrite (bind_ok _ _ _ _ _ (board_get_legal_actions_ok _ _ _ _ Hbb)).
  rewrite (bind_ok _ _ _ _ _
             (extend_loop_run n (now_board nd) (color nd)
                (flip_color (color nd)) _ st nd b Hn Hbb)).
  erewrite bind_ok; cycle 1.
  { apply get_node_ok. cbn [nodes].
    rewrite lookup_app_l by (rewrite length_insert; lia).
    apply list_lookup_insert_eq. lia. }
  cbn [children with_children]. rewrite Hc. cbn [app].
  destruct (get_legal_actions b (color nd)) as [|a acts]; [done|].
  cbn [length seq].
  eexists _, _, _. split; [reflexivity|]. cbn [nodes]. split.
  { rewrite lookup_app_r by (rewrite length_insert; lia).
    rewrite length_insert, Nat.sub_diag. reflexivity. }
  cbn. auto.
Qed.

Lemma accounted_extend self n st nd :
  children_ok (nodes st) -> snapshots_ok st ->
  children_listed (nodes st) -> visits_accounted st None ->
  nodes st !! n = Some nd -> children nd = [] ->
  children_listed (nodes (extend self n st).2) /\
  visits_accounted (extend self n st).2 None.
Proof.
  intros Hok Hso [Hli Hnd] [HA HB] Hn Hc.
  destruct (extend_cases self n st)
    as [->|(nd' & b & Hn' & Hb & Hv & H1 & H2)]; [done|].
  assert (nd' = nd) by congruence. subst nd'.
  rewrite Hc in H1. cbn [app] in H1.
  set (acts := get_legal_actions b (color nd)) in *.
  set (cs := seq (length (nodes st)) (length acts)) in *.
  pose proof (lookup_lt_Some _ _ _ Hn) as Hlt.
  assert (Hinv := fun i x =>
    expanded_lookup_inv (nodes st) n nd cs (flip_color (color nd))
      (length (boards st)) acts i x Hn).
  assert (Hold := fun i x0 =>
    expanded_lookup_old (nodes st) n nd cs (flip_color (color nd))
      (length (boards st)) acts i x0 Hn).
  assert (Hvat : forall k kd, nodes st !! k = Some kd ->
            visits_at (nodes (extend self n st).2) k
            = visits_at (nodes st) k).
  { intros k kd Hk. unfold visits_at. rewrite H1, (Hold k kd Hk), Hk.
    now destruct (decide (k = n)). }
  assert (Hvnew : forall k, length (nodes st) <= k ->
            visits_at (nodes (extend self n st).2) k = 0).
  { intros k Hk. unfold visits_at. rewrite H1.
    match goal with |- match ?t with _ => _ end = _ =>
      destruct t as [x|] eqn:Hx end; [|done].
    destruct (Hinv k x Hx) as [(x0 & Hx0 & _)|(j & a & _ & _ & ->)]; [|done].
    apply lookup_lt_Some in Hx0. lia. }
  split; [split|split].
  - intros k kd p Hk Hp. rewrite H1 in Hk |- *.
    destruct (Hinv k kd Hk) as [(kd0 & Hkd0 & ->)|(j & a & -> & Ha & ->)].
    + assert (Hp0 : parent kd0 = Some p) by now destruct (decide (k = n)).
      destruct (Hli k kd0 p Hkd0 Hp0) as (pd & Hpd & Hin).
      rewrite (Hold p pd Hpd). eexists. split; [reflexivity|].
      destruct (decide (p = n)) as [->|]; [|done].
      assert (pd = nd) by congruence. subst pd.
      rewrite Hc in Hin. now apply elem_of_nil in Hin.
    + cbn in Hp. injection Hp as <-. rewrite (Hold n nd Hn).
      eexists. split; [reflexivity|]. rewrite decide_True by done.
      cbn [children with_children]. apply elem_of_seq.
      apply lookup_lt_Some in Ha. lia.
  - intros i x Hi. rewrite H1 in Hi.
    destruct (Hinv i x Hi) as [(x0 & Hx0 & ->)|(j & a & -> & Ha & ->)];
      [|apply NoDup_nil; done].
    destruct (decide (i = n)); [apply NoDup_seq|now apply (Hnd i x0)].
  - intros m md Hm Hne. rewrite decide_False by done. rewrite Nat.add_0_r.
    rewrite H1 in Hm.
    destruct (Hinv m md Hm) as [(x0 & Hx0 & ->)|(j & a & -> & Ha & ->)];
      [|done].
    destruct (decide (m = n)) as [->|Hmn].
    + assert (x0 = nd) by congruence. subst x0.
      cbn [children visits with_children] in *.
      rewrite visits_of_zero.
      2:{ intros k Hk. apply elem_of_seq in Hk. apply Hvnew. lia. }
      assert (Hacts : acts <> []).
      { intros E. unfold cs in Hne. rewrite E in Hne. now cbn in Hne. }
      pose proof (HB n nd b Hn Hc Hb Hacts) as E.
      rewrite decide_False in E by done. lia.
    + rewrite (visits_of_ext (nodes st)).
      2:{ intros k Hk. destruct (Hok m x0 k Hx0 Hk) as (_ & kd & Hkd & _).
          now apply (Hvat k kd). }
      pose proof (HA m x0 Hx0 Hne) as E.
      rewrite decide_False in E by done. lia.
  - intros m md b' Hm Hcm Hb' Hacts. rewrite decide_False by done.
    rewrite H1 in Hm. rewrite H2 in Hb'.
    destruct (Hinv m md Hm) as [(x0 & Hx0 & ->)|(j & a & -> & Ha & ->)];
      [|cbn; lia].
    pose proof (Hso m x0 Hx0) as Hlb.
    assert (Hb0 : boards st !! now_board x0 = Some b').
    { destruct (decide (m = n)); cbn [now_board with_children] in Hb';
        now rewrite lookup_app_l in Hb' by lia. }
    destruct (decide (m = n)) as [->|Hmn].
    + assert (x0 = nd) by congruence. subst x0.
      cbn [children color with_children] in *.
      assert (b' = b) by congruence. subst b'.
      unfold cs in Hcm. fold acts in Hacts.
      destruct acts; [done|]. now cbn in Hcm.
    + pose proof (HB m x0 b' Hx0 Hcm Hb0 Hacts) as E.
      rewrite decide_False in E by done. lia.
Qed.

Lemma accounted_stimulate self n st :
  snapshots_ok st -> visits_accounted st None ->
  visits_accounted (stimulate self n st).2 None.
Proof.
  intros Hso [HA HB]. destruct (stimulate_cases self n st) as [H1 [ext H2]].
  unfold visits_accounted. rewrite H1, H2. split; [exact HA|].
  intros m md b Hm Hc Hb. pose proof (Hso m md Hm).
  rewrite lookup_app_l in Hb by lia. now apply (HB m md b).
Qed.

Lemma accounted_uct_iteration self root0 base root :
  @keeps Board Action _
    (fun st => tree_ok base root st /\ children_listed (nodes st) /\
               visits_accounted st None)
    (uct_iteration self root0).
Proof.
  intros st (Ht & Hli & Hacc).
  split; [now apply tree_ok_uct_iteration|]. unfold uct_iteration.
  pose proof (read_only_select self root0 st) as Hro.
  destruct (select self root0 st) as [[[sel|]|e] s0] eqn:Hsel;
    cbn [snd] in Hro; subst s0.
  2:{ now rewrite (bind_ok _ _ _ _ _ Hsel). }
  2:{ now rewrite (bind_raise _ _ _ _ _ Hsel). }
  rewrite (bind_ok _ _ _ _ _ Hsel).
  pose proof Ht as [(Hpb & Hok & _) (Hso & _ & Hun & _)].
  destruct (select_fuel_childless self st Hun _ _ _ _ Hsel)
    as (sd & Hsd & Hc).
  destruct (accounted_extend self sel st sd Hok Hso Hli Hacc Hsd Hc)
    as [Hli1 Hacc1].
  pose proof (tree_ok_extend self sel base root st Ht) as Ht1.
  destruct (extend_leaf self sel st sd Hsd Hc (Hso _ _ Hsd))
    as (leaf & st1 & ld & E1 & Hld & Hcl & Hleaf).
  rewrite E1 in Hli1, Hacc1, Ht1. cbn [snd] in Hli1, Hacc1, Ht1.
  rewrite (bind_ok _ _ _ _ _ E1).
  pose proof Ht1 as [(Hpb1 & Hok1 & _) (Hso1 & _)].
  pose proof (accounted_stimulate self leaf st1 Hso1 Hacc1) as Hacc2.
  destruct (stimulate_cases self leaf st1) as [Hn2 [ext Hb2]].
  destruct (stimulate self leaf st1) as [[rw|e] st2] eqn:E2;
    cbn [snd] in Hacc2, Hn2, Hb2.
  2:{ rewrite (bind_raise _ _ _ _ _ E2). cbn [snd]. now rewrite Hn2. }
  rewrite (bind_ok _ _ _ _ _ E2).
  destruct (stimulate_converts self leaf st1 rw st2 E2) as [rf Hrf].
  assert (Hbk : children_listed (nodes (backup self leaf rw st2).2) /\
                visits_accounted (backup self leaf rw st2).2 None).
  { unfold backup.
    apply (backup_fuel_accounted self rw rf Hrf); rewrite ?Hn2; try done.
    - destruct Hacc2 as [HA HB]. split.
      + intros m md Hm Hne. pose proof (HA m md Hm Hne) as E.
        rewrite decide_False in E by done.
        destruct (decide (Some leaf = Some m)) as [[= <-]|_]; [|exact E].
        rewrite Hn2 in Hm. congruence.
      + intros m md b Hm Hcm Hb Hacts.
        pose proof (HB m md b Hm Hcm Hb Hacts) as E.
        rewrite decide_False in E by done.
        destruct (decide (Some leaf = Some m)) as [[= <-]|_]; [|exact E].
        rewrite Hn2 in Hm. assert (md = ld) by congruence. subst md.
        destruct Hleaf as [Hz|Hno]; [lia|].
        pose proof (Hso1 leaf ld Hld).
        rewrite Hb2, lookup_app_l in Hb by lia.
        now rewrite (Hno b Hb) in Hacts.
    - intros n [= <-]. now apply lookup_lt_Some in Hld. }
  destruct (backup self leaf rw st2) as [[z|e] st3] eqn:E3; cbn [snd] in Hbk.
  - now rewrite (bind_ok _ _ _ _ _ E3).
  - now rewrite (bind_raise _ _ _ _ _ E3).
Qed.

Lemma accounted_uct_loop self root0 base root k :
  @keeps Board Action _
    (fun st => tree_ok base root st /\ children_listed (nodes st) /\
               visits_accounted st None)
    (uct_loop self k root0).
Proof.
  induction k as [|k IH]; cbn [uct_loop].
  - apply keeps_read_only, read_only_ret.
  - apply keeps_bind; [apply accounted_uct_iteration|]. now intros _.
Qed.

(** X16: the visits are accounted for all along a search on a fresh
    arena: a node with children has exactly one visit more than its
    children together (its own rollout, before it was expanded), every
    node with a parent is listed once among the children of that parent,
    and a node without children has at most one visit, unless its side
    has no legal move. *)
Theorem search_prefix_visits_accounted self l k st b :
  nodes st = [] -> boards st !! l = Some b ->
  children_listed (nodes (search_prefix self l k st).2) /\
  forall m md, nodes (search_prefix self l k st).2 !! m = Some md ->
    (children md <> [] ->
     visits md
     = 1 + visits_of (nodes (search_prefix self l k st).2) (children md)) /\
    (children md = [] ->
     forall b', boards (search_prefix self l k st).2 !! now_board md = Some b' ->
       get_legal_actions b' (color md) <> [] -> visits md <= 1).
Proof.
  intros Hn Hb.
  assert (Hrun : search_prefix self l k st =
            uct_loop self k 0
              {| nodes := [fresh_root (length (boards st)) (ai_color self)];
                 boards := boards st ++ [b]; rng := rng st;
                 move_log := move_log st |}).
  { unfold search_prefix.
    rewrite (bind_ok _ _ _ _ _ (deepcopy_ok _ _ _ Hb)).
    unfold bind at 1. unfold new_node at 1. unfold set_nodes.
    cbn beta iota delta [nodes boards rng move_log]. now rewrite Hn. }
  rewrite Hrun.
  destruct (accounted_uct_loop self 0 (length (boards st)) 0 k
              {| nodes := [fresh_root (length (boards st)) (ai_color self)];
                 boards := boards st ++ [b]; rng := rng st;
                 move_log := move_log st |})
    as (_ & Hli & HA & HB).
  { split; [apply tree_ok_initial|]. split; [split|split]; cbn [nodes].
    - intros i x p Hi Hp.
      apply list_lookup_singleton_Some in Hi as [_ <-]. discriminate.
    - intros i x Hi. apply list_lookup_singleton_Some in Hi as [_ <-].
      apply NoDup_nil. done.
    - intros i x Hi Hne.
      apply list_lookup_singleton_Some in Hi as [_ <-]. done.
    - intros i x b' Hi _ _ _.
      apply list_lookup_singleton_Some in Hi as [_ <-].
      rewrite decide_False by done. cbn. lia. }
  split; [exact Hli|]. intros m md Hm. split.
  - intros Hne. pose proof (HA m md Hm Hne) as E.
    rewrite decide_False in E by done. lia.
  - intros Hc b' Hb' Hacts. pose proof (HB m md b' Hm Hc Hb' Hacts) as E.
    rewrite decide_False in E by done. lia.
Qed.

End MoreProofs.

(** * Properties of [HumanPlayer] *)

Section HumanProofs.

Context {Board : Type} `{HPos : Position Board string}.

Lemma coordinates_not_quit (s : string) :
  coordinates s = true -> s <> "Q" /\ s <> "q".
Proof. intros H. split; intros ->; discriminate. Qed.

(** A line that is passed over leaves the call where it was. *)
Lemma HumanPlayer_get_move_pass (self : HumanPlayer) (b : Board) s rest :
  passed_over self b s = true ->
  HumanPlayer_get_move self b (s :: rest) = HumanPlayer_get_move self b rest.
Proof.
  unfold passed_over. intros H.
  apply andb_true_iff in H as [H Hrej].
  apply andb_true_iff in H as [H Hlen].
  apply andb_true_iff in H as [HQ Hq].
  apply negb_true_iff in HQ, Hq, Hrej. apply Nat.leb_le in Hlen.
  cbn [HumanPlayer_get_move]. rewrite HQ, Hq. cbn [orb].
  destruct s as [|c [|r t]]; [cbn in Hlen; lia..|].
  unfold str_index, coordinates in *. cbn [String.get] in *.
  destruct (char_in (upper r) "12345678" && char_in (upper c) "ABCDEFGH");
    [|reflexivity].
  cbn [andb] in Hrej. now rewrite Hrej.
Qed.

Lemma HumanPlayer_get_move_skip (self : HumanPlayer) (b : Board) skipped :
  Forall (fun s => passed_over self b s = true) skipped ->
  forall rest,
    HumanPlayer_get_move self b (skipped ++ rest)
    = HumanPlayer_get_move self b rest.
Proof.
  induction 1 as [|s skipped Hs _ IH]; intros rest; [reflexivity|].
  cbn [app]. rewrite (HumanPlayer_get_move_pass self b s _ Hs). apply IH.
Qed.

(** X13: whatever [HumanPlayer.get_move] returns is "Q", after a line "Q"
    or "q", or the line read last, as it was typed, and then that line
    starts with a column letter and a row digit and is a member of the
    legal actions of the player's side; every line read before was passed
    over, and the lines after it are not read. *)
Theorem HumanPlayer_get_move_returns (self : HumanPlayer) (b : Board)
    lines r rest :
  HumanPlayer_get_move self b lines = (Returns r, rest) ->
  exists skipped line,
    lines = skipped ++ line :: rest /\
    Forall (fun s => passed_over self b s = true) skipped /\
    (((line = "Q" \/ line = "q") /\ r = "Q") \/
     (r = line /\ coordinates line = true /\
      line ∈ get_legal_actions b (human_color self))).
Proof.
  induction lines as [|s lines IH]; intros H; [discriminate|].
  cbn [HumanPlayer_get_move] in H.
  destruct (bool_decide (s = "Q")) eqn:HQ.
  { apply bool_decide_eq_true in HQ. cbn [orb] in H. injection H as <- <-.
    exists [], s. split; [reflexivity|]. split; [constructor|]. left. auto. }
  destruct (bool_decide (s = "q")) eqn:Hq.
  { apply bool_decide_eq_true in Hq. cbn [orb] in H. injection H as <- <-.
    exists [], s. split; [reflexivity|]. split; [constructor|]. left. auto. }
  cbn [orb] in H.
  destruct s as [|c [|r0 t]]; [discriminate..|].
  unfold str_index in H. cbn [String.get] in H.
  set (s := String c (String r0 t)) in *.
  assert (Hco : coordinates s
                = char_in (upper r0) "12345678" && char_in (upper c) "ABCDEFGH")
    by reflexivity.
  destruct (bool_decide (s ∈ get_legal_actions b (human_color self))) eqn:Hin.
  - destruct (char_in (upper r0) "12345678" && char_in (upper c) "ABCDEFGH").
    + injection H as <- <-. exists [], s. split; [reflexivity|].
      split; [constructor|].
      right. apply bool_decide_eq_true in Hin. auto.
    + destruct (IH H) as (skipped & line & -> & Hsk & Hline).
      exists (s :: skipped), line. split; [done|]. split; [|done].
      constructor; [|done]. unfold passed_over.
      now rewrite HQ, Hq, Hco.
  - assert (H' : HumanPlayer_get_move self b lines = (Returns r, rest)).
    { now destruct (char_in (upper r0) "12345678"
                    && char_in (upper c) "ABCDEFGH"). }
    destruct (IH H') as (skipped & line & -> & Hsk & Hline).
    exists (s :: skipped), line. split; [done|]. split; [|done].
    constructor; [|done]. unfold passed_over.
    rewrite HQ, Hq, Hin, andb_false_r. reflexivity.
Qed.

(** X14: what the next line does after any number of lines that were
    passed over: a legal move with coordinates is returned as typed, "Q"
    and "q" return "Q", a line of fewer than two characters other than
    these raises [IndexError] on [action[1]], and at the end of the input
    [input] fails; in each case the lines behind are left unread.  Lines
    that are passed over, with or without a message, change nothing. *)
Theorem HumanPlayer_get_move_next (self : HumanPlayer) (b : Board)
    skipped :
  Forall (fun s => passed_over self b s = true) skipped ->
  HumanPlayer_get_move self b skipped = (EndOfInput, []) /\
  (forall rest,
     HumanPlayer_get_move self b (skipped ++ "Q" :: rest)
     = (Returns "Q", rest) /\
     HumanPlayer_get_move self b (skipped ++ "q" :: rest)
     = (Returns "Q", rest)) /\
  (forall line rest,
     coordinates line = true ->
     line ∈ get_legal_actions b (human_color self) ->
     HumanPlayer_get_move self b (skipped ++ line :: rest)
     = (Returns line, rest)) /\
  (forall line rest,
     line <> "Q" -> line <> "q" -> String.length line < 2 ->
     HumanPlayer_get_move self b (skipped ++ line :: rest)
     = (Fails IndexError, rest)).
Proof.
  intros Hsk.
  pose proof (HumanPlayer_get_move_skip self b skipped Hsk) as Hskip.
  split; [|split; [|split]].
  - rewrite <- (app_nil_r skipped). now rewrite Hskip.
  - intros rest. now rewrite !Hskip.
  - intros line rest Hco Hin. rewrite Hskip.
    destruct (coordinates_not_quit line Hco) as [HQ Hq].
    cbn [HumanPlayer_get_move].
    rewrite (bool_decide_eq_false_2 _ HQ), (bool_decide_eq_false_2 _ Hq).
    cbn [orb]. destruct line as [|c [|r t]]; [discriminate..|].
    unfold str_index, coordinates in *. cbn [String.get] in *.
    rewrite Hco. now rewrite (bool_decide_eq_true_2 _ Hin).
  - intros line rest HQ Hq Hlen. rewrite Hskip.
    cbn [HumanPlayer_get_move].
    rewrite (bool_decide_eq_false_2 _ HQ), (bool_decide_eq_false_2 _ Hq).
    cbn [orb]. destruct line as [|c [|r t]]; [reflexivity..|].
    cbn in Hlen. lia.
Qed.

End HumanProofs.

(** * The engine on concrete positions *)

(** The runs below use the logarithm of the table. *)
#[global] Existing Instance libm_table.

(** Witness of C1 (amended): the engine of black on a finished game. *)
Lemma get_move_without_legal_move_witness :
  exists res st' rd,
    get_move (AIPlayer_init X) 0
      (Reversi.caller_state Reversi.black_wins_board []) = (res, st') /\
    (forall a, res <> Ok (Some a)) /\
    nodes st' !! 0 = Some rd /\
    children rd = [] /\ visits rd = 50.
Proof.
  apply (get_move_without_legal_move (AIPlayer_init X) 0
           (Reversi.caller_state Reversi.black_wins_board [])
           Reversi.black_wins_board); reflexivity.
Defined.

(** C1, as stated, fails: on a finished game (no side has a move) the
    decision does not report that no move is available, it raises
    [AttributeError] on [max_node.action]; and it has run 50 iterations by
    then, not zero: the root has been visited 50 times. *)
Lemma get_move_terminal_counterexample :
  let b := Reversi.black_wins_board in
  let r := get_move (AIPlayer_init X) 0 (Reversi.caller_state b []) in
  get_legal_actions b X = [] /\ get_legal_actions b O = [] /\
  r.1 = Raise AttributeError /\ r.1 <> Ok None /\
  visits <$> nodes r.2 !! 0 = Some 50.
Proof. vm_compute. repeat split; congruence. Qed.

(** C2 fails on the code: black wins the finished game [black_wins_board]
    by 16 and white wins [white_wins_board] by 16, yet the engine of the
    winning colour gets the reward -26 and the engine of the losing colour
    +26. *)
Theorem stimulate_reward_sign_inverted :
  Reversi.winner Reversi.black_wins_board = (0, 16)%Z /\
  Reversi.winner Reversi.white_wins_board = (1, 16)%Z /\
  (stimulate (AIPlayer_init X) 0
     (Reversi.root_state X Reversi.black_wins_board [])).1 = Ok (-26)%Z /\
  (stimulate (AIPlayer_init O) 0
     (Reversi.root_state O Reversi.white_wins_board [])).1 = Ok (-26)%Z /\
  (stimulate (AIPlayer_init X) 0
     (Reversi.root_state X Reversi.white_wins_board [])).1 = Ok 26%Z /\
  (stimulate (AIPlayer_init O) 0
     (Reversi.root_state O Reversi.black_wins_board [])).1 = Ok 26%Z.
Proof. vm_compute. repeat split. Qed.

(** C3 fails on the code: in the rollout from the opening position with
    black to move (every draw 0), black plays (2, 3), white answers (2, 4),
    and the third move handed to [_move] is (2, 3) for black again, taken
    from the legal moves of the node's position; on the rollout board that
    square is taken and (2, 3) is not a legal move of black. *)
Theorem stimulate_applies_illegal_move :
  let st' := (stimulate (AIPlayer_init X) 0
                (Reversi.root_state X Reversi.initial_board [])).2 in
  exists b,
    move_log st' !! 2 = Some (b, (2, 3)%Z, X) /\
    Reversi.cell b 2 3 = Some X /\
    (2, 3)%Z ∈ get_legal_actions Reversi.initial_board X /\
    (2, 3)%Z ∉ get_legal_actions b X.
Proof.
  eexists. split; [vm_compute; reflexivity|].
  split; [vm_compute; reflexivity|].
  split.
  - apply (bool_decide_unpack _). vm_compute. exact I.
  - intros Hin. apply (bool_decide_pack _) in Hin. vm_compute in Hin.
    exact Hin.
Qed.

(** Witness of C4: the rollout from the opening position. *)
Lemma stimulate_total_witness :
  exists rw st' plies,
    stimulate (AIPlayer_init X) 0
      (Reversi.root_state X Reversi.initial_board []) = (Ok rw, st') /\
    move_log st' = [] ++ plies /\
    length plies <= 50 /\
    (forall b0, [Reversi.initial_board; Reversi.initial_board] !! 1 = Some b0 ->
       Forall (fun e => e.1.2 ∈ get_legal_actions b0 e.2) plies /\
       (~ has_move b0 -> plies = [])).
Proof.
  apply (stimulate_total (AIPlayer_init X) 0
           (Reversi.root_state X Reversi.initial_board [])
           (Reversi.root_node X)); [reflexivity|].
  eexists; reflexivity.
Defined.

(** Witness of C7 (amended): the visited root on the opening position has
    no children and four legal moves; [extend] creates the nodes 1 to 4
    and returns node 1, the first of them. *)
Lemma extend_spec_witness :
  exists st',
    extend (AIPlayer_init X) 0 Reversi.visited_state = (Ok 1, st') /\
    length (nodes st') = 5 /\ length (boards st') = 6.
Proof.
  destruct (extend_spec (AIPlayer_init X) 0 Reversi.visited_state
              Reversi.visited_root Reversi.initial_board eq_refl eq_refl)
    as [_ H].
  destruct H as (st' & H1 & H2 & H3); [discriminate|].
  exists st'. split; [exact H1|]. rewrite H2, H3. split; reflexivity.
Defined.

(** C7, as stated, fails: the root of [expanded_state] has been visited
    once, has the children 1 to 4 and four legal moves.  [extend] creates
    the nodes 5 to 8 for them and returns node 1, which was there before
    the call: it is not the first created child (node 5). *)
Lemma extend_expanded_counterexample :
  let st := Reversi.expanded_state in
  let r := extend (AIPlayer_init X) 0 st in
  (visits <$> nodes st !! 0) = Some 1 /\
  (children <$> nodes st !! 0) = Some [1; 2; 3; 4] /\
  length (nodes st) = 5 /\
  r.1 = Ok 1 /\
  (children <$> nodes r.2 !! 0) = Some [1; 2; 3; 4; 5; 6; 7; 8] /\
  length (nodes r.2) = 9.
Proof. vm_compute. repeat split. Qed.

(** Witness of C8: backing up the reward 2 ^ 53 + 1 from node 3 of
    [expanded_state], a child of the root.  The reward converts to the
    float 2 ^ 53: that is what the root, which had the reward 0.0, holds
    afterwards, and node 3, of the other colour, holds its negative. *)
Lemma backup_spec_witness :
  exists st',
    backup (AIPlayer_init X) 3 (2 ^ 53 + 1) Reversi.expanded_state
    = (Ok 0%Z, st') /\
    boards st' = boards Reversi.expanded_state /\
    reward <$> nodes st' !! 0 = Some (S754_finite false 4503599627370496 1) /\
    reward <$> nodes st' !! 3 = Some (S754_finite true 4503599627370496 1) /\
    visits <$> nodes st' !! 0 = Some 2 /\ visits <$> nodes st' !! 3 = Some 1 /\
    nodes st' !! 1 = nodes Reversi.expanded_state !! 1.
Proof.
  assert (Hrw : py_float (2 ^ 53 + 1)
                = Ok (S754_finite false 4503599627370496 1)).
  { vm_compute. reflexivity. }
  assert (Hpb : parents_below (nodes Reversi.expanded_state)).
  { apply parents_below_check. vm_compute. reflexivity. }
  assert (Hlt : 3 < length (nodes Reversi.expanded_state)).
  { vm_compute. lia. }
  destruct (backup_spec (AIPlayer_init X) 3 (2 ^ 53 + 1) _
              Reversi.expanded_state Hrw Hpb Hlt)
    as (st' & H1 & H2 & _ & _ & _ & _ & _ & H3).
  exists st'. split; [exact H1|]. split; [exact H2|].
  destruct (nodes Reversi.expanded_state !! 0) as [x0|] eqn:E0;
    [|vm_compute in E0; discriminate].
  destruct (nodes Reversi.expanded_state !! 3) as [x3|] eqn:E3;
    [|vm_compute in E3; discriminate].
  destruct (nodes Reversi.expanded_state !! 1) as [x1|] eqn:E1;
    [|vm_compute in E1; discriminate].
  rewrite (H3 0 x0 E0), (H3 3 x3 E3), (H3 1 x1 E1).
  vm_compute in E0. vm_compute in E3. vm_compute in E1.
  injection E0 as <-. injection E3 as <-. injection E1 as <-.
  vm_compute. repeat split.
Defined.

(** Witness of C9: [expanded_state] is reached from a fresh root by one
    [backup] and one [extend]. *)
Lemma reachable_tree_inv_witness :
  tree_inv (nodes Reversi.expanded_state).
Proof.
  apply (reachable_tree_inv (AIPlayer_init X)).
  unfold Reversi.expanded_state. apply reach_extend, reach_backup.
  exact (reach_root (AIPlayer_init X) 1 X
           [Reversi.initial_board; Reversi.initial_board] [] []).
Defined.



(** Witness of C6: the four children of the root of [searched_state] are
    visited and have the same score; [select] goes on from the first. *)
Lemma select_spec_witness :
  first_max_child (ucb_param (AIPlayer_init X)) Reversi.searched_state
    Reversi.searched_root 1 /\
  select (AIPlayer_init X) 0 Reversi.searched_state
  = select (AIPlayer_init X) 1 Reversi.searched_state.
Proof.
  assert (Hok : children_ok (nodes Reversi.searched_state)).
  { apply children_ok_check. vm_compute. reflexivity. }
  assert (Hvis : visits_ok (nodes Reversi.searched_state)).
  { apply visits_ok_check. vm_compute. reflexivity. }
  assert (Hn : nodes Reversi.searched_state !! 0 = Some Reversi.searched_root).
  { vm_compute. reflexivity. }
  assert (H1 : nodes Reversi.searched_state !! 1
               = Some (Reversi.searched_child 3 (2, 3)%Z)).
  { vm_compute. reflexivity. }
  assert (H2 : nodes Reversi.searched_state !! 2
               = Some (Reversi.searched_child 4 (3, 2)%Z)).
  { vm_compute. reflexivity. }
  assert (H3 : nodes Reversi.searched_state !! 3
               = Some (Reversi.searched_child 5 (4, 5)%Z)).
  { vm_compute. reflexivity. }
  assert (H4 : nodes Reversi.searched_state !! 4
               = Some (Reversi.searched_child 6 (5, 4)%Z)).
  { vm_compute. reflexivity. }
  revert Hok Hvis Hn H1 H2 H3 H4. generalize Reversi.searched_state.
  intros st Hok Hvis Hn H1 H2 H3 H4.
  destruct (select_spec (AIPlayer_init X) st 0
              Reversi.searched_root Hok Hvis Hn) as (_ & _ & H & _).
  destruct H as [_ [(w & Hw & _ & Hsel)|[Hnone _]]].
  - discriminate.
  - intros k kd Hk Hkd. cbn [children Reversi.searched_root] in Hk.
    repeat (apply elem_of_cons in Hk as [->|Hk]);
      [| | | |now apply elem_of_nil in Hk];
      rewrite ?H1, ?H2, ?H3, ?H4 in Hkd; injection Hkd as <-; discriminate.
  - reflexivity.
  - assert (w = 1) as ->; [|split; [exact Hw|exact Hsel]].
    destruct Hw as (i & Hi & _ & Hlt).
    destruct i as [|i]; [cbn in Hi; congruence|].
    specialize (Hlt 0 1 (Nat.lt_0_succ i) eq_refl).
    unfold py_nan, child_score in Hlt. rewrite H1 in Hlt.
    cbn [children Reversi.searched_root] in Hi.
    destruct i as [|[|[|i]]]; cbn in Hi; [| | |discriminate];
      injection Hi as <-; rewrite ?H2, ?H3, ?H4 in Hlt;
      vm_compute in Hlt; destruct Hlt; discriminate.
  - exfalso. specialize (Hnone 1). unfold child_score in Hnone.
    rewrite H1 in Hnone. cbn [children Reversi.searched_root] in Hnone.
    specialize (Hnone ltac:(apply elem_of_cons; now left)).
    vm_compute in Hnone. discriminate.
Defined.

(** ** More runs on concrete positions *)

Lemma expanded_state_well_formed :
  well_formed (nodes Reversi.expanded_state).
Proof.
  split; [|split].
  - apply parents_below_check. vm_compute. reflexivity.
  - apply children_ok_check. vm_compute. reflexivity.
  - apply visits_ok_check. vm_compute. reflexivity.
Qed.

(** Witness of X1: the root of [expanded_state] has four children, none of
    them visited. *)
Lemma full_expanded_iff_witness :
  full_expanded 0 Reversi.expanded_state = (Ok false, Reversi.expanded_state).
Proof.
  destruct (full_expanded_iff 0 Reversi.expanded_state Reversi.expanded_root)
    as (fe & H & _ & Hiff).
  - vm_compute. reflexivity.
  - intros k Hk. cbn [children Reversi.expanded_root] in Hk.
    repeat (apply elem_of_cons in Hk as [->|Hk]);
      [| | | |now apply elem_of_nil in Hk]; vm_compute; eexists; reflexivity.
  - destruct fe; [|exact H]. destruct (proj1 Hiff eq_refl) as [_ Hall].
    exfalso. apply (Hall 1 Reversi.first_child).
    + apply elem_of_cons. now left.
    + vm_compute. reflexivity.
    + reflexivity.
Defined.

(** Witness of X2: a fifth child for the root of [expanded_state]. *)
Lemma add_child_well_formed_witness :
  exists st',
    add_child 0 1 (0, 0)%Z O Reversi.expanded_state = (Ok tt, st') /\
    well_formed (nodes st') /\
    boards st' = boards Reversi.expanded_state.
Proof.
  destruct (add_child_well_formed 0 1 (0, 0)%Z O Reversi.expanded_state
              Reversi.expanded_root expanded_state_well_formed)
    as (st' & nd' & H1 & H2 & H3).
  - vm_compute. reflexivity.
  - exists st'. split; [exact H1|]. split; [exact H2|].
    apply H3.
Defined.

(** Witness of X3: the random player of white on the opening position. *)
Lemma RandomPlayer_get_move_spec_witness :
  exists r st',
    RandomPlayer_get_move (mkRandomPlayer O) 0
      (Reversi.caller_state Reversi.initial_board [3]) = (Ok r, st') /\
    boards st' = [Reversi.initial_board] /\
    (forall a, r = Some a -> a ∈ get_legal_actions Reversi.initial_board O).
Proof.
  destruct (RandomPlayer_get_move_spec (mkRandomPlayer O) 0
              (Reversi.caller_state Reversi.initial_board [3])
              Reversi.initial_board eq_refl)
    as (r & st' & H1 & _ & H2 & _ & _ & H3).
  exists r, st'. split; [exact H1|]. split; [exact H2|exact H3].
Defined.

(** Witness of X4: the rollout of black on a finished game that black has
    won by 16. *)
Lemma stimulate_finished_position_witness :
  (stimulate (AIPlayer_init X) 0
     (Reversi.root_state X Reversi.black_wins_board [])).1 = Ok (-26)%Z.
Proof.
  destruct (stimulate_finished_position (AIPlayer_init X) 0
              (Reversi.root_state X Reversi.black_wins_board [])
              (Reversi.root_node X) Reversi.black_wins_board)
    as [_ H]; [reflexivity..|].
  rewrite H. reflexivity.
Defined.

(** Witness of X6: a search of one iteration on the opening position. *)
Lemma get_move_too_few_iterations_witness :
  exists st' rd,
    get_move {| max_times := 1; ucb_param := float_1_5; ai_color := X |} 0
      (Reversi.caller_state Reversi.initial_board [])
    = (Raise AttributeError, st') /\
    nodes st' !! 0 = Some rd /\ children rd = [] /\ visits rd = 1.
Proof.
  apply (get_move_too_few_iterations
           {| max_times := 1; ucb_param := float_1_5; ai_color := X |} 0
           (Reversi.caller_state Reversi.initial_board [])
           Reversi.initial_board); [cbn; lia|reflexivity].
Defined.

(** Witness of X7: the engine of black on the opening position. *)
Lemma get_move_outcome_witness :
  let st := Reversi.caller_state Reversi.initial_board [] in
  (exists a st' rd,
     get_move (AIPlayer_init X) 0 st = (Ok (Some a), st') /\
     a ∈ get_legal_actions Reversi.initial_board X /\
     nodes st' !! 0 = Some rd /\ visits rd = 50) \/
  (exists st',
     get_move (AIPlayer_init X) 0 st = (Raise AttributeError, st') /\
     (50 <= 1 \/ get_legal_actions Reversi.initial_board X = [] \/
      stuck float_1_5 st')).
Proof.
  apply (get_move_outcome (AIPlayer_init X) 0
           (Reversi.caller_state Reversi.initial_board [])
           Reversi.initial_board); reflexivity.
Defined.

(** Witness of X8: three iterations of black on the opening position. *)
Lemma search_prefix_tree_ok_witness :
  let st' := (search_prefix (AIPlayer_init X) 0 3
                (Reversi.caller_state Reversi.initial_board [])).2 in
  tree_ok 1 0 st' /\
  forall n nd, nodes st' !! n = Some nd -> now_board nd <> 0.
Proof.
  apply (search_prefix_tree_ok (AIPlayer_init X) 0 3
           (Reversi.caller_state Reversi.initial_board [])
           Reversi.initial_board); reflexivity.
Defined.

(** Reversi is counted on 64 squares, so that no side leads by more than
    64 stones and no rollout is rewarded with more than 74. *)
Lemma count_bounds (b : Reversi.Board) c : (0 <= Reversi.count b c <= 64)%Z.
Proof.
  unfold Reversi.count. split; [lia|].
  apply (Nat2Z.inj_le _ 64).
  etrans; [apply length_filter|]. rewrite length_take. lia.
Qed.

Lemma reversi_margin_ok : margin_ok (fun _ : Reversi.Board => True) 74.
Proof.
  split; [done|].
  intros b _. cbn [get_winner Reversi.position]. unfold Reversi.winner.
  pose proof (count_bounds b X). pose proof (count_bounds b O).
  destruct (Reversi.count b O <? Reversi.count b X)%Z; [cbn [snd]; lia|].
  destruct (Reversi.count b X <? Reversi.count b O)%Z; cbn [snd]; lia.
Qed.

(** Witness of X9: the engine of black on the opening position returns a
    legal move after 50 visits of the root, whatever the draws. *)
Lemma get_move_returns_move_witness :
  exists a st' rd,
    get_move (AIPlayer_init X) 0
      (Reversi.caller_state Reversi.initial_board [2; 0; 1])
    = (Ok (Some a), st') /\
    a ∈ get_legal_actions Reversi.initial_board X /\
    nodes st' !! 0 = Some rd /\ visits rd = 50.
Proof.
  apply (get_move_returns_move (fun _ : Reversi.Board => True) 74
           reversi_margin_ok (AIPlayer_init X) 0
           (Reversi.caller_state Reversi.initial_board [2; 0; 1])
           Reversi.initial_board).
  - exact I.
  - cbn [max_times AIPlayer_init]. lia.
  - cbn [max_times AIPlayer_init]. lia.
  - cbn [max_times AIPlayer_init]. lia.
  - reflexivity.
  - done.
  - reflexivity.
  - vm_compute. discriminate.
Defined.

(** Witness of X15: three iterations of black on the opening position;
    the reward sum of every node is an integer within 74 per visit. *)
Lemma search_prefix_rewards_within_witness :
  let st' := (search_prefix (AIPlayer_init X) 0 3
                (Reversi.caller_state Reversi.initial_board [])).2 in
  boards_good (fun _ : Reversi.Board => True) st' /\
  forall n nd, nodes st' !! n = Some nd ->
    (74 * Z.of_nat (visits nd) < 2 ^ 53)%Z ->
    exists r : Z,
      reward nd = Z2float r /\
      (- 74 * Z.of_nat (visits nd) <= r <= 74 * Z.of_nat (visits nd))%Z.
Proof.
  apply (search_prefix_rewards_within (fun _ : Reversi.Board => True) 74
           reversi_margin_ok (AIPlayer_init X) 0 3
           (Reversi.caller_state Reversi.initial_board [])
           Reversi.initial_board).
  - reflexivity.
  - done.
  - reflexivity.
Defined.

(** Witness of X10: [select] on the root of [expanded_state] returns its
    first child, which has no children. *)
Lemma select_returns_childless_witness :
  exists kd, nodes Reversi.expanded_state !! 1 = Some kd /\ children kd = [].
Proof.
  apply (select_returns_childless (AIPlayer_init X) Reversi.expanded_state
           0 1 Reversi.expanded_state).
  - unfold Reversi.expanded_state. apply reach_extend, reach_backup.
    exact (reach_root (AIPlayer_init X) 1 X
             [Reversi.initial_board; Reversi.initial_board] [] []).
  - vm_compute. reflexivity.
Defined.

(** Witness of X11: the last loop of [uct] on [expanded_state], where no
    child of the root has a visit: every child scores [sys.maxsize] and
    the move of the first one is returned. *)
Lemma uct_decide_first_max_witness :
  exists w wd,
    uct_decide (AIPlayer_init X) 0 Reversi.expanded_state
    = (Ok (action wd), Reversi.expanded_state) /\
    nodes Reversi.expanded_state !! w = Some wd /\
    first_max (final_score (ucb_param (AIPlayer_init X))
                 Reversi.expanded_state Reversi.expanded_root)
      (children Reversi.expanded_root) w.
Proof.
  destruct expanded_state_well_formed as (_ & Hok & Hvis).
  assert (Hn : nodes Reversi.expanded_state !! 0
               = Some Reversi.expanded_root) by (vm_compute; reflexivity).
  assert (H1 : nodes Reversi.expanded_state !! 1
               = Some Reversi.first_child) by (vm_compute; reflexivity).
  destruct (uct_decide_first_max (AIPlayer_init X) Reversi.expanded_state 0
              Reversi.expanded_root Hok Hvis Hn)
    as (_ & _ & [(w & wd & Hd & Hw & Hmax & _)|[_ Hnone]] & Hun);
    [reflexivity| |].
  - exists w, wd. auto.
  - exfalso.
    assert (Hin : 1 ∈ children Reversi.expanded_root)
      by (apply elem_of_cons; now left).
    pose proof (Hun 1 Reversi.first_child Hin H1 eq_refl) as Ht.
    rewrite (Hnone 1 Hin) in Ht. discriminate.
Defined.

(** Witness of X12: three iterations of black on the opening position. *)
Lemma search_prefix_expanded_once_witness :
  expanded_once (search_prefix (AIPlayer_init X) 0 3
                   (Reversi.caller_state Reversi.initial_board [])).2.
Proof.
  apply (search_prefix_expanded_once (AIPlayer_init X) 0 3
           (Reversi.caller_state Reversi.initial_board [])
           Reversi.initial_board); reflexivity.
Defined.

(** Witness of X13: black types a square that is not on the board, then a
    legal square in lower case, then the legal square "D3". *)
Lemma HumanPlayer_get_move_returns_witness :
  exists skipped line,
    ["Z9"; "d3"; "D3"; "Q"] = skipped ++ line :: ["Q"] /\
    ("D3" = line /\
     line ∈ @get_legal_actions _ _ ReversiText.position
              Reversi.initial_board X).
Proof.
  destruct (HumanPlayer_get_move_returns (HPos := ReversiText.position)
              (mkHumanPlayer X) Reversi.initial_board
              ["Z9"; "d3"; "D3"; "Q"] "D3" ["Q"])
    as (skipped & line & H1 & _ & [[[->| ->] H2]|(H2 & _ & H3)]).
  - vm_compute. reflexivity.
  - discriminate.
  - discriminate.
  - exists skipped, line. auto.
Defined.

(** Witness of X14: after the same two lines, an empty line makes
    [action[1]] fail. *)
Lemma HumanPlayer_get_move_next_witness :
  HumanPlayer_get_move (HPos := ReversiText.position) (mkHumanPlayer X)
    Reversi.initial_board ["Z9"; "d3"; ""; "D3"]
  = (Fails IndexError, ["D3"]).
Proof.
  destruct (HumanPlayer_get_move_next (HPos := ReversiText.position)
              (mkHumanPlayer X) Reversi.initial_board ["Z9"; "d3"])
    as (_ & _ & _ & H).
  - constructor; [vm_compute; reflexivity|].
    constructor; [vm_compute; reflexivity|]. constructor.
  - apply (H "" ["D3"]); [discriminate|discriminate|cbn; lia].
Defined.

(** Witness of X16: after three iterations of black on the opening
    position the root has three visits and its children 1, 1, 0 and 0. *)
Lemma search_prefix_visits_accounted_witness :
  let st' := (search_prefix (AIPlayer_init X) 0 3
                (Reversi.caller_state Reversi.initial_board [])).2 in
  exists md, nodes st' !! 0 = Some md /\
             visits md = 1 + visits_of (nodes st') (children md).
Proof.
  cbv zeta.
  assert (E : nodes (search_prefix (AIPlayer_init X) 0 3
                       (Reversi.caller_state Reversi.initial_board [])).2
              !! 0
              = Some {| visits := 3; reward := Z2float (-26); now_board := 1;
                        children := [1; 2; 3; 4]; parent := None;
                        action := None; color := X |}).
  { vm_compute. reflexivity. }
  destruct (search_prefix_visits_accounted (AIPlayer_init X) 0 3
              (Reversi.caller_state Reversi.initial_board [])
              Reversi.initial_board eq_refl eq_refl) as [_ H].
  revert E H.
  generalize (search_prefix (AIPlayer_init X) 0 3
                (Reversi.caller_state Reversi.initial_board [])).2.
  intros st' E H. eexists. split; [exact E|].
  apply (H 0 _ E). discriminate.
Defined.

(** Witness of X17: the reward 10 ^ 400 backed up from node 3 of
    [expanded_state]: the call raises, node 3 has its first visit and the
    root, its parent, still has one. *)
Lemma backup_overflow_witness :
  let r := backup (AIPlayer_init X) 3 (10 ^ 400) Reversi.expanded_state in
  r.1 = Raise OverflowError /\
  visits <$> nodes r.2 !! 3 = Some 1 /\ visits <$> nodes r.2 !! 0 = Some 1.
Proof.
  cbv zeta.
  destruct (nodes Reversi.expanded_state !! 3) as [x3|] eqn:E3;
    [|vm_compute in E3; discriminate].
  rewrite (backup_overflow (AIPlayer_init X) 3 (10 ^ 400)
             Reversi.expanded_state x3 E3);
    [|vm_compute; reflexivity].
  vm_compute in E3. injection E3 as <-. vm_compute. repeat split.
Defined.
